(** * Road-network graph engine: graph builder, A* pathfinder, segment
      assembler and status reconciler.

    Shallow embedding of [src/lib/routing.ts], of the routing-related
    parts of the [MapContainer] component and of the reading side of
    [src/lib/updateLog.ts].  JavaScript numbers are kept
    abstract: the development is parametric in a [Number] structure that
    provides the arithmetic, comparison and [Math.*] primitives the code
    calls.  Structural properties of the graph hold for every such
    structure; the results about path costs additionally assume the laws of
    exact, totally ordered arithmetic ([NumberLaws]). *)

From stdpp Require Import gmap strings list pretty.
From Stdlib Require Import QArith Qcanon.

Close Scope Qc_scope.
Close Scope Q_scope.
Open Scope string_scope.
Open Scope list_scope.
Open Scope nat_scope.

(** ** Numbers *)

(** The operations on JavaScript numbers used by the code. [lit q] is the
    value of the decimal literal [q]; [toFixed x n] is [x.toFixed(n)]. *)
Class Number := {
  num : Type;
  lit : Q → num;
  infinity : num;
  PI : num;
  add : num → num → num;
  sub : num → num → num;
  mul : num → num → num;
  div : num → num → num;
  ltb : num → num → bool;
  leb : num → num → bool;
  sin : num → num;
  cos : num → num;
  atan2 : num → num → num;
  sqrt : num → num;
  abs : num → num;
  pow : num → num → num;
  fmax : num → num → num;
  fmin : num → num → num;
  neg : num → num;
  eqb : num → num → bool;
  toFixed : num → nat → string;
}.

Declare Scope num_scope.
Delimit Scope num_scope with num.
Infix "+" := add : num_scope.
Infix "-" := sub : num_scope.
Infix "*" := mul : num_scope.
Infix "/" := div : num_scope.
Infix "<?" := ltb : num_scope.
Infix "<=?" := leb : num_scope.

(** ** Data model *)

Inductive RoadStatus := passable | restricted | blocked.

Global Instance RoadStatus_eq_dec : EqDecision RoadStatus.
Proof. solve_decision. Defined.

(** How a call ends: it returns, it raises the [TypeError] of reading a
    property of [graph.nodes[i]] when that is undefined, or the model ran
    out of fuel. *)
Inductive Completion (A : Type) :=
  | Returned (a : A)
  | Thrown (i : Z)
  | OutOfFuel.
Arguments Returned {A} a.
Arguments Thrown {A} i.
Arguments OutOfFuel {A}.

Section Routing.
Context `{Number}.

Definition Coord : Type := num * num.

(** The property bag of a feature, reduced to the keys the code reads. *)
Record Properties := {
  highway : option string;
  at_id : option string;
  prop_id : option string;
  name : option string;
}.

Definition noProperties : Properties :=
  {| highway := None; at_id := None; prop_id := None; name := None |}.

Record RoadSegment := {
  seg_id : string;
  coordinates : list Coord;
  properties : Properties;
  status : RoadStatus;
}.

Record GraphEdge := { to : nat; cost : num }.

Record GraphNode := {
  id : nat;
  lat : num;
  lng : num;
  edges : list GraphEdge;
}.

Record Graph := { nodes : list GraphNode }.

(** ** Graph builder *)

Definition haversineDistance (lat1 lon1 lat2 lon2 : num) : num :=
  (let R := lit 6371000 in
   let dLat := ((lat2 - lat1) * PI) / lit 180 in
   let dLon := ((lon2 - lon1) * PI) / lit 180 in
   let a :=
     sin (dLat / lit 2) * sin (dLat / lit 2) +
     cos ((lat1 * PI) / lit 180) *
       cos ((lat2 * PI) / lit 180) *
       sin (dLon / lit 2) *
       sin (dLon / lit 2) in
   R * lit 2 * atan2 (sqrt a) (sqrt (lit 1 - a)))%num.

(** The local state of one [buildGraph] call: the [nodes] array and the
    [nodeIndexMap]. *)
Record BuildState := {
  bs_nodes : list GraphNode;
  nodeIndexMap : gmap string nat;
}.

Definition nodeKey (lat lng : num) : string :=
  toFixed lat 9 +:+ "," +:+ toFixed lng 9.

Definition getOrCreateNode (st : BuildState) (lat lng : num) : BuildState * nat :=
  let key := nodeKey lat lng in
  match nodeIndexMap st !! key with
  | Some i => (st, i)
  | None =>
      let node := {| id := length (bs_nodes st); lat := lat; lng := lng; edges := [] |} in
      ({| bs_nodes := bs_nodes st ++ [node];
          nodeIndexMap := <[key := id node]> (nodeIndexMap st) |}, id node)
  end.

(** [nodes[idx].edges.push(e)]; [None] is the [TypeError] raised when
    [nodes[idx]] is undefined. *)
Definition pushEdge (ns : list GraphNode) (idx : nat) (e : GraphEdge)
  : option (list GraphNode) :=
  match ns !! idx with
  | Some n =>
      Some (<[idx := {| id := id n; lat := lat n; lng := lng n;
                        edges := edges n ++ [e] |}]> ns)
  | None => None
  end.

(** The multiplier chosen from the vehicle class and the segment status. *)
Definition baseCost (tallVehicleMode : bool) (s : RoadStatus) : num :=
  if tallVehicleMode
  then (if decide (s = restricted) then lit (1 # 2) else lit 1)
  else (if decide (s = restricted) then lit 3 else lit 1).

(** The body of the loop over the consecutive coordinate pairs of one
    segment. *)
Definition linkPair (bc : num) (st : BuildState) (p q : Coord) : option BuildState :=
  let '(lat1, lng1) := p in
  let '(lat2, lng2) := q in
  let '(st1, idx1) := getOrCreateNode st lat1 lng1 in
  let '(st2, idx2) := getOrCreateNode st1 lat2 lng2 in
  let dist := (haversineDistance lat1 lng1 lat2 lng2 * bc)%num in
  ns1 ← pushEdge (bs_nodes st2) idx1 {| to := idx2; cost := dist |};
  ns2 ← pushEdge ns1 idx2 {| to := idx1; cost := dist |};
  Some {| bs_nodes := ns2; nodeIndexMap := nodeIndexMap st2 |}.

Fixpoint addCoords (bc : num) (coords : list Coord) (st : BuildState)
  : option BuildState :=
  match coords with
  | p :: ((q :: _) as rest) =>
      st' ← linkPair bc st p q;
      addCoords bc rest st'
  | _ => Some st
  end.

Definition addSegment (tallVehicleMode : bool) (st : BuildState) (seg : RoadSegment)
  : option BuildState :=
  if decide (status seg = blocked) then Some st
  else addCoords (baseCost tallVehicleMode (status seg)) (coordinates seg) st.

Fixpoint addSegments (tallVehicleMode : bool) (segs : list RoadSegment)
  (st : BuildState) : option BuildState :=
  match segs with
  | [] => Some st
  | seg :: rest =>
      st' ← addSegment tallVehicleMode st seg;
      addSegments tallVehicleMode rest st'
  end.

Definition emptyBuild : BuildState := {| bs_nodes := []; nodeIndexMap := ∅ |}.

Definition buildGraph (roadSegments : list RoadSegment) (tallVehicleMode : bool)
  : option Graph :=
  st ← addSegments tallVehicleMode roadSegments emptyBuild;
  Some {| nodes := bs_nodes st |}.

(** ** Nearest node *)

(** [-1] is the value returned when no node was selected. *)
Definition findNearestNode (graph : Graph) (lat0 lng0 : num) : Z :=
  fst (foldl
         (λ '(bestIdx, bestDist) '(idx, node),
            let d := haversineDistance lat0 lng0 (lat node) (lng node) in
            if (d <? bestDist)%num then (Z.of_nat idx, d) else (bestIdx, bestDist))
         ((-1)%Z, infinity)
         (imap pair (nodes graph))).

(** ** A* *)

(** The local state of one [astar] call.  [openSet] is a JavaScript [Set]:
    iteration follows insertion order, so it is kept as a duplicate-free
    list. *)
Record AStarState := {
  openSet : list nat;
  cameFrom : gmap nat nat;
  gScore : gmap nat num;
  fScore : gmap nat num;
}.

Definition setAdd (x : nat) (s : list nat) : list nat :=
  if decide (x ∈ s) then s else s ++ [x].

Definition setDelete (x : nat) (s : list nat) : list nat :=
  filter (λ y, y ≠ x) s.

Definition heuristic (a b : GraphNode) : num :=
  haversineDistance (lat a) (lng a) (lat b) (lng b).

(** [graph.nodes[i]] for a number [i]. *)
Definition nodeAt (graph : Graph) (i : Z) : option GraphNode :=
  if decide (0 ≤ i)%Z then nodes graph !! Z.to_nat i else None.

Definition initScores (graph : Graph) : gmap nat num :=
  foldl (λ m node, <[id node := infinity]> m) ∅ (nodes graph).

(** The scan of the open set for the entry of least [fScore]; [None] is
    the initial [current = -1]. *)
Definition pickCurrent (fS : gmap nat num) (open : list nat) : option nat * num :=
  foldl
    (λ '(current, currentF) idx,
       match fS !! idx with
       | Some score => if (score <? currentF)%num then (Some idx, score)
                       else (current, currentF)
       | None => (current, currentF)
       end)
    (None, infinity) open.

(** One iteration of the loop over [graph.nodes[current].edges]. A score
    missing from a map makes the comparison false. *)
Definition relaxEdge (graph : Graph) (goalNode : GraphNode) (current : nat)
  (st : AStarState) (edge : GraphEdge) : Completion AStarState :=
  match gScore st !! current, gScore st !! to edge with
  | Some gc, Some gt =>
      let tentativeG := (gc + cost edge)%num in
      if (tentativeG <? gt)%num then
        match nodes graph !! to edge with
        | Some n =>
            Returned
              {| openSet := setAdd (to edge) (openSet st);
                 cameFrom := <[to edge := current]> (cameFrom st);
                 gScore := <[to edge := tentativeG]> (gScore st);
                 fScore := <[to edge := (tentativeG + heuristic n goalNode)%num]> (fScore st) |}
        | None => Thrown (Z.of_nat (to edge))
        end
      else Returned st
  | _, _ => Returned st
  end.

Fixpoint relaxEdges (graph : Graph) (goalNode : GraphNode) (current : nat)
  (es : list GraphEdge) (st : AStarState) : Completion AStarState :=
  match es with
  | [] => Returned st
  | e :: es' =>
      match relaxEdge graph goalNode current st e with
      | Returned st' => relaxEdges graph goalNode current es' st'
      | Thrown i => Thrown i
      | OutOfFuel => OutOfFuel
      end
  end.

(** Following the back-pointers from the goal. *)
Fixpoint reconstructPath (fuel : nat) (cf : gmap nat nat) (current : nat)
  (path : list nat) : Completion (list nat) :=
  match cf !! current with
  | None => Returned path
  | Some prev =>
      match fuel with
      | 0 => OutOfFuel
      | S fuel' => reconstructPath fuel' cf prev (prev :: path)
      end
  end.

(** What one pass through the body of [while (openSet.size > 0)] does:
    it leaves the loop, or goes round again with a new state. *)
Inductive LoopStep :=
  | Continue (st : AStarState)
  | Finish (c : Completion (option (list nat) * AStarState)).

(** One test of the loop condition followed by one pass through the body.
    The result carries the state in which the loop ended next to the value
    [astar] returns. *)
Definition astarIter (fuel : nat) (graph : Graph) (goal : nat) (goalNode : GraphNode)
  (st : AStarState) : LoopStep :=
  match openSet st with
  | [] => Finish (Returned (None, st))
  | _ =>
      match fst (pickCurrent (fScore st) (openSet st)) with
      | Some current =>
          if decide (current = goal) then
            match reconstructPath fuel (cameFrom st) current [current] with
            | Returned path => Finish (Returned (Some path, st))
            | Thrown i => Finish (Thrown i)
            | OutOfFuel => Finish OutOfFuel
            end
          else
            let st1 := {| openSet := setDelete current (openSet st);
                          cameFrom := cameFrom st;
                          gScore := gScore st;
                          fScore := fScore st |} in
            match nodes graph !! current with
            | Some node =>
                match relaxEdges graph goalNode current (edges node) st1 with
                | Returned st2 => Continue st2
                | Thrown i => Finish (Thrown i)
                | OutOfFuel => Finish OutOfFuel
                end
            | None => Finish (Thrown (Z.of_nat current))
            end
      | None => Finish (Thrown (-1))
      end
  end.

Fixpoint astarLoop (fuel : nat) (graph : Graph) (goal : nat) (goalNode : GraphNode)
  (st : AStarState) : Completion (option (list nat) * AStarState) :=
  match fuel with
  | 0 => OutOfFuel
  | S fuel' =>
      match astarIter fuel' graph goal goalNode st with
      | Continue st' => astarLoop fuel' graph goal goalNode st'
      | Finish c => c
      end
  end.

Definition astarInit (graph : Graph) (start : nat) (startNode goalNode : GraphNode)
  : AStarState :=
  {| openSet := [start];
     cameFrom := ∅;
     gScore := <[start := lit 0]> (initScores graph);
     fScore := <[start := heuristic startNode goalNode]> (initScores graph) |}.

Definition astarSearch (fuel : nat) (graph : Graph) (startIdx goalIdx : Z)
  : Completion (option (list nat) * AStarState) :=
  match nodeAt graph startIdx with
  | None => Thrown startIdx
  | Some startNode =>
      match nodeAt graph goalIdx with
      | None => Thrown goalIdx
      | Some goalNode =>
          astarLoop fuel graph (Z.to_nat goalIdx) goalNode
            (astarInit graph (Z.to_nat startIdx) startNode goalNode)
      end
  end.

Definition astar (fuel : nat) (graph : Graph) (startIdx goalIdx : Z)
  : Completion (option (list nat)) :=
  match astarSearch fuel graph startIdx goalIdx with
  | Returned (r, _) => Returned r
  | Thrown i => Thrown i
  | OutOfFuel => OutOfFuel
  end.

(** ** Route post-processing *)

Definition nodesToLatLng (graph : Graph) (pathIdxs : list nat) : option (list Coord) :=
  mapM (λ idx, n ← nodes graph !! idx; Some (lat n, lng n)) pathIdxs.

Fixpoint sumLegs (graph : Graph) (pathIdxs : list nat) (totalDistance : num)
  : option num :=
  match pathIdxs with
  | i :: ((j :: _) as rest) =>
      currentNode ← nodes graph !! i;
      nextNode ← nodes graph !! j;
      let distance := haversineDistance (lat currentNode) (lng currentNode)
                        (lat nextNode) (lng nextNode) in
      sumLegs graph rest (totalDistance + distance)%num
  | _ => Some totalDistance
  end.

Definition calculateRouteDistance (graph : Graph) (pathIdxs : list nat) : option num :=
  if decide (length pathIdxs < 2) then Some (lit 0)
  else sumLegs graph pathIdxs (lit 0).

Definition calculateETA (distanceMeters avgSpeedKmh : num) : num :=
  (let distanceKm := distanceMeters / lit 1000 in
   let timeHours := distanceKm / avgSpeedKmh in
   timeHours * lit 60)%num.

(** ** The routing effect of the map component *)

Inductive RouteOutcome :=
  | LookupFailure
  | NoRoute
  | Route (path : list nat) (coords : list Coord) (distance eta : num)
  | RouteError
  | RouteOutOfFuel.

Definition filterForVehicle (tallVehicleRouting : bool) (roadSegments : list RoadSegment)
  : list RoadSegment :=
  if tallVehicleRouting
  then filter (λ s, status s = restricted ∨ status s = passable) roadSegments
  else filter (λ s, status s = passable) roadSegments.

(** The [try] block of the routing effect, which runs when both points are
    set, there are segments and routing is enabled; an exception ends in
    the [catch] clause, [RouteError]. *)
Definition routeEffect (fuel : nat) (roadSegments : list RoadSegment)
  (tallVehicleRouting : bool) (startPoint endPoint : Coord) : RouteOutcome :=
  let filteredSegments := filterForVehicle tallVehicleRouting roadSegments in
  match buildGraph filteredSegments tallVehicleRouting with
  | None => RouteError
  | Some graph =>
      let startNodeIdx := findNearestNode graph (fst startPoint) (snd startPoint) in
      let endNodeIdx := findNearestNode graph (fst endPoint) (snd endPoint) in
      if decide (startNodeIdx = (-1)%Z ∨ endNodeIdx = (-1)%Z) then LookupFailure
      else
        match astar fuel graph startNodeIdx endNodeIdx with
        | Returned None => NoRoute
        | Returned (Some []) => NoRoute
        | Returned (Some routeNodes) =>
            match nodesToLatLng graph routeNodes,
                  calculateRouteDistance graph routeNodes with
            | Some routeCoords, Some distance =>
                Route routeNodes routeCoords distance (calculateETA distance (lit 30))
            | _, _ => RouteError
            end
        | Thrown _ => RouteError
        | OutOfFuel => RouteOutOfFuel
        end
  end.

End Routing.

(** ** Segment assembler *)

Section Assembler.
Context `{Number}.

(** The module-level counter behind [makeId]: each call returns the next
    [segment_n] and the incremented counter. *)
Definition makeId (counter : nat) : string * nat :=
  ("segment_" +:+ pretty (S counter), S counter).

(** JavaScript's [ToInt32]: wrap-around into the signed 32-bit range. *)
Definition toInt32 (z : Z) : Z := ((z + 2 ^ 31) `mod` 2 ^ 32 - 2 ^ 31)%Z.

Definition charCode (c : Ascii.ascii) : Z := Z.of_N (Ascii.N_of_ascii c).

(** One round of the hash loop: [hash = ((hash << 5) - hash) + char]
    followed by [hash = hash & hash]. *)
Definition hashStep (hash : Z) (c : Ascii.ascii) : Z :=
  let hash1 := (toInt32 (Z.shiftl (toInt32 hash) 5) - hash + charCode c)%Z in
  toInt32 hash1.

Definition coordString (coordinates : list Coord) : string :=
  String.concat "|"
    (map (λ coord, toFixed (fst coord) 6 +:+ "," +:+ toFixed (snd coord) 6) coordinates).

Definition coordHash (coordinates : list Coord) : Z :=
  foldl hashStep 0%Z (String.list_ascii_of_string (coordString coordinates)).

(** Truthiness of an optional string: [undefined] and [""] are falsy. *)
Definition truthy (o : option string) : bool :=
  match o with
  | Some s => negb (String.eqb s "")
  | None => false
  end.

Definition createDeterministicId (coordinates : list Coord) (lineId : option string)
  (segmentIndex : option nat) : string :=
  match lineId, segmentIndex with
  | Some l, Some i =>
      if truthy lineId then l +:+ "_seg_" +:+ pretty i
      else "seg_" +:+ pretty (Z.abs (coordHash coordinates))
  | _, _ => "seg_" +:+ pretty (Z.abs (coordHash coordinates))
  end.

(** The consecutive point pairs [(l[i], l[i+1])] of a polyline. *)
Definition legs (l : list Coord) : list (Coord * Coord) := zip l (drop 1 l).

Definition getLineIntersection (p1 p2 p3 p4 : Coord) : option Coord :=
  (let '(x1, y1) := p1 in
   let '(x2, y2) := p2 in
   let '(x3, y3) := p3 in
   let '(x4, y4) := p4 in
   let denom := (x1 - x2) * (y3 - y4) - (y1 - y2) * (x3 - x4) in
   if abs denom <? lit (1 # 10000000000) then None
   else
     let t := ((x1 - x3) * (y3 - y4) - (y1 - y3) * (x3 - x4)) / denom in
     let u := neg ((x1 - x2) * (y1 - y3) - (y1 - y2) * (x1 - x3)) / denom in
     if (lit 0 <=? t) && (t <=? lit 1) && (lit 0 <=? u) && (u <=? lit 1)
     then Some (x1 + t * (x2 - x1), y1 + t * (y2 - y1))
     else None)%num.

Definition findIntersections (line1 line2 : list Coord) : list Coord :=
  flat_map
    (λ '(a, b),
       omap (λ '(c, d), getLineIntersection a b c d) (legs line2))
    (legs line1).

Definition getProjectionDistance (point lineStart lineEnd : Coord) : num :=
  (let dx := fst lineEnd - fst lineStart in
   let dy := snd lineEnd - snd lineStart in
   let length := sqrt (dx * dx + dy * dy) in
   if eqb length (lit 0) then lit 0
   else
     let t := fmax (lit 0) (fmin (lit 1)
                (((fst point - fst lineStart) * dx + (snd point - snd lineStart) * dy)
                 / (length * length))) in
     t * length)%num.

Definition pointToLineDistance (point lineStart lineEnd : Coord) : num :=
  (let dx := fst lineEnd - fst lineStart in
   let dy := snd lineEnd - snd lineStart in
   let length := sqrt (dx * dx + dy * dy) in
   if eqb length (lit 0) then
     sqrt (pow (fst point - fst lineStart) (lit 2) +
           pow (snd point - snd lineStart) (lit 2))
   else
     let t := fmax (lit 0) (fmin (lit 1)
                (((fst point - fst lineStart) * dx + (snd point - snd lineStart) * dy)
                 / (length * length))) in
     let projection := (fst lineStart + t * dx, snd lineStart + t * dy) in
     sqrt (pow (fst point - fst projection) (lit 2) +
           pow (snd point - snd projection) (lit 2)))%num.

Definition getDistanceAlongLine (line : list Coord) (point : Coord) : num :=
  (snd (fst
     (foldl
        (λ '(minDistance, bestDistance, accumulatedDistance) '(segmentStart, segmentEnd),
           let segmentLength :=
             sqrt (pow (fst segmentEnd - fst segmentStart) (lit 2) +
                   pow (snd segmentEnd - snd segmentStart) (lit 2)) in
           let distanceToSegment := pointToLineDistance point segmentStart segmentEnd in
           if distanceToSegment <? minDistance
           then (distanceToSegment,
                 accumulatedDistance + getProjectionDistance point segmentStart segmentEnd,
                 accumulatedDistance + segmentLength)
           else (minDistance, bestDistance, accumulatedDistance + segmentLength))
        (infinity, lit 0, lit 0)
        (legs line))))%num.

Definition findNearestPointIndex (line : list Coord) (point : Coord) : nat :=
  (snd
     (foldl
        (λ '(minDistance, nearestIndex) '(i, p),
           let distance :=
             sqrt (pow (fst p - fst point) (lit 2) + pow (snd p - snd point) (lit 2)) in
           if distance <? minDistance then (distance, i) else (minDistance, nearestIndex))
        (infinity, 0)
        (imap pair line)))%num.

(** [Array.prototype.sort] with the comparator [(a, b) => a.distance -
    b.distance]: a stable sort, written as insertion after the last entry
    that does not compare greater. *)
Fixpoint insertByDistance (x : Coord * num) (l : list (Coord * num))
  : list (Coord * num) :=
  match l with
  | [] => [x]
  | y :: l' =>
      if (snd x - snd y <? lit 0)%num then x :: y :: l'
      else y :: insertByDistance x l'
  end.

Definition sortByDistance (l : list (Coord * num)) : list (Coord * num) :=
  foldl (λ acc x, insertByDistance x acc) [] l.

(** [line.slice(from, upto)] for non-negative arguments. *)
Definition slice (line : list Coord) (from upto : nat) : list Coord :=
  take (upto - from) (drop from line).

Definition newSegment (segmentId : string) (coords : list Coord) : RoadSegment :=
  {| seg_id := segmentId; coordinates := coords;
     properties := noProperties; status := passable |}.

(** One iteration of the loop over the sorted intersections; the state is
    [(segments, currentStart)]. *)
Definition splitStep (line : list Coord) (lineId : option string)
  (acc : list RoadSegment * nat) (intersection : Coord) : list RoadSegment * nat :=
  let '(segments, currentStart) := acc in
  let intersectionIndex := findNearestPointIndex line intersection in
  let segments' :=
    if decide (currentStart < intersectionIndex) then
      let segmentCoords := slice line currentStart (intersectionIndex + 1) in
      if decide (1 < length segmentCoords) then
        segments ++
          [newSegment (createDeterministicId segmentCoords lineId (Some (length segments)))
             segmentCoords]
      else segments
    else segments in
  (segments', intersectionIndex).

Definition splitLineAtIntersections (line intersections : list Coord)
  (lineId : option string) : list RoadSegment :=
  if decide (length intersections = 0) then
    [newSegment (createDeterministicId line lineId (Some 0)) line]
  else
    let sortedIntersections :=
      map fst (sortByDistance
                 (map (λ intersection, (intersection, getDistanceAlongLine line intersection))
                    intersections)) in
    let '(segments, currentStart) :=
      foldl (splitStep line lineId) ([], 0) sortedIntersections in
    if decide (Z.of_nat currentStart < Z.of_nat (length line) - 1)%Z then
      let segmentCoords := drop currentStart line in
      if decide (1 < length segmentCoords) then
        segments ++
          [newSegment (createDeterministicId segmentCoords lineId (Some (length segments)))
             segmentCoords]
      else segments
    else segments.

(** A raw feature: its property bag and the [[lng, lat]] pairs of its
    line string. *)
Record Feature := {
  feat_properties : Properties;
  feat_coordinates : list (num * num);
}.

Definition isRoad (feature : Feature) : bool :=
  truthy (highway (feat_properties feature)) &&
  negb (bool_decide (highway (feat_properties feature) ∈
          [Some "footway"; Some "cycleway"; Some "path"; Some "steps"])).

(** [coordinates.map(coord => [coord[1], coord[0]])] *)
Definition lineOf (feature : Feature) : list Coord :=
  map (λ coord, (snd coord, fst coord)) (feat_coordinates feature).

Fixpoint findAllIntersections (roadFeatures : list Feature) : list Coord :=
  match roadFeatures with
  | [] => []
  | f :: rest =>
      flat_map (λ g, findIntersections (lineOf f) (lineOf g)) rest
        ++ findAllIntersections rest
  end.

Definition lineIdOf (feature : Feature) : option string :=
  if truthy (at_id (feat_properties feature)) then at_id (feat_properties feature)
  else prop_id (feat_properties feature).

Definition onLine (line : list Coord) (intersection : Coord) : bool :=
  existsb
    (λ point,
       (abs (fst point - fst intersection) <? lit (1 # 10000)) &&
       (abs (snd point - snd intersection) <? lit (1 # 10000)))%num
    line.

(** The segments of one feature, with the stored status and the feature's
    properties written into them. *)
Definition segmentsOfFeature (allIntersections : list Coord)
  (latestStatusMap : gmap string RoadStatus) (feature : Feature) : list RoadSegment :=
  let line := lineOf feature in
  let lineId := lineIdOf feature in
  let lineIntersections := filter (λ i, onLine line i = true) allIntersections in
  let segments := splitLineAtIntersections line lineIntersections lineId in
  map (λ segment,
         {| seg_id := seg_id segment;
            coordinates := coordinates segment;
            properties := feat_properties feature;
            status := match latestStatusMap !! seg_id segment with
                      | Some dbStatus => dbStatus
                      | None => status segment
                      end |})
      segments.

(** [initializeSegments], given the resolved value of
    [getLatestStatusBySegment()]; the result is the argument of
    [setRoadSegments]. *)
Definition initializeSegments (roadData : list Feature)
  (latestStatusMap : gmap string RoadStatus) : list RoadSegment :=
  let roadFeatures := filter (λ f, isRoad f = true) roadData in
  let allIntersections := findAllIntersections roadFeatures in
  flat_map (segmentsOfFeature allIntersections latestStatusMap) roadFeatures.

End Assembler.

(** ** Status reconciler *)

Section Reconciler.
Context `{Number}.

Record RoadStatusUpdate := {
  segment_id : string;
  upd_status : RoadStatus;
}.

(** The component state the two handlers share: the [roadSegments] state,
    the [locallyUpdatedSegments] ref and the callbacks handed to
    [setTimeout] that have not run yet, each with its due time in
    milliseconds. *)
Record MapState := {
  roadSegments : list RoadSegment;
  locallyUpdatedSegments : gset string;
  timers : list (Z * string);
}.

Definition withStatus (s : RoadSegment) (newStatus : RoadStatus) : RoadSegment :=
  {| seg_id := seg_id s; coordinates := coordinates s;
     properties := properties s; status := newStatus |}.

Definition latestStatuses (roadStatusUpdates : list RoadStatusUpdate)
  : gmap string RoadStatus :=
  foldl (λ m update, <[segment_id update := upd_status update]> m) ∅ roadStatusUpdates.

(** The body of the effect on [roadStatusUpdates, roadSegments], run at
    time [now]. *)
Definition realTimeEffect (now : Z) (roadStatusUpdates : list RoadStatusUpdate)
  (st : MapState) : MapState :=
  if decide (length roadStatusUpdates = 0 ∨ length (roadSegments st) = 0) then st
  else
    let latestStatusMap := latestStatuses roadStatusUpdates in
    let pending := locallyUpdatedSegments st in
    let updatedSegments :=
      map (λ segment,
             if decide (seg_id segment ∈ pending) then segment
             else match latestStatusMap !! seg_id segment with
                  | Some latestStatus =>
                      if decide (latestStatus ≠ status segment)
                      then withStatus segment latestStatus
                      else segment
                  | None => segment
                  end)
          (roadSegments st) in
    let scheduled :=
      omap (λ segment,
              if decide (seg_id segment ∈ pending)
              then Some ((now + 2000)%Z, seg_id segment) else None)
           (roadSegments st) in
    let hasChanges :=
      existsb (λ '(segment, old), negb (bool_decide (status segment = status old)))
        (zip updatedSegments (roadSegments st)) in
    {| roadSegments := if hasChanges then updatedSegments else roadSegments st;
       locallyUpdatedSegments := pending;
       timers := timers st ++ scheduled |}.

(** [handleSegmentStatusSelect], with the segment held by the selector. *)
Definition handleSegmentStatusSelect (segment : option RoadSegment)
  (newStatus : RoadStatus) (st : MapState) : MapState :=
  match segment with
  | None => st
  | Some segment =>
      {| roadSegments :=
           map (λ s, if decide (seg_id s = seg_id segment)
                     then withStatus s newStatus else s)
               (roadSegments st);
         locallyUpdatedSegments := locallyUpdatedSegments st ∪ {[seg_id segment]};
         timers := timers st |}
  end.

(** Running the timer callbacks that are due at [now]. *)
Definition fireTimers (now : Z) (st : MapState) : MapState :=
  {| roadSegments := roadSegments st;
     locallyUpdatedSegments :=
       foldl (λ s '(due, segId), if decide (due ≤ now)%Z then s ∖ {[segId]} else s)
         (locallyUpdatedSegments st) (timers st);
     timers := filter (λ t, ¬ (fst t ≤ now)%Z) (timers st) |}.

Inductive Event :=
  | StatusSelect (segment : option RoadSegment) (newStatus : RoadStatus)
  | RealTimeUpdates (roadStatusUpdates : list RoadStatusUpdate).

(** One event of the single-threaded event loop, at time [now]: the due
    timers run first, then the handler. *)
Definition handleEvent (st : MapState) (e : Z * Event) : MapState :=
  let st' := fireTimers (fst e) st in
  match snd e with
  | StatusSelect segment newStatus => handleSegmentStatusSelect segment newStatus st'
  | RealTimeUpdates roadStatusUpdates => realTimeEffect (fst e) roadStatusUpdates st'
  end.

Definition runEvents (st : MapState) (es : list (Z * Event)) : MapState :=
  foldl handleEvent st es.

Definition statusOf (segId : string) (st : MapState) : option RoadStatus :=
  status <$> head (filter (λ s, seg_id s = segId) (roadSegments st)).

End Reconciler.

(** ** Exact arithmetic *)

(** A [Number] structure for evaluating the code on concrete inputs: exact
    rationals with a top element for [Infinity].  [Math.sin], [Math.cos]
    and [Math.atan2] are taken at first order ([sin x = x], [cos x = 1],
    [atan2 y x = y]) and [Math.sqrt] is exact on squares of rationals, so
    that [haversineDistance] between two points of one meridian is
    [6371000 * PI / 180] times the difference of their latitudes. *)
Module Exact.

Inductive xnum := Fin (q : Qc) | Inf.

Definition xlit (q : Q) : xnum := Fin (Q2Qc q).

Definition lift2 (f : Qc → Qc → Qc) (x y : xnum) : xnum :=
  match x, y with
  | Fin a, Fin b => Fin (f a b)
  | _, _ => Inf
  end.

Definition lift1 (f : Qc → Qc) (x : xnum) : xnum :=
  match x with
  | Fin a => Fin (f a)
  | Inf => Inf
  end.

Definition xdiv (x y : xnum) : xnum :=
  match x, y with
  | Fin a, Fin b => if decide (b = Q2Qc 0) then Inf else Fin (a / b)%Qc
  | _, _ => Inf
  end.

Definition xltb (x y : xnum) : bool :=
  match x, y with
  | Fin a, Fin b => match (a ?= b)%Qc with Lt => true | _ => false end
  | Fin _, Inf => true
  | Inf, _ => false
  end.

Definition xleb (x y : xnum) : bool := negb (xltb y x).

Definition xeqb (x y : xnum) : bool := xleb x y && xleb y x.

Definition qabs (a : Qc) : Qc :=
  match (a ?= Q2Qc 0)%Qc with Lt => (- a)%Qc | _ => a end.

(** Square root, exact on the squares of rationals. *)
Definition qsqrt (a : Qc) : Qc :=
  let n := Qnum a in
  let d := Z.pos (Qden a) in
  Q2Qc (Qmake (Z.sqrt (n * d * 10 ^ 24)) (Z.to_pos (d * 10 ^ 12))).

Definition xpow (x y : xnum) : xnum :=
  match x, y with
  | Fin a, Fin b =>
      if decide (b = Q2Qc 2) then Fin (a * a)%Qc
      else if decide (b = Q2Qc 0) then Fin (Q2Qc 1)
      else if decide (b = Q2Qc 1) then Fin a
      else Inf
  | _, _ => Inf
  end.

Definition xmax (x y : xnum) : xnum := if xltb x y then y else x.
Definition xmin (x y : xnum) : xnum := if xltb y x then y else x.

(** [x.toFixed(n)]: the sign, then the nearest multiple of [10^-n] to the
    magnitude, the larger one on a tie. *)
Definition padded (n : nat) (frac : Z) : string :=
  match pretty (10 ^ Z.of_nat n + frac)%Z with
  | String _ s => s
  | EmptyString => EmptyString
  end.

Definition xtoFixed (x : xnum) (n : nat) : string :=
  match x with
  | Inf => "Infinity"
  | Fin a =>
      let negative := match (a ?= Q2Qc 0)%Qc with Lt => true | _ => false end in
      let m := qabs a in
      let scale := (10 ^ Z.of_nat n)%Z in
      let k := ((2 * Qnum m * scale + Z.pos (Qden m)) / (2 * Z.pos (Qden m)))%Z in
      (if negative then "-" else "") +:+
      pretty (k / scale)%Z +:+
      (if decide (n = 0) then "" else "." +:+ padded n (k `mod` scale)%Z)
  end.

Global Instance exact : Number := {|
  num := xnum;
  lit := xlit;
  infinity := Inf;
  PI := xlit 3.141592653589793;
  add := lift2 Qcplus;
  sub := lift2 Qcminus;
  mul := lift2 Qcmult;
  div := xdiv;
  ltb := xltb;
  leb := xleb;
  sin := λ x, x;
  cos := λ _, xlit 1;
  atan2 := λ y _, y;
  sqrt := lift1 qsqrt;
  abs := lift1 qabs;
  pow := xpow;
  fmax := xmax;
  fmin := xmin;
  neg := lift1 Qcopp;
  eqb := xeqb;
  toFixed := xtoFixed;
|}.

(** The latitude, in degrees, of the point [m] metres north of the
    equator. *)
Definition north (m : Q) : xnum :=
  xlit (m * 180 / (6371000 * 3.141592653589793)).

(** The value of a finite number, reduced. *)
Definition value (x : xnum) : option Q :=
  match x with
  | Fin a => Some (this a)
  | Inf => None
  end.

End Exact.

(** ** Specification vocabulary *)

Section GraphSpec.
Context `{Number}.

Definition keyOf (n : GraphNode) : string := nodeKey (lat n) (lng n).

Definition coordKey (p : Coord) : string := nodeKey (fst p) (snd p).

(** [edgeIn ns u v c]: the node at index [u] has an edge to [v] of cost [c]. *)
Definition edgeIn (ns : list GraphNode) (u v : nat) (c : num) : Prop :=
  ∃ n, ns !! u = Some n ∧ {| to := v; cost := c |} ∈ edges n.

(** The node standing for the coordinate [p]. *)
Definition nodeFor (ns : list GraphNode) (p : Coord) (i : nat) : Prop :=
  keyOf <$> ns !! i = Some (coordKey p).

Definition hasEdge (g : Graph) (p q : Coord) (c : num) : Prop :=
  ∃ i j, nodeFor (nodes g) p i ∧ nodeFor (nodes g) q j ∧ edgeIn (nodes g) i j c.

(** [p] and [q] are consecutive coordinates of [seg]. *)
Definition consecutive (seg : RoadSegment) (p q : Coord) : Prop :=
  ∃ k, coordinates seg !! k = Some p ∧ coordinates seg !! S k = Some q.

(** The graph [buildGraph] returns, and the keys of its nodes in order. *)
Definition builtGraph (segs : list RoadSegment) (tall : bool) : Graph :=
  default {| nodes := [] |} (buildGraph segs tall).

Definition nodeKeys (g : Graph) : list string := keyOf <$> nodes g.

Definition wellFormed (g : Graph) : Prop :=
  ∀ i n, nodes g !! i = Some n →
    id n = i ∧ ∀ e, e ∈ edges n → to e < length (nodes g).

Definition segmentCost (tall : bool) (seg : RoadSegment) (p q : Coord) : num :=
  (haversineDistance (fst p) (snd p) (fst q) (snd q) * baseCost tall (status seg))%num.

(** The edges a list of segments may give rise to. *)
Definition originates (segs : list RoadSegment) (tall : bool) (p q : Coord) (c : num)
  : Prop :=
  ∃ seg, seg ∈ segs ∧ status seg ≠ blocked ∧ consecutive seg p q ∧
         c = segmentCost tall seg p q.

Record BuildInv (P : Coord → Coord → num → Prop) (st : BuildState) : Prop := {
  inv_index : ∀ key i, nodeIndexMap st !! key = Some i →
                keyOf <$> bs_nodes st !! i = Some key;
  inv_id : ∀ i n, bs_nodes st !! i = Some n → id n = i;
  inv_key : ∀ i n, bs_nodes st !! i = Some n → nodeIndexMap st !! keyOf n = Some i;
  inv_coord : ∀ i n, bs_nodes st !! i = Some n →
                ∃ p q c, P p q c ∧ ((lat n, lng n) = p ∨ (lat n, lng n) = q);
  inv_sym : ∀ u v c, edgeIn (bs_nodes st) u v c → edgeIn (bs_nodes st) v u c;
  inv_origin : ∀ u v c, edgeIn (bs_nodes st) u v c →
                 ∃ p q, P p q c ∧
                   ((nodeIndexMap st !! coordKey p = Some u ∧
                     nodeIndexMap st !! coordKey q = Some v) ∨
                    (nodeIndexMap st !! coordKey q = Some u ∧
                     nodeIndexMap st !! coordKey p = Some v));
}.

Definition extends (st st' : BuildState) : Prop :=
  (∀ key i, nodeIndexMap st !! key = Some i → nodeIndexMap st' !! key = Some i) ∧
  (∀ u v c, edgeIn (bs_nodes st) u v c → edgeIn (bs_nodes st') u v c).

Definition linked (st : BuildState) (p q : Coord) (c : num) : Prop :=
  ∃ i j, nodeIndexMap st !! coordKey p = Some i ∧
         nodeIndexMap st !! coordKey q = Some j ∧
         edgeIn (bs_nodes st) i j c ∧ edgeIn (bs_nodes st) j i c.

End GraphSpec.

Section CostSpec.
Context `{Number}.

(** [x ⪯ y]: [x] is not greater than [y], in terms of the comparison the
    code uses. *)
Definition nle (x y : num) : Prop := (y <? x)%num = false.

(** The laws of exact, totally ordered arithmetic with [infinity] on top. *)
Class NumberLaws : Prop := {
  ltb_irrefl : ∀ x, (x <? x)%num = false;
  ltb_trans : ∀ x y z, (x <? y)%num = true → (y <? z)%num = true → (x <? z)%num = true;
  ltb_connex : ∀ x y, (x <? y)%num = false → (y <? x)%num = false → x = y;
  ltb_infinity : ∀ x, (infinity <? x)%num = false;
  add_comm : ∀ x y, (x + y)%num = (y + x)%num;
  add_assoc : ∀ x y z, (x + (y + z))%num = ((x + y) + z)%num;
  add_zero : ∀ x, (x + lit 0)%num = x;
  add_mono : ∀ x y z, nle x y → nle (x + z)%num (y + z)%num;
  mul_one : ∀ x, (x * lit 1)%num = x;
  mul_three : ∀ x, nle (lit 0) x → nle x (x * lit 3)%num;
}.

(** [walk ns vs c]: [vs] is a sequence of nodes, each joined to the next
    by an edge, and [c] is the sum of the costs of these edges. *)
Inductive walk (ns : list GraphNode) : list nat → num → Prop :=
  | walk_one v : walk ns [v] (lit 0)
  | walk_cons u v vs c1 c2 :
      edgeIn ns u v c1 → walk ns (v :: vs) c2 →
      walk ns (u :: v :: vs) (c1 + c2)%num.

(** All indices held by a state of [astar] are indices of nodes. *)
Definition inBounds (n : nat) (st : AStarState) : Prop :=
  (∀ u, u ∈ openSet st → u < n) ∧
  (∀ v u, cameFrom st !! v = Some u → u < n ∧ v < n).

(** [loopsTo graph goal goalNode st st']: passes through the loop body
    lead from [st] to [st'] without leaving the loop. *)
Inductive loopsTo (graph : Graph) (goal : nat) (goalNode : GraphNode)
  : AStarState → AStarState → Prop :=
  | loops_here st : loopsTo graph goal goalNode st st
  | loops_step fuel st st1 st2 :
      astarIter fuel graph goal goalNode st = Continue st1 →
      loopsTo graph goal goalNode st1 st2 →
      loopsTo graph goal goalNode st st2.

End CostSpec.

Infix "⪯" := nle (at level 70) : num_scope.

Section SearchSpec.
Context `{Number}.
Local Open Scope num_scope.

(** What makes the heuristic safe on a graph: edge costs are not negative,
    the estimate at one end of an edge is at most the cost of the edge plus
    the estimate at its other end, and the estimate at the goal is zero. *)
Record Consistent (g : Graph) (goal : nat) (goalNode : GraphNode) : Prop := {
  con_wf : wellFormed g;
  con_goal : nodes g !! goal = Some goalNode;
  con_nonneg : ∀ u v c, edgeIn (nodes g) u v c → lit 0 ⪯ c;
  con_edge : ∀ u v c nu nv,
      edgeIn (nodes g) u v c → nodes g !! u = Some nu → nodes g !! v = Some nv →
      heuristic nu goalNode ⪯ c + heuristic nv goalNode;
  con_at_goal : heuristic goalNode goalNode ⪯ lit 0;
  con_goal_nonneg : lit 0 ⪯ heuristic goalNode goalNode;
}.

(** The invariant of the search.  [cur] and [pending] describe the loop
    over the edges of the node being expanded: [cur] is that node and
    [pending] the edges not yet looked at; between two passes of the outer
    loop they are [None] and [[]]. *)
Record SearchInv (g : Graph) (start : nat) (goalNode : GraphNode)
  (cur : option nat) (pending : list GraphEdge) (st : AStarState) : Prop := {
  si_bounds : inBounds (length (nodes g)) st;
  si_scores : ∀ u, u < length (nodes g) → is_Some (gScore st !! u);
  si_start : gScore st !! start = Some (lit 0);
  si_nonneg : ∀ u gu, gScore st !! u = Some gu → lit 0 ⪯ gu;
  si_open : ∀ u, u ∈ openSet st →
      ∃ gu nu, gScore st !! u = Some gu ∧ nodes g !! u = Some nu ∧
               fScore st !! u = Some (gu + heuristic nu goalNode);
  si_root : ∀ u, (u ∈ openSet st ∨ cur = Some u ∨ ∃ v, cameFrom st !! v = Some u) →
      u = start ∨ is_Some (cameFrom st !! u);
  si_parent : ∀ v u, cameFrom st !! v = Some u →
      ∃ c gu gv, edgeIn (nodes g) u v c ∧ gScore st !! u = Some gu ∧
                 gScore st !! v = Some gv ∧ gu + c ⪯ gv;
  si_relaxed : ∀ u v c gu,
      u ∉ openSet st → edgeIn (nodes g) u v c → gScore st !! u = Some gu →
      (∃ gv, gScore st !! v = Some gv ∧ gv ⪯ gu + c) ∨
      (cur = Some u ∧ {| to := v; cost := c |} ∈ pending);
}.

(** The coordinates of the segments that are not blocked. *)
Definition coordsOf (segs : list RoadSegment) : list Coord :=
  flat_map coordinates (filter (λ s, status s ≠ blocked) segs).

Definition distance (p q : Coord) : num :=
  haversineDistance (fst p) (snd p) (fst q) (snd q).

(** [haversineDistance] behaves as a distance on the points [pts]. *)
Record MetricOn (pts : list Coord) : Prop := {
  dist_nonneg : ∀ p q, p ∈ pts → q ∈ pts → lit 0 ⪯ distance p q;
  dist_self : ∀ p, p ∈ pts → distance p p ⪯ lit 0;
  dist_sym : ∀ p q, p ∈ pts → q ∈ pts → distance p q ⪯ distance q p;
  dist_triangle : ∀ p q r, p ∈ pts → q ∈ pts → r ∈ pts →
      distance p r ⪯ distance p q + distance q r;
}.

(** Coordinates are told apart by their node keys. *)
Definition keysDistinct (pts : list Coord) : Prop :=
  ∀ p q, p ∈ pts → q ∈ pts → coordKey p = coordKey q → p = q.

End SearchSpec.

Section AssemblerSpec.
Context `{Number}.

(** Every segment's identifier is the one computed from its coordinates
    and its index in the list. *)
Definition idsFollowIndex (lineId : option string) (segments : list RoadSegment) : Prop :=
  ∀ k seg, segments !! k = Some seg →
    seg_id seg = createDeterministicId (coordinates seg) lineId (Some k).

Definition twoCoordinates (segments : list RoadSegment) : Prop :=
  ∀ seg, seg ∈ segments → 2 ≤ length (coordinates seg).

End AssemblerSpec.

(** ** Concrete inputs *)

(** Road networks on the meridian of longitude 0, evaluated in exact
    arithmetic. *)
Module Scenario.
Import Exact.

(** The point at latitude [latitude] degrees, and the point [m] metres
    north of the equator. *)
Definition point (latitude : Q) : @Coord exact := (xlit latitude, xlit 0).
Definition pointNorth (m : Q) : @Coord exact := (north m, xlit 0).

Definition segment (name : string) (s : RoadStatus) (cs : list (@Coord exact))
  : @RoadSegment exact :=
  {| seg_id := name; coordinates := cs; properties := noProperties; status := s |}.

Definition graphOf (segs : list (@RoadSegment exact)) (tall : bool) : @Graph exact :=
  builtGraph segs tall.

(** The edges of a graph as triples of source, target and cost. *)
Definition edgeList (g : @Graph exact) : list (nat * nat * option Q) :=
  mjoin (imap (λ i n, (λ e, (i, to e, value (cost e))) <$> edges n) (nodes g)).

(** The path [astar] returns together with the final [gScore] of the goal. *)
Definition searchSummary (fuel : nat) (g : @Graph exact) (s t : Z)
  : option (list nat * option Q) :=
  match astarSearch fuel g s t with
  | Returned (Some path, st) => Some (path, gScore st !! Z.to_nat t ≫= value)
  | _ => None
  end.

(** The path and the distance the routing effect reports. *)
Definition routeSummary (r : @RouteOutcome exact) : option (list nat * option Q) :=
  match r with
  | Route path _ distance _ => Some (path, value distance)
  | _ => None
  end.

(** Mode-dependent preference: a restricted segment of 100 m from [A] to
    [B] and a passable detour of 75 m + 175 m through [M]. *)
Definition A := pointNorth 0.
Definition B := pointNorth 100.
Definition M := pointNorth (-75).
Definition direct := segment "direct" restricted [A; B].
Definition detour := segment "detour" passable [A; M; B].
Definition preference := [direct; detour].

(** Two coordinates that share a node key without being equal, twice: [a1]
    and [b1] round to 1.000000000, [a2] and [b2] to 1.000200000. *)
Definition S := point 0.999.

(** Two roads that do not meet. *)
Definition C := pointNorth 1000.
Definition D := pointNorth 1100.
Definition islands := [segment "west" passable [A; B]; segment "east" passable [C; D]].

(** Raw features: a road with a single coordinate, a road with two, and a
    road whose two coordinates are the same point. *)
Definition road (lineId : string) (cs : list (xnum * xnum)) : @Feature exact :=
  {| feat_properties := {| highway := Some "residential"; at_id := Some lineId;
                           prop_id := None; name := None |};
     feat_coordinates := cs |}.
Definition stub := road "way/1" [(xlit 0, xlit 0)].
Definition street := road "way/2" [(xlit 0, xlit 0); (xlit 0, xlit 1)].
Definition twin := road "way/3" [(xlit 0, xlit 0); (xlit 0, xlit 0)].

(** The coordinates of a segment as rationals. *)
Definition coordinateValues (s : @RoadSegment exact) : list (option Q * option Q) :=
  (λ p, (value (fst p), value (snd p))) <$> coordinates s.

(** The reconciler: one segment [X], and the feed reporting a status for
    it. *)
Definition X := segment "X" passable [A; B].
Definition oneSegment : @MapState exact :=
  {| roadSegments := [X]; locallyUpdatedSegments := ∅; timers := [] |}.
Definition feed (s : RoadStatus) : list RoadStatusUpdate :=
  [{| segment_id := "X"; upd_status := s |}].

(** A local edit, the feed's older status right after it, and the same
    feed once more after the suppression window. *)
Definition editThenFeed : list (Z * @Event exact) :=
  [(0%Z, StatusSelect (Some X) blocked);
   (100%Z, RealTimeUpdates (feed passable))].
Definition feedAfterWindow : list (Z * @Event exact) :=
  [(2200%Z, RealTimeUpdates (feed passable))].

(** Two local edits of [X], 3.8 s apart, with the feed refreshed in
    between; then the feed, still holding the older status, 200 ms after
    the second edit. *)
Definition twoEdits : list (Z * @Event exact) :=
  [(0%Z, StatusSelect (Some X) blocked);
   (100%Z, RealTimeUpdates (feed blocked));
   (1900%Z, RealTimeUpdates (feed blocked));
   (3800%Z, StatusSelect (Some X) restricted);
   (3800%Z, RealTimeUpdates (feed blocked))].
Definition staleFeed : list (Z * @Event exact) :=
  [(4000%Z, RealTimeUpdates (feed blocked))].

End Scenario.

(** ** Placing routing points *)

Section MapInput.
Context `{Number}.

(** One pass through the inner loop of [findNearestRoadPoint]; the state
    is [(nearestPoint, minDistance)]. *)
Definition nearestOnLeg (click : Coord) (acc : option Coord * num) (leg : Coord * Coord)
  : option Coord * num :=
  (let '(nearestPoint, minDistance) := acc in
   let '((lat1, lng1), (lat2, lng2)) := leg in
   let distance := pointToLineDistance click (lat1, lng1) (lat2, lng2) in
   if (distance <? minDistance) && (distance <=? lit 100) then
     let projectionDistance := getProjectionDistance click (lat1, lng1) (lat2, lng2) in
     let segmentLength := sqrt (pow (lat2 - lat1) (lit 2) + pow (lng2 - lng1) (lit 2)) in
     let t := fmax (lit 0) (fmin (lit 1) (projectionDistance / segmentLength)) in
     (Some (lat1 + t * (lat2 - lat1), lng1 + t * (lng2 - lng1)), distance)
   else (nearestPoint, minDistance))%num.

Definition nearestOnSegment (click : Coord) (acc : option Coord * num)
  (segment : RoadSegment) : option Coord * num :=
  if decide (status segment = blocked) then acc
  else foldl (nearestOnLeg click) acc (legs (coordinates segment)).

Definition findNearestRoadPoint (roadSegments : list RoadSegment)
  (clickLat clickLng : num) : option Coord :=
  fst (foldl (nearestOnSegment (clickLat, clickLng)) (None, infinity) roadSegments).

(** The length of a polyline: the sum, from the left, of the haversine
    distances between consecutive points. *)
Definition polylineLength (coords : list Coord) : num :=
  foldl (λ total leg, (total + distance (fst leg) (snd leg))%num) (lit 0) (legs coords).

End MapInput.

(** ** The update log *)

(** A logged update, with [updated_at] as the time value of
    [new Date(updated_at)]: [None] for an invalid date. *)
Record StoredUpdate := {
  su_segment_id : string;
  su_status : RoadStatus;
  su_updated_at : option Z;
}.





(** ** Further specification vocabulary *)

Section RouteSpec.
Context `{Number}.

(** Every back-pointer of a state of [astar] follows an edge of the graph,
    and every node the state refers to is [start] or has a back-pointer. *)
Definition rooted (g : Graph) (start : nat) (st : AStarState) : Prop :=
  (∀ u, u ∈ openSet st → u = start ∨ is_Some (cameFrom st !! u)) ∧
  (∀ v u, cameFrom st !! v = Some u →
     (∃ c, edgeIn (nodes g) u v c) ∧ (u = start ∨ is_Some (cameFrom st !! u))).

(** [route g s t path]: [path] leads from node [s] to node [t] along edges
    of [g]. *)
Definition route (g : Graph) (s t : nat) (path : list nat) : Prop :=
  (∃ c, walk (nodes g) path c) ∧ head path = Some s ∧ last path = Some t.

(** The distance from [(lat0, lng0)] to a node, as [findNearestNode]
    computes it. *)
Definition distanceTo (lat0 lng0 : num) (node : GraphNode) : num :=
  haversineDistance lat0 lng0 (lat node) (lng node).

End RouteSpec.

Section NearestSpec.
Context `{Number}.

(** The distance from [point] to the vertex [p] of a line, as
    [findNearestPointIndex] computes it. *)
Definition vertexDistance (point p : Coord) : num :=
  (sqrt (pow (fst p - fst point) (lit 2) + pow (snd p - snd point) (lit 2)))%num.

End NearestSpec.

Section SizeSpec.
Context `{Number}.

(** The number of edge records of a graph, and the number of coordinate
    pairs of the segments that are not blocked. *)
Definition edgeCount (ns : list GraphNode) : nat :=
  sum_list_with (λ n, length (edges n)) ns.

Definition legCount (segs : list RoadSegment) : nat :=
  sum_list_with (λ s, length (coordinates s) - 1)
    (filter (λ s, status s ≠ blocked) segs).

End SizeSpec.

Section SplitSpec.
Context `{Number}.

(** The coordinates of [seg] are those of [line] from index [from] up to,
    not including, index [upto]. *)
Definition spans (line : list Coord) (seg : RoadSegment) (from upto : nat) : Prop :=
  coordinates seg = slice line from upto.

(** [seg] contains the pair of points of [line] at indices [i] and [i + 1]. *)
Definition coversLeg (line : list Coord) (seg : RoadSegment) (i : nat) : Prop :=
  ∃ from upto, spans line seg from upto ∧ from ≤ i ∧ S i < upto.

(** The pairs of points of [line] that start before index [bound] are
    each contained in a segment. *)
Definition coveredBelow (line : list Coord) (segments : list RoadSegment) (bound : nat)
  : Prop :=
  ∀ i, i < bound → S i < length line → ∃ seg, seg ∈ segments ∧ coversLeg line seg i.

(** Every segment is a passable stretch of [line]. *)
Definition stretches (line : list Coord) (segments : list RoadSegment) : Prop :=
  ∀ seg, seg ∈ segments → status seg = passable ∧ ∃ from upto, spans line seg from upto.

End SplitSpec.

Section ReconcilerSpec.
Context `{Number}.

(** The status the last update for [segId] in the feed carries. *)
Definition lastStatusFor (segId : string) (roadStatusUpdates : list RoadStatusUpdate)
  : option RoadStatus :=
  upd_status <$> last (filter (λ u, segment_id u = segId) roadStatusUpdates).

(** What a delivery of the feed makes of one segment. *)
Definition reconciled (pending : gset string) (roadStatusUpdates : list RoadStatusUpdate)
  (segment : RoadSegment) : RoadSegment :=
  if decide (seg_id segment ∈ pending) then segment
  else match lastStatusFor (seg_id segment) roadStatusUpdates with
       | Some s => withStatus segment s
       | None => segment
       end.

End ReconcilerSpec.

Section InputSpec.
Context `{Number}.

(** The point [findNearestRoadPoint] computes on the pair of points [leg]
    for a click at [click]. *)
Definition projectOnto (click : Coord) (leg : Coord * Coord) : Coord :=
  (let '((lat1, lng1), (lat2, lng2)) := leg in
   let projectionDistance := getProjectionDistance click (lat1, lng1) (lat2, lng2) in
   let segmentLength := sqrt (pow (lat2 - lat1) (lit 2) + pow (lng2 - lng1) (lit 2)) in
   let t := fmax (lit 0) (fmin (lit 1) (projectionDistance / segmentLength)) in
   (lat1 + t * (lat2 - lat1), lng1 + t * (lng2 - lng1)))%num.

(** [p] is the projection of [click] on a pair of consecutive coordinates
    of a segment that is not blocked, not farther than 100 from it. *)
Definition snappedTo (roadSegments : list RoadSegment) (click p : Coord) : Prop :=
  ∃ segment leg,
    segment ∈ roadSegments ∧ status segment ≠ blocked ∧
    leg ∈ legs (coordinates segment) ∧
    (pointToLineDistance click (fst leg) (snd leg) <=? lit 100)%num = true ∧
    p = projectOnto click leg.

End InputSpec.

Section CompletenessSpec.
Context `{Number}.

(** The goal is waiting in the open set, or its [gScore] is still the
    initial [Infinity]. *)
Definition goalPending (goal : nat) (st : AStarState) : Prop :=
  goal ∈ openSet st ∨ gScore st !! goal = Some infinity.

End CompletenessSpec.

(** ** Further concrete inputs *)

Module Samples.
Import Exact Scenario.

(** A point 10 m north of [A]: nearer to [A] than to [B] or [M]. *)
Definition nearA := pointNorth 10.

(** The coordinates of [islands], and those of the passable segments of
    [preference]. *)
Definition islandPoints := [A; B; C; D].

(** The heuristic at a node of a graph, when the node exists. *)
Definition selfDistanceFinite (g : @Graph exact) (i : nat) : bool :=
  match nodes g !! i with
  | Some n => (heuristic n n <? infinity)%num
  | None => false
  end.

Definition later : StoredUpdate :=
  {| su_segment_id := "way/2_seg_0"; su_status := restricted;
     su_updated_at := Some 1700000060000%Z |}.

End Samples.

(** * Verification *)

Lemma elem_of_flat_map {A B} (f : A → list B) (l : list A) (x : B) :
  x ∈ flat_map f l ↔ ∃ y, y ∈ l ∧ x ∈ f y.
Proof.
  induction l as [|a l IH]; simpl.
  - split; [by intros ?%elem_of_nil|]. by intros (y & ?%elem_of_nil & _).
  - rewrite elem_of_app, IH. split.
    + intros [Hx|(y & Hy & Hx)]; [exists a|exists y]; split; try done; by constructor.
    + intros (y & Hy & Hx). apply elem_of_cons in Hy as [->|Hy]; [by left|right; eauto].
Qed.

Section BuilderFacts.
Context `{Number}.
Implicit Types (st : BuildState) (ns : list GraphNode) (P : Coord → Coord → num → Prop).

Lemma extends_refl st : extends st st.
Proof. by split. Qed.

Lemma extends_trans st1 st2 st3 : extends st1 st2 → extends st2 st3 → extends st1 st3.
Proof. intros [A1 B1] [A2 B2]. split; eauto. Qed.

Lemma linked_extends st st' p q c : extends st st' → linked st p q c → linked st' p q c.
Proof.
  intros [A B] (i & j & Hi & Hj & E1 & E2). exists i, j. eauto 10.
Qed.

Lemma edgeIn_snoc ns n0 u v c :
  edges n0 = [] → edgeIn (ns ++ [n0]) u v c ↔ edgeIn ns u v c.
Proof.
  intros He. unfold edgeIn. split.
  - intros (n & Hn & Hin).
    destruct (decide (u < length ns)) as [Hlt|Hge].
    + rewrite lookup_app_l in Hn by done. eauto.
    + rewrite lookup_app_r in Hn by lia.
      destruct (u - length ns) as [|k]; simpl in Hn; [|by destruct k].
      simplify_eq. rewrite He in Hin. by apply elem_of_nil in Hin.
  - intros (n & Hn & Hin). exists n. split; [|done].
    rewrite lookup_app_l; [done|]. by eapply lookup_lt_Some.
Qed.

Lemma getOrCreateNode_spec P st la lo st' i :
  BuildInv P st →
  (∃ p q c, P p q c ∧ ((la, lo) = p ∨ (la, lo) = q)) →
  getOrCreateNode st la lo = (st', i) →
  BuildInv P st' ∧ extends st st' ∧ nodeIndexMap st' !! nodeKey la lo = Some i.
Proof.
  intros Hinv Hpt. unfold getOrCreateNode.
  destruct (nodeIndexMap st !! nodeKey la lo) as [j|] eqn:Hk; intros [= <- <-].
  { split; [done|]. split; [apply extends_refl|done]. }
  simpl. split; [|split].
  - destruct Hinv as [Hidx Hid Hkey Hco Hsym Horg]. split; simpl.
    + intros key i. rewrite lookup_insert. case_decide as Hd.
      * intros [= <-]. subst key. by rewrite list_lookup_middle.
      * intros Hi. specialize (Hidx _ _ Hi).
        destruct (bs_nodes st !! i) as [n|] eqn:Hn; [|done].
        rewrite lookup_app_l; [by rewrite Hn|]. by eapply lookup_lt_Some.
    + intros i n Hn.
      destruct (decide (i < length (bs_nodes st))) as [Hlt|Hge].
      * rewrite lookup_app_l in Hn by done. eauto.
      * rewrite lookup_app_r in Hn by lia.
        destruct (i - length (bs_nodes st)) as [|k] eqn:E; simpl in Hn; [|by destruct k].
        simplify_eq. simpl. lia.
    + intros i n Hn.
      destruct (decide (i < length (bs_nodes st))) as [Hlt|Hge].
      * rewrite lookup_app_l in Hn by done.
        pose proof (Hkey _ _ Hn) as Hk'.
        rewrite lookup_insert_ne; [done|]. intros E. rewrite <- E in Hk'. congruence.
      * rewrite lookup_app_r in Hn by lia.
        destruct (i - length (bs_nodes st)) as [|k] eqn:E; simpl in Hn; [|by destruct k].
        simplify_eq. unfold keyOf. simpl. rewrite lookup_insert_eq. f_equal. lia.
    + intros i n Hn.
      destruct (decide (i < length (bs_nodes st))) as [Hlt|Hge].
      * rewrite lookup_app_l in Hn by done. eauto.
      * rewrite lookup_app_r in Hn by lia.
        destruct (i - length (bs_nodes st)) as [|k] eqn:E; simpl in Hn; [|by destruct k].
        by simplify_eq.
    + intros u v c. rewrite !edgeIn_snoc by done. apply Hsym.
    + intros u v c. rewrite edgeIn_snoc by done. intros Huv.
      destruct (Horg _ _ _ Huv) as (p & q & HP & Hpq). exists p, q. split; [done|].
      assert (∀ key j, nodeIndexMap st !! key = Some j →
                <[nodeKey la lo := length (bs_nodes st)]> (nodeIndexMap st) !! key = Some j) as Hmono.
      { intros key j Hj. rewrite lookup_insert_ne; [done|]. congruence. }
      destruct Hpq as [[? ?]|[? ?]]; [left|right]; split; by apply Hmono.
  - split; simpl.
    + intros key j Hj. rewrite lookup_insert_ne; [done|]. congruence.
    + intros u v c. by rewrite edgeIn_snoc.
  - by rewrite lookup_insert_eq.
Qed.

Lemma pushEdge_Some ns idx e :
  idx < length ns → ∃ ns', pushEdge ns idx e = Some ns'.
Proof.
  intros Hlt. unfold pushEdge.
  destruct (lookup_lt_is_Some_2 ns idx Hlt) as [n ->]. eauto.
Qed.

Lemma pushEdge_length ns idx e ns' :
  pushEdge ns idx e = Some ns' → length ns' = length ns.
Proof.
  unfold pushEdge. destruct (ns !! idx); [|done]. intros [= <-]. apply length_insert.
Qed.

Lemma pushEdge_fmap {A} (f : GraphNode → A) ns idx e ns' i :
  (∀ n es, f {| id := id n; lat := lat n; lng := lng n; edges := es |} = f n) →
  pushEdge ns idx e = Some ns' → f <$> ns' !! i = f <$> ns !! i.
Proof.
  intros Hf. unfold pushEdge. destruct (ns !! idx) as [n|] eqn:Hn; [|done].
  intros [= <-]. destruct (decide (i = idx)) as [->|Hne].
  - rewrite list_lookup_insert_eq by (by eapply lookup_lt_Some).
    rewrite Hn. simpl. by rewrite Hf.
  - by rewrite list_lookup_insert_ne.
Qed.

Lemma pushEdge_edgeIn ns idx e ns' u v c :
  pushEdge ns idx e = Some ns' →
  edgeIn ns' u v c ↔ edgeIn ns u v c ∨ (u = idx ∧ v = to e ∧ c = cost e).
Proof.
  unfold pushEdge. destruct (ns !! idx) as [n|] eqn:Hn; [|done]. intros [= <-].
  assert (idx < length ns) as Hlt by (by eapply lookup_lt_Some).
  unfold edgeIn. split.
  - intros (m & Hm & Hin). destruct (decide (u = idx)) as [->|Hne].
    + rewrite list_lookup_insert_eq in Hm by done. simplify_eq. simpl in Hin.
      apply elem_of_app in Hin as [Hin|Hin]; [left; eauto|].
      apply list_elem_of_singleton in Hin. right. destruct e; by simplify_eq.
    + rewrite list_lookup_insert_ne in Hm by done. left; eauto.
  - intros [(m & Hm & Hin)|(-> & -> & ->)].
    + destruct (decide (u = idx)) as [->|Hne].
      * rewrite list_lookup_insert_eq by done. eexists; split; [done|].
        simpl. simplify_eq. apply elem_of_app; by left.
      * rewrite list_lookup_insert_ne by done. eauto.
    + rewrite list_lookup_insert_eq by done. eexists; split; [done|].
      simpl. apply elem_of_app; right. destruct e; apply list_elem_of_singleton; done.
Qed.

Lemma linkPair_spec P bc st p q :
  BuildInv P st →
  P p q (haversineDistance (fst p) (snd p) (fst q) (snd q) * bc)%num →
  ∃ st', linkPair bc st p q = Some st' ∧ BuildInv P st' ∧ extends st st' ∧
         linked st' p q (haversineDistance (fst p) (snd p) (fst q) (snd q) * bc)%num.
Proof.
  intros Hinv HP. unfold linkPair. destruct p as [lat1 lng1], q as [lat2 lng2].
  simpl in HP |- *.
  destruct (getOrCreateNode st lat1 lng1) as [st1 idx1] eqn:E1.
  destruct (getOrCreateNode st1 lat2 lng2) as [st2 idx2] eqn:E2.
  destruct (getOrCreateNode_spec _ _ _ _ _ _ Hinv
              (ex_intro _ _ (ex_intro _ _ (ex_intro _ _ (conj HP (or_introl eq_refl))))) E1)
    as (Hinv1 & Hext1 & Hk1).
  destruct (getOrCreateNode_spec _ _ _ _ _ _ Hinv1
              (ex_intro _ _ (ex_intro _ _ (ex_intro _ _ (conj HP (or_intror eq_refl))))) E2)
    as (Hinv2 & Hext2 & Hk2).
  apply Hext2 in Hk1.
  set (d := (haversineDistance lat1 lng1 lat2 lng2 * bc)%num) in *.
  assert (idx1 < length (bs_nodes st2)) as Hlt1.
  { pose proof (inv_index _ _ Hinv2 _ _ Hk1) as Hn.
    destruct (bs_nodes st2 !! idx1) eqn:E; [by eapply lookup_lt_Some|done]. }
  assert (idx2 < length (bs_nodes st2)) as Hlt2.
  { pose proof (inv_index _ _ Hinv2 _ _ Hk2) as Hn.
    destruct (bs_nodes st2 !! idx2) eqn:E; [by eapply lookup_lt_Some|done]. }
  destruct (pushEdge_Some (bs_nodes st2) idx1 {| to := idx2; cost := d |} Hlt1) as [ns1 Hp1].
  rewrite Hp1. simpl.
  assert (idx2 < length ns1) as Hlt2' by (by rewrite (pushEdge_length _ _ _ _ Hp1)).
  destruct (pushEdge_Some ns1 idx2 {| to := idx1; cost := d |} Hlt2') as [ns2 Hp2].
  rewrite Hp2. simpl. eexists; split; [done|].
  assert (∀ u v c, edgeIn ns2 u v c ↔
            edgeIn (bs_nodes st2) u v c ∨ (u = idx1 ∧ v = idx2 ∧ c = d)
            ∨ (u = idx2 ∧ v = idx1 ∧ c = d)) as Hedges.
  { intros u v c. rewrite (pushEdge_edgeIn _ _ _ _ _ _ _ Hp2).
    rewrite (pushEdge_edgeIn _ _ _ _ _ _ _ Hp1). simpl. tauto. }
  assert (∀ {A} (f : GraphNode → A) i,
            (∀ n es, f {| id := id n; lat := lat n; lng := lng n; edges := es |} = f n) →
            f <$> ns2 !! i = f <$> bs_nodes st2 !! i) as Hshape.
  { intros A f i Hf. rewrite (pushEdge_fmap f _ _ _ _ i Hf Hp2).
    apply (pushEdge_fmap f _ _ _ _ i Hf Hp1). }
  split; [|split].
  - destruct Hinv2 as [Hidx Hid Hkey Hco Hsym Horg]. split; simpl.
    + intros key i Hi. rewrite Hshape by done. by apply Hidx.
    + intros i n Hn. pose proof (Hshape _ id i (λ _ _, eq_refl)) as Hs.
      rewrite Hn in Hs. simpl in Hs.
      destruct (bs_nodes st2 !! i) as [m|] eqn:Hm; [|done].
      simpl in Hs. injection Hs as ->. eauto.
    + intros i n Hn.
      pose proof (Hshape _ keyOf i (λ _ _, eq_refl)) as Hs.
      rewrite Hn in Hs. simpl in Hs.
      destruct (bs_nodes st2 !! i) as [m|] eqn:Hm; [|done].
      simpl in Hs. injection Hs as ->. eauto.
    + intros i n Hn.
      pose proof (Hshape _ (λ n, (lat n, lng n)) i (λ _ _, eq_refl)) as Hs.
      rewrite Hn in Hs. simpl in Hs.
      destruct (bs_nodes st2 !! i) as [m|] eqn:Hm; [|done].
      simpl in Hs. injection Hs as -> ->. eauto.
    + intros u v c. rewrite !Hedges. intros [Huv|[(-> & -> & ->)|(-> & -> & ->)]]; eauto.
    + intros u v c. rewrite Hedges. intros [Huv|[(-> & -> & ->)|(-> & -> & ->)]]; eauto.
      * exists (lat1, lng1), (lat2, lng2). split; [done|]. left. by split.
      * exists (lat1, lng1), (lat2, lng2). split; [done|]. right. by split.
  - eapply extends_trans; [done|]. eapply extends_trans; [done|].
    split; simpl; [done|]. intros u v c Huv. apply Hedges. by left.
  - exists idx1, idx2. simpl. repeat split; try done; apply Hedges; eauto.
Qed.

Lemma addCoords_spec P bc coords : ∀ st,
  BuildInv P st →
  (∀ k p q, coords !! k = Some p → coords !! S k = Some q →
            P p q (haversineDistance (fst p) (snd p) (fst q) (snd q) * bc)%num) →
  ∃ st', addCoords bc coords st = Some st' ∧ BuildInv P st' ∧ extends st st' ∧
         ∀ k p q, coords !! k = Some p → coords !! S k = Some q →
           linked st' p q (haversineDistance (fst p) (snd p) (fst q) (snd q) * bc)%num.
Proof.
  induction coords as [|p coords IH]; intros st Hinv HP.
  { exists st. split; [done|]. split; [done|]. split; [apply extends_refl|].
    intros k ?? Hk. by rewrite lookup_nil in Hk. }
  destruct coords as [|q rest].
  - exists st. split; [done|]. split; [done|]. split; [apply extends_refl|].
    intros [|k] ?? Hk Hk'; simpl in *; by simplify_eq.
  - simpl. destruct (linkPair_spec P bc st p q Hinv (HP 0 p q eq_refl eq_refl))
      as (st1 & -> & Hinv1 & Hext1 & Hl1). simpl.
    destruct (IH st1 Hinv1) as (st2 & Hadd & Hinv2 & Hext2 & Hl2).
    { intros k p' q' Hk Hk'. by apply (HP (S k)). }
    exists st2. split; [done|]. split; [done|]. split; [by eapply extends_trans|].
    intros [|k] p' q' Hk Hk'.
    + simpl in Hk, Hk'. simplify_eq. by eapply linked_extends.
    + by apply (Hl2 k).
Qed.

Lemma addSegments_spec segs tall rest : ∀ st,
  BuildInv (originates segs tall) st →
  (∀ seg, seg ∈ rest → seg ∈ segs) →
  ∃ st', addSegments tall rest st = Some st' ∧
         BuildInv (originates segs tall) st' ∧ extends st st' ∧
         ∀ seg p q, seg ∈ rest → status seg ≠ blocked → consecutive seg p q →
           linked st' p q (segmentCost tall seg p q).
Proof.
  induction rest as [|seg rest IH]; intros st Hinv Hsub.
  - exists st. split; [done|]. split; [done|]. split; [apply extends_refl|].
    intros ??? Hin. by apply elem_of_nil in Hin.
  - simpl. unfold addSegment.
    assert (∃ st1, (if decide (status seg = blocked) then Some st
                    else addCoords (baseCost tall (status seg)) (coordinates seg) st) = Some st1
              ∧ BuildInv (originates segs tall) st1 ∧ extends st st1 ∧
              (status seg ≠ blocked → ∀ p q, consecutive seg p q →
                 linked st1 p q (segmentCost tall seg p q))) as (st1 & -> & Hinv1 & Hext1 & Hl1).
    { case_decide as Hb.
      - exists st. split; [done|]. split; [done|]. split; [apply extends_refl|done].
      - destruct (addCoords_spec (originates segs tall) (baseCost tall (status seg))
                    (coordinates seg) st Hinv) as (st1 & Hadd & Hinv1 & Hext1 & Hl).
        { intros k p q Hk Hk'. exists seg. split; [apply Hsub; by left|].
          split; [done|]. split; [by exists k|done]. }
        exists st1. split; [done|]. split; [done|]. split; [done|].
        intros _ p q (k & Hk & Hk'). by apply (Hl k). }
    simpl. destruct (IH st1 Hinv1) as (st2 & Hadd & Hinv2 & Hext2 & Hl2).
    { intros s Hs. apply Hsub. by right. }
    exists st2. split; [done|]. split; [done|]. split; [by eapply extends_trans|].
    intros s p q Hs Hnb Hc. apply elem_of_cons in Hs as [->|Hs].
    + eapply linked_extends; [done|]. by apply Hl1.
    + by apply Hl2.
Qed.

Lemma emptyBuild_inv P : BuildInv P emptyBuild.
Proof.
  split; simpl; try done.
  - intros u v c (n & Hn & _). by rewrite lookup_nil in Hn.
  - intros u v c (n & Hn & _). by rewrite lookup_nil in Hn.
Qed.

(** [buildGraph] always returns, and the state it ends in satisfies the
    invariant. *)
Lemma buildGraph_spec segs tall :
  ∃ st, addSegments tall segs emptyBuild = Some st ∧
        buildGraph segs tall = Some {| nodes := bs_nodes st |} ∧
        BuildInv (originates segs tall) st ∧
        ∀ seg p q, seg ∈ segs → status seg ≠ blocked → consecutive seg p q →
          linked st p q (segmentCost tall seg p q).
Proof.
  destruct (addSegments_spec segs tall segs emptyBuild (emptyBuild_inv _))
    as (st & Hadd & Hinv & _ & Hl); [done|].
  exists st. unfold buildGraph. rewrite Hadd. done.
Qed.

Lemma linked_hasEdge P st p q c :
  BuildInv P st → linked st p q c →
  hasEdge {| nodes := bs_nodes st |} p q c ∧ hasEdge {| nodes := bs_nodes st |} q p c.
Proof.
  intros Hinv (i & j & Hi & Hj & E1 & E2).
  apply (inv_index _ _ Hinv) in Hi, Hj.
  split; [exists i, j|exists j, i]; done.
Qed.

Lemma addSegments_filter tall segs : ∀ st,
  addSegments tall (filter (λ s, status s ≠ blocked) segs) st = addSegments tall segs st.
Proof.
  induction segs as [|seg segs IH]; intros st; [done|].
  rewrite filter_cons. destruct (decide (status seg = blocked)) as [Hb|Hb].
  - rewrite decide_False by (intros Hn; by apply Hn). simpl. unfold addSegment.
    rewrite decide_True by done. simpl. apply IH.
  - rewrite decide_True by done. simpl.
    destruct (addSegment tall st seg); simpl; [apply IH|done].
Qed.

(** C1. For every segment of the input that is not blocked and every pair
    [(p, q)] of consecutive coordinates of it, the graph [buildGraph]
    returns has the edge from the node of [p] to the node of [q] and the
    edge back, both of cost [haversineDistance(p, q)] times the multiplier:
    1 for passable and 3 for restricted segments in standard mode, 1 for
    passable and 0.5 for restricted segments in tall-vehicle mode. *)
Theorem buildGraph_adds_both_edges (segs : list RoadSegment) (tall : bool)
  (seg : RoadSegment) (p q : Coord) :
  seg ∈ segs → status seg ≠ blocked → consecutive seg p q →
  let multiplier :=
    match tall, status seg with
    | false, restricted => lit 3
    | true, restricted => lit (1 # 2)
    | _, _ => lit 1
    end in
  let c := (haversineDistance (fst p) (snd p) (fst q) (snd q) * multiplier)%num in
  ∃ g, buildGraph segs tall = Some g ∧ hasEdge g p q c ∧ hasEdge g q p c.
Proof.
  intros Hin Hnb Hc multiplier c.
  destruct (buildGraph_spec segs tall) as (st & _ & Hg & Hinv & Hl).
  exists {| nodes := bs_nodes st |}. split; [done|].
  assert (c = segmentCost tall seg p q) as ->.
  { unfold c, multiplier, segmentCost, baseCost. by destruct tall, (status seg). }
  eapply linked_hasEdge; [done|]. by apply Hl.
Qed.

(** C3. Blocked segments contribute nothing: the graph is the one built
    from the segments that are not blocked, and every edge of it runs
    between the nodes of two consecutive coordinates of a segment that is
    not blocked, in one direction or the other, at that segment's cost. *)
Theorem buildGraph_ignores_blocked (segs : list RoadSegment) (tall : bool) :
  buildGraph segs tall = buildGraph (filter (λ s, status s ≠ blocked) segs) tall ∧
  ∃ g, buildGraph segs tall = Some g ∧
    ∀ u v c, edgeIn (nodes g) u v c →
      ∃ seg p q, seg ∈ segs ∧ status seg ≠ blocked ∧ consecutive seg p q ∧
        c = segmentCost tall seg p q ∧
        ((nodeFor (nodes g) p u ∧ nodeFor (nodes g) q v) ∨
         (nodeFor (nodes g) q u ∧ nodeFor (nodes g) p v)).
Proof.
  split.
  { unfold buildGraph. by rewrite addSegments_filter. }
  destruct (buildGraph_spec segs tall) as (st & _ & Hg & Hinv & _).
  exists {| nodes := bs_nodes st |}. split; [done|]. simpl.
  intros u v c Huv.
  destruct (inv_origin _ _ Hinv _ _ _ Huv) as (p & q & (seg & Hin & Hnb & Hc & ->) & Hpq).
  exists seg, p, q. repeat (split; [done|]). unfold nodeFor.
  destruct Hpq as [[Hp Hq]|[Hq Hp]]; [left|right];
    split; by apply (inv_index _ _ Hinv).
Qed.

End BuilderFacts.

Section AStarBasics.
Context `{Number}.
Implicit Types (st : AStarState) (g : Graph).

Lemma pickCurrent_elem fS open cur :
  fst (pickCurrent fS open) = Some cur → cur ∈ open.
Proof.
  unfold pickCurrent.
  assert (∀ acc, fst (foldl
            (λ '(current, currentF) idx,
               match fS !! idx with
               | Some score => if (score <? currentF)%num then (Some idx, score)
                               else (current, currentF)
               | None => (current, currentF)
               end) acc open) = Some cur →
          fst acc = Some cur ∨ cur ∈ open) as Hgen.
  { induction open as [|x open IH]; intros [c f]; simpl; [by left|].
    intros Hr. apply IH in Hr as [Hr|Hr]; [|right; by right].
    destruct (fS !! x) as [score|]; [|by left].
    destruct (score <? f)%num; [|by left].
    simpl in Hr. injection Hr as ->. right; by left. }
  intros Hr. by destruct (Hgen _ Hr).
Qed.

Lemma setAdd_elem x y s : y ∈ setAdd x s ↔ y = x ∨ y ∈ s.
Proof.
  unfold setAdd. case_decide as Hx.
  - split; [by right|]. intros [->|?]; done.
  - rewrite elem_of_app, list_elem_of_singleton. tauto.
Qed.

Lemma setDelete_elem x y s : y ∈ setDelete x s ↔ y ≠ x ∧ y ∈ s.
Proof. unfold setDelete. by rewrite list_elem_of_filter. Qed.

Lemma relaxEdge_bounds g goalNode cur st e n :
  inBounds n st → cur < n → to e < n →
  match relaxEdge g goalNode cur st e with
  | Returned st' => inBounds n st'
  | Thrown i => nodes g !! to e = None
  | OutOfFuel => False
  end.
Proof.
  intros [Ho Hc] Hcur He. unfold relaxEdge.
  destruct (gScore st !! cur) as [gc|]; [|done].
  destruct (gScore st !! to e) as [gt|]; [|done].
  destruct (gc + cost e <? gt)%num; [|done].
  destruct (nodes g !! to e) as [m|] eqn:Hm; [|done].
  split; simpl.
  - intros u. rewrite setAdd_elem. intros [->|Hu]; eauto.
  - intros v u. rewrite lookup_insert. case_decide; [|by eauto]. intros [= <-]. by subst.
Qed.

Lemma relaxEdges_bounds g goalNode cur es n : ∀ st,
  inBounds n st → cur < n → (n ≤ length (nodes g))%nat →
  (∀ e, e ∈ es → to e < n) →
  match relaxEdges g goalNode cur es st with
  | Returned st' => inBounds n st'
  | _ => False
  end.
Proof.
  induction es as [|e es IH]; intros st Hb Hcur Hn Hes; simpl; [done|].
  assert (to e < n) as He by (apply Hes; by left).
  pose proof (relaxEdge_bounds g goalNode cur st e n Hb Hcur He) as Hr.
  destruct (relaxEdge g goalNode cur st e) as [st'| |]; [|exfalso|done].
  - apply IH; [done..|]. intros e' He'. apply Hes. by right.
  - apply lookup_ge_None in Hr. lia.
Qed.

Lemma reconstructPath_bounds n cf : ∀ fuel cur path,
  (∀ v u, cf !! v = Some u → u < n ∧ v < n) →
  Forall (λ i, i < n) path →
  match reconstructPath fuel cf cur path with
  | Returned path' => Forall (λ i, i < n) path'
  | Thrown _ => False
  | OutOfFuel => True
  end.
Proof.
  induction fuel as [|fuel IH]; intros cur path Hcf Hp; simpl.
  - by destruct (cf !! cur).
  - destruct (cf !! cur) as [prev|] eqn:Hc; [|done].
    apply IH; [done|]. constructor; [|done]. by destruct (Hcf _ _ Hc).
Qed.

Lemma astarIter_bounds fuel g goal goalNode st :
  wellFormed g → inBounds (length (nodes g)) st →
  match astarIter fuel g goal goalNode st with
  | Continue st' => inBounds (length (nodes g)) st'
  | Finish (Returned (Some path, _)) => Forall (λ i, i < length (nodes g)) path
  | Finish (Returned (None, _)) => True
  | Finish (Thrown i) => i = (-1)%Z
  | Finish OutOfFuel => True
  end.
Proof.
  intros Hwf Hb. unfold astarIter.
  destruct (openSet st) as [|x xs] eqn:Ho; [done|]. rewrite <- Ho.
  destruct (fst (pickCurrent (fScore st) (openSet st))) as [cur|] eqn:Hp; [|done].
  apply pickCurrent_elem in Hp.
  assert (cur < length (nodes g)) as Hcur by (by apply Hb).
  case_decide as Hg.
  - pose proof (reconstructPath_bounds (length (nodes g)) (cameFrom st) fuel cur [cur]
                  (proj2 Hb)) as Hr.
    destruct (reconstructPath fuel (cameFrom st) cur [cur]); try done.
    + apply Hr. by constructor.
    + exfalso. apply Hr. by constructor.
  - destruct (lookup_lt_is_Some_2 _ _ Hcur) as [node Hnode]. rewrite Hnode.
    set (st1 := {| openSet := _ |}).
    assert (inBounds (length (nodes g)) st1) as Hb1.
    { destruct Hb as [Hbo Hbc]. split; simpl; [|done].
      intros u Hu. apply setDelete_elem in Hu as [_ Hu]. by apply Hbo. }
    pose proof (relaxEdges_bounds g goalNode cur (edges node) _ st1 Hb1 Hcur (le_n _)) as Hr.
    destruct (relaxEdges g goalNode cur (edges node) st1); try done.
    + apply Hr. intros e He. by apply (Hwf _ _ Hnode).
    + exfalso. apply Hr. intros e He. by apply (Hwf _ _ Hnode).
Qed.

Lemma astarLoop_bounds g goal goalNode : ∀ fuel st,
  wellFormed g → inBounds (length (nodes g)) st →
  match astarLoop fuel g goal goalNode st with
  | Returned (Some path, _) => Forall (λ i, i < length (nodes g)) path
  | Returned (None, _) => True
  | Thrown i => i = (-1)%Z
  | OutOfFuel => True
  end.
Proof.
  induction fuel as [|fuel IH]; intros st Hwf Hb; simpl; [done|].
  pose proof (astarIter_bounds fuel g goal goalNode st Hwf Hb) as Hi.
  destruct (astarIter fuel g goal goalNode st) as [st'|c]; [by apply IH|].
  destruct c as [[[path|] ?]| |]; done.
Qed.

Lemma nodeAt_Some g i n :
  nodeAt g i = Some n → (0 ≤ i)%Z ∧ nodes g !! Z.to_nat i = Some n.
Proof. unfold nodeAt. case_decide; [done|discriminate]. Qed.

Lemma astarInit_bounds g start sn tn :
  start < length (nodes g) → inBounds (length (nodes g)) (astarInit g start sn tn).
Proof.
  intros Hs. split; simpl.
  - intros u Hu. apply list_elem_of_singleton in Hu. by subst.
  - intros v u Hvu. by rewrite lookup_empty in Hvu.
Qed.

Lemma astar_bounds g fuel s t :
  wellFormed g →
  match astar fuel g s t with
  | Returned (Some path) => Forall (λ i, i < length (nodes g)) path
  | Returned None => True
  | Thrown i => i = (-1)%Z ∨ (i = s ∧ nodeAt g s = None) ∨ (i = t ∧ nodeAt g t = None)
  | OutOfFuel => True
  end.
Proof.
  intros Hwf. unfold astar, astarSearch.
  destruct (nodeAt g s) as [sn|] eqn:Hs; [|by right; left].
  destruct (nodeAt g t) as [tn|] eqn:Ht; [|by right; right].
  apply nodeAt_Some in Hs as [Hs0 Hs].
  pose proof (astarLoop_bounds g (Z.to_nat t) tn fuel _ Hwf
                (astarInit_bounds g (Z.to_nat s) sn tn (lookup_lt_Some _ _ _ Hs))) as Hl.
  destruct (astarLoop fuel g (Z.to_nat t) tn _) as [[[path|] ?]| |]; try done. by left.
Qed.

Lemma nodesToLatLng_Some g path :
  Forall (λ i, i < length (nodes g)) path → is_Some (nodesToLatLng g path).
Proof.
  intros Hp. unfold nodesToLatLng. apply mapM_is_Some. eapply Forall_impl; [done|].
  intros i Hi. simpl in Hi. destruct (lookup_lt_is_Some_2 _ _ Hi) as [n Hn].
  unfold compose. rewrite Hn. by eexists.
Qed.

Lemma sumLegs_cons g i j rest total :
  sumLegs g (i :: j :: rest) total =
  currentNode ← nodes g !! i;
  nextNode ← nodes g !! j;
  sumLegs g (j :: rest)
    (total + haversineDistance (lat currentNode) (lng currentNode)
               (lat nextNode) (lng nextNode))%num.
Proof. done. Qed.

Lemma sumLegs_Some g : ∀ path total,
  Forall (λ i, i < length (nodes g)) path → is_Some (sumLegs g path total).
Proof.
  induction path as [|i path IH]; intros total Hp; [by eexists|].
  destruct path as [|j rest]; [by eexists|].
  inversion Hp as [|?? Hi Hp']; subst. inversion Hp' as [|?? Hj _]; subst.
  rewrite sumLegs_cons. destruct (lookup_lt_is_Some_2 _ _ Hi) as [n ->].
  destruct (lookup_lt_is_Some_2 _ _ Hj) as [m ->]. cbn [mbind option_bind]. by apply IH.
Qed.

Lemma calculateRouteDistance_Some g path :
  Forall (λ i, i < length (nodes g)) path → is_Some (calculateRouteDistance g path).
Proof.
  intros Hp. unfold calculateRouteDistance. case_decide; [by eexists|].
  by apply sumLegs_Some.
Qed.

Lemma BuildInv_wellFormed P (bst : BuildState) :
  BuildInv P bst → wellFormed {| nodes := bs_nodes bst |}.
Proof.
  intros Hinv i n Hn. simpl in *. split; [by eapply inv_id|].
  intros e He.
  assert (edgeIn (bs_nodes bst) i (to e) (cost e)) as Hedge.
  { exists n. split; [done|]. by destruct e. }
  destruct (inv_sym _ _ Hinv _ _ _ Hedge) as (m & Hm & _). by eapply lookup_lt_Some.
Qed.

(** C10. In every graph [buildGraph] returns, the node at position [i] has
    [id = i] and every edge leads to a position below the number of nodes.
    Hence the only node lookup of [astar] that can fail is one of its
    arguments or the initial [current = -1], every index of a returned path
    is a position of the graph, and [nodesToLatLng] and
    [calculateRouteDistance] find every node of a returned path. *)
Theorem buildGraph_wellFormed (segs : list RoadSegment) (tall : bool) :
  ∃ g, buildGraph segs tall = Some g ∧ wellFormed g ∧
    ∀ fuel s t,
      match astar fuel g s t with
      | Returned (Some path) =>
          Forall (λ i, i < length (nodes g)) path ∧
          is_Some (nodesToLatLng g path) ∧
          is_Some (calculateRouteDistance g path)
      | Returned None => True
      | Thrown i =>
          i = (-1)%Z ∨ (i = s ∧ nodeAt g s = None) ∨ (i = t ∧ nodeAt g t = None)
      | OutOfFuel => True
      end.
Proof.
  destruct (buildGraph_spec segs tall) as (bst & _ & Hg & Hinv & _).
  exists {| nodes := bs_nodes bst |}. split; [done|].
  pose proof (BuildInv_wellFormed _ _ Hinv) as Hwf. split; [done|].
  intros fuel s t. pose proof (astar_bounds _ fuel s t Hwf) as Ha.
  destruct (astar fuel _ s t) as [[path|]| |]; try done.
  split; [done|]. split; [by apply nodesToLatLng_Some|by apply calculateRouteDistance_Some].
Qed.

Lemma astarIter_Continue_fuel fuel fuel' g goal goalNode st st1 :
  astarIter fuel g goal goalNode st = Continue st1 →
  astarIter fuel' g goal goalNode st = Continue st1.
Proof.
  unfold astarIter. destruct (openSet st); [done|].
  destruct (fst (pickCurrent _ _)) as [cur|]; [|done].
  case_decide; [|done].
  by destruct (reconstructPath fuel _ _ _).
Qed.

Lemma loopsTo_astarLoop g goal goalNode st st' :
  loopsTo g goal goalNode st st' → openSet st' = [] →
  ∃ k, ∀ fuel, (k ≤ fuel)%nat → astarLoop fuel g goal goalNode st = Returned (None, st').
Proof.
  induction 1 as [st|f st st1 st2 Hstep _ IH]; intros Hempty.
  - exists 1. intros [|fuel] Hk; [lia|]. simpl. unfold astarIter. by rewrite Hempty.
  - destruct (IH Hempty) as [k Hk]. exists (S k). intros [|fuel] Hf; [lia|]. simpl.
    rewrite (astarIter_Continue_fuel f fuel _ _ _ _ _ Hstep). apply Hk. lia.
Qed.

Lemma findNearestNode_range g la lo :
  findNearestNode g la lo = (-1)%Z ∨
  (0 ≤ findNearestNode g la lo < Z.of_nat (length (nodes g)))%Z.
Proof.
  unfold findNearestNode.
  assert (∀ (l : list GraphNode) k acc,
            (fst acc = (-1)%Z ∨ (0 ≤ fst acc < Z.of_nat (k + length l))%Z) →
            let r := fst (foldl
              (λ '(bestIdx, bestDist) '(idx, node),
                 if (haversineDistance la lo (lat node) (lng node) <? bestDist)%num
                 then (Z.of_nat idx, haversineDistance la lo (lat node) (lng node))
                 else (bestIdx, bestDist)) acc (imap (λ i, pair (k + i)) l)) in
            r = (-1)%Z ∨ (0 ≤ r < Z.of_nat (k + length l))%Z) as Hgen.
  { induction l as [|n l IH]; intros k [b d] Hacc; simpl; [done|].
    replace (k + S (length l)) with (S k + length l) by lia.
    rewrite (imap_ext _ (λ i, pair (S k + i))).
    2:{ intros i x _. simpl. f_equal. lia. }
    apply (IH (S k)). replace (k + 0) with k by lia.
    destruct (_ <? d)%num; simpl in *; [right; lia|].
    destruct Hacc as [?|?]; [by left|right; lia]. }
  apply (Hgen (nodes g) 0 ((-1)%Z, infinity)). by left.
Qed.

(** C7. Both outcomes of the pathfinding interface are values.  When the
    loop of [astar] reaches an empty open set without having picked the
    goal, [astar] returns [null]: no exception, and no dependence on the
    fuel of the model beyond a bound.  On a graph without nodes
    [findNearestNode] returns [-1], which is never the index of a node.
    The caller tells the two apart: the routing effect reports a lookup
    failure exactly when one of the two lookups gave [-1], and reports
    that no route exists only when both lookups gave a node and [astar]
    returned [null] or an empty path. *)
Theorem no_route_and_lookup_failure_are_values (g : Graph) (s t : Z)
  (sn tn : GraphNode) (st' : AStarState) :
  nodeAt g s = Some sn → nodeAt g t = Some tn →
  loopsTo g (Z.to_nat t) tn (astarInit g (Z.to_nat s) sn tn) st' →
  openSet st' = [] →
  (∃ k, ∀ fuel, (k ≤ fuel)%nat → astar fuel g s t = Returned None) ∧
  (∀ la lo, findNearestNode {| nodes := [] |} la lo = (-1)%Z) ∧
  (∀ g' la lo, findNearestNode g' la lo = (-1)%Z ∨
               (0 ≤ findNearestNode g' la lo < Z.of_nat (length (nodes g')))%Z) ∧
  (∀ fuel segs tall sp ep,
     (routeEffect fuel segs tall sp ep = LookupFailure ↔
      ∃ g', buildGraph (filterForVehicle tall segs) tall = Some g' ∧
            (findNearestNode g' (fst sp) (snd sp) = (-1)%Z ∨
             findNearestNode g' (fst ep) (snd ep) = (-1)%Z)) ∧
     (routeEffect fuel segs tall sp ep = NoRoute →
      ∃ g', buildGraph (filterForVehicle tall segs) tall = Some g' ∧
            findNearestNode g' (fst sp) (snd sp) ≠ (-1)%Z ∧
            findNearestNode g' (fst ep) (snd ep) ≠ (-1)%Z ∧
            (astar fuel g' (findNearestNode g' (fst sp) (snd sp))
               (findNearestNode g' (fst ep) (snd ep)) = Returned None ∨
             astar fuel g' (findNearestNode g' (fst sp) (snd sp))
               (findNearestNode g' (fst ep) (snd ep)) = Returned (Some [])))).
Proof.
  intros Hs Ht Hloop Hempty. split; [|split; [|split]].
  - destruct (loopsTo_astarLoop _ _ _ _ _ Hloop Hempty) as [k Hk].
    exists k. intros fuel Hf. unfold astar, astarSearch. rewrite Hs, Ht.
    by rewrite (Hk fuel Hf).
  - done.
  - apply findNearestNode_range.
  - intros fuel segs tall sp ep. unfold routeEffect.
    destruct (buildGraph (filterForVehicle tall segs) tall) as [g'|].
    2:{ split; [split; [done|by intros (? & ? & _)]|done]. }
    case_decide as Hd.
    { split; [|done]. split; [by exists g'|done]. }
    split.
    + split.
      * destruct (astar fuel g' _ _) as [[[|n l]|]| |]; try done.
        by destruct (nodesToLatLng g' (n :: l)), (calculateRouteDistance g' (n :: l)).
      * intros (g'' & [= <-] & Hor). by destruct Hd.
    + intros Hr. exists g'. split; [done|].
      split; [intros E; apply Hd; by left|]. split; [intros E; apply Hd; by right|].
      destruct (astar fuel g' _ _) as [[[|n l]|]| |]; try done; [by right| |by left].
      by destruct (nodesToLatLng g' (n :: l)), (calculateRouteDistance g' (n :: l)).
Qed.

End AStarBasics.

Section OrderFacts.
Context `{NumberLaws}.
Local Open Scope num_scope.

Lemma nle_refl x : x ⪯ x.
Proof. apply ltb_irrefl. Qed.

Lemma nle_trans x y z : x ⪯ y → y ⪯ z → x ⪯ z.
Proof.
  unfold nle. intros Hxy Hyz. destruct (z <? x) eqn:Hzx; [|done].
  destruct (x <? y) eqn:Hlt.
  - by rewrite (ltb_trans _ _ _ Hzx Hlt) in Hyz.
  - rewrite (ltb_connex _ _ Hlt Hxy) in Hzx. congruence.
Qed.


Lemma ltb_nle x y : (x <? y) = true → x ⪯ y.
Proof.
  unfold nle. intros Hlt. destruct (y <? x) eqn:Hyx; [|done].
  pose proof (ltb_trans _ _ _ Hlt Hyx) as Hxx. by rewrite ltb_irrefl in Hxx.
Qed.

Lemma nle_infinity x : x ⪯ infinity.
Proof. apply ltb_infinity. Qed.

Lemma add_mono_l x y z : x ⪯ y → z + x ⪯ z + y.
Proof. intros Hxy. rewrite (add_comm z x), (add_comm z y). by apply add_mono. Qed.

Lemma add_mono2 x y x' y' : x ⪯ x' → y ⪯ y' → x + y ⪯ x' + y'.
Proof.
  intros Hx Hy. eapply nle_trans; [by apply add_mono|by apply add_mono_l].
Qed.

Lemma zero_add x : lit 0 + x = x.
Proof. by rewrite add_comm, add_zero. Qed.

Lemma nle_add_r x c : lit 0 ⪯ c → x ⪯ x + c.
Proof. intros Hc. rewrite <- (add_zero x) at 1. by apply add_mono_l. Qed.

Lemma ltb_false_nle x y : (x <? y) = false → y ⪯ x.
Proof. done. Qed.

Lemma nle_ltb_contra x y : x ⪯ y → (y <? x) = true → False.
Proof. unfold nle. congruence. Qed.

End OrderFacts.

Section WalkFacts.
Context `{NumberLaws}.
Local Open Scope num_scope.
Implicit Types (ns : list GraphNode).





End WalkFacts.

Section Search.
Context `{NumberLaws}.
Local Open Scope num_scope.
Implicit Types (st : AStarState) (g : Graph).


Lemma initScores_lookup g u :
  initScores g !! u = if decide (u ∈ id <$> nodes g) then Some infinity else None.
Proof.
  unfold initScores.
  assert (∀ l (m : gmap nat num),
            foldl (λ m node, <[id node := infinity]> m) m l !! u =
            if decide (u ∈ id <$> l) then Some infinity else m !! u) as Hgen.
  { induction l as [|n l IH]; intros m.
    - cbn [foldl]. destruct (decide _) as [Hin|]; [|done].
      rewrite fmap_nil in Hin. by apply elem_of_nil in Hin.
    - cbn [foldl]. rewrite IH, fmap_cons.
      destruct (decide (u ∈ id <$> l)) as [Hin|Hnin].
      + destruct (decide (u ∈ id n :: (id <$> l))) as [|Hn]; [done|].
        destruct Hn. by right.
      + rewrite lookup_insert. destruct (decide (id n = u)) as [<-|Hne].
        * destruct (decide (id n ∈ id n :: (id <$> l))) as [|Hn]; [done|].
          destruct Hn. by left.
        * destruct (decide (u ∈ id n :: (id <$> l))) as [Hin|]; [|done].
          apply elem_of_cons in Hin as [->|?]; done. }
  rewrite Hgen. destruct (decide _); [done|]. by rewrite lookup_empty.
Qed.

Lemma wellFormed_ids g u :
  wellFormed g → u ∈ id <$> nodes g ↔ u < length (nodes g).
Proof.
  intros Hwf. rewrite list_elem_of_fmap. split.
  - intros (n & -> & Hn). apply list_elem_of_lookup in Hn as [i Hi].
    destruct (Hwf _ _ Hi) as [-> _]. by eapply lookup_lt_Some.
  - intros Hlt. destruct (lookup_lt_is_Some_2 _ _ Hlt) as [n Hn].
    exists n. split; [by destruct (Hwf _ _ Hn)|]. by eapply list_elem_of_lookup_2.
Qed.

Lemma edgeIn_bound g u v c :
  wellFormed g → edgeIn (nodes g) u v c → u < length (nodes g) ∧ v < length (nodes g).
Proof.
  intros Hwf (n & Hn & He). split; [by eapply lookup_lt_Some|].
  by apply (proj2 (Hwf _ _ Hn) _ He).
Qed.

(** One edge of the node being expanded. *)
Lemma relaxEdge_inv g start goal goalNode cur e pending st st' :
  Consistent g goal goalNode →
  SearchInv g start goalNode (Some cur) (e :: pending) st →
  edgeIn (nodes g) cur (to e) (cost e) →
  relaxEdge g goalNode cur st e = Returned st' →
  SearchInv g start goalNode (Some cur) pending st'.
Proof.
  intros Hcon Hinv Hedge. pose proof (con_wf _ _ _ Hcon) as Hwf.
  destruct (edgeIn_bound _ _ _ _ Hwf Hedge) as [Hcur Hto].
  pose proof (con_nonneg _ _ _ Hcon _ _ _ Hedge) as Hc0.
  destruct Hinv as [Hb Hsc Hst Hnn Hop Hroot Hpar Hrel].
  unfold relaxEdge.
  destruct (Hsc _ Hcur) as [gc Hgc]. destruct (Hsc _ Hto) as [gt Hgt].
  rewrite Hgc, Hgt.
  assert (e = {| to := to e; cost := cost e |}) as He by (by destruct e).
  destruct (gc + cost e <? gt) eqn:Hlt.
  2:{ intros [= <-]. split; try done.
      intros u v c gu Hu Hedge' Hgu.
      destruct (Hrel u v c gu Hu Hedge' Hgu) as [?|[Hcu Hin]]; [by left|].
      apply elem_of_cons in Hin as [Heq|Hin]; [|by right].
      left. rewrite He in Heq. injection Heq as -> ->.
      injection Hcu as <-. rewrite Hgc in Hgu. injection Hgu as <-. by exists gt. }
  destruct (nodes g !! to e) as [nv|] eqn:Hnv; [|done]. intros [= <-].
  assert (lit 0 ⪯ gc) as Hgc0 by (by eapply Hnn).
  assert (gc ⪯ gc + cost e) as Hgc1 by (by apply nle_add_r).
  assert (to e ≠ cur) as Hne.
  { intros Heq. rewrite Heq, Hgc in Hgt. injection Hgt as <-.
    by eapply nle_ltb_contra. }
  assert (to e ≠ start) as Hns.
  { intros Heq. rewrite Heq, Hst in Hgt. injection Hgt as <-.
    eapply nle_ltb_contra; [|done]. by eapply nle_trans. }
  assert (gc + cost e ⪯ gt) as Hle by (by apply ltb_nle).
  split; simpl.
  - pose proof (relaxEdge_bounds g goalNode cur
                  {| openSet := openSet st; cameFrom := cameFrom st;
                     gScore := gScore st; fScore := fScore st |} e _ Hb Hcur Hto) as Hr.
    unfold relaxEdge in Hr. simpl in Hr. by rewrite Hgc, Hgt, Hlt, Hnv in Hr.
  - intros u Hu. rewrite lookup_insert. case_decide; [by eexists|by apply Hsc].
  - by rewrite lookup_insert_ne.
  - intros u gu. rewrite lookup_insert. case_decide.
    + intros [= <-]. by eapply nle_trans.
    + apply Hnn.
  - intros u Hu. destruct (decide (u = to e)) as [->|Hu'].
    + exists (gc + cost e), nv. by rewrite !lookup_insert_eq.
    + rewrite !lookup_insert_ne by done. apply Hop.
      apply setAdd_elem in Hu as [?|?]; done.
  - intros u Hu.
    assert (u = start ∨ is_Some (cameFrom st !! u) → u = start ∨
              is_Some (<[to e := cur]> (cameFrom st) !! u)) as Hkeep.
    { intros [?|Hs]; [by left|right]. rewrite lookup_insert. by case_decide. }
    destruct Hu as [Hu|[Hu|[v Hv]]].
    + apply setAdd_elem in Hu as [->|Hu].
      * right. rewrite lookup_insert_eq. by eexists.
      * apply Hkeep, Hroot. by left.
    + apply Hkeep, Hroot. by right; left.
    + rewrite lookup_insert in Hv. case_decide as Hd.
      * injection Hv as <-. apply Hkeep, Hroot. by right; left.
      * apply Hkeep, Hroot. right; right. by exists v.
  - intros v u. rewrite lookup_insert. case_decide as Hd.
    + intros [= <-]. subst v. exists (cost e), gc, (gc + cost e).
      split; [done|]. rewrite lookup_insert_ne by done. rewrite lookup_insert_eq.
      split; [done|]. split; [done|]. apply nle_refl.
    + intros Hv. destruct (Hpar _ _ Hv) as (c & gu & gv & Huv & Hgu & Hgv & Hle').
      rewrite (lookup_insert_ne _ (to e) v) by done.
      destruct (decide (u = to e)) as [->|Hu].
      * exists c, (gc + cost e), gv. rewrite lookup_insert_eq.
        split; [done|]. split; [done|]. split; [done|].
        rewrite Hgt in Hgu. injection Hgu as <-.
        eapply nle_trans; [|done]. by apply add_mono.
      * exists c, gu, gv. by rewrite lookup_insert_ne.
  - intros u v c gu Hu Hedge' Hgu.
    assert (u ≠ to e ∧ u ∉ openSet st) as [Hu1 Hu2].
    { split; intros Hx; apply Hu, setAdd_elem; [by left|by right]. }
    rewrite lookup_insert_ne in Hgu by done.
    assert (∀ gv, gScore st !! v = Some gv → gv ⪯ gu + c →
              ∃ gv', <[to e := gc + cost e]> (gScore st) !! v = Some gv' ∧ gv' ⪯ gu + c)
      as Hdown.
    { intros gv Hgv Hle'. rewrite lookup_insert. case_decide as Hd.
      - subst v. eexists; split; [done|]. rewrite Hgt in Hgv. injection Hgv as <-.
        eapply nle_trans; [|done]. done.
      - eauto. }
    destruct (Hrel u v c gu Hu2 Hedge' Hgu) as [(gv & Hgv & Hle')|[Hcu Hin]].
    + left. by eapply Hdown.
    + apply elem_of_cons in Hin as [Heq|Hin]; [|by right].
      left. rewrite He in Heq. injection Heq as -> ->. injection Hcu as <-.
      rewrite Hgc in Hgu. injection Hgu as <-.
      exists (gc + cost e). rewrite lookup_insert_eq. split; [done|]. apply nle_refl.
Qed.

Lemma relaxEdges_inv g start goal goalNode cur es : ∀ st st',
  Consistent g goal goalNode →
  SearchInv g start goalNode (Some cur) es st →
  (∀ e, e ∈ es → edgeIn (nodes g) cur (to e) (cost e)) →
  relaxEdges g goalNode cur es st = Returned st' →
  SearchInv g start goalNode (Some cur) [] st'.
Proof.
  induction es as [|e es IH]; intros st st' Hcon Hinv Hes; simpl.
  { by intros [= <-]. }
  destruct (relaxEdge g goalNode cur st e) as [st1| |] eqn:Hr; [|done..].
  intros Hrest. eapply IH; [done| |by intros e' He'; apply Hes; right|done].
  eapply relaxEdge_inv; [done..|by apply Hes; left|done].
Qed.

(** One pass through the body of the outer loop. *)
Lemma astarIter_inv fuel g start goal goalNode st st' :
  Consistent g goal goalNode →
  SearchInv g start goalNode None [] st →
  astarIter fuel g goal goalNode st = Continue st' →
  SearchInv g start goalNode None [] st'.
Proof.
  intros Hcon Hinv. unfold astarIter.
  destruct (openSet st) as [|x xs] eqn:Ho; [done|]. rewrite <- Ho.
  destruct (fst (pickCurrent (fScore st) (openSet st))) as [cur|] eqn:Hp; [|done].
  apply pickCurrent_elem in Hp.
  case_decide as Hg; [by destruct (reconstructPath _ _ _ _)|].
  destruct (nodes g !! cur) as [node|] eqn:Hnode; [|done].
  set (st1 := {| openSet := _ |}).
  destruct (relaxEdges g goalNode cur (edges node) st1) as [st2| |] eqn:Hr; [|done..].
  intros [= <-].
  assert (SearchInv g start goalNode (Some cur) (edges node) st1) as Hinv1.
  { destruct Hinv as [Hb Hsc Hst Hnn Hop Hroot Hpar Hrel]. split; simpl; try done.
    - destruct Hb as [Hbo Hbc]. split; simpl; [|done].
      intros u Hu. apply setDelete_elem in Hu as [_ Hu]. by apply Hbo.
    - intros u Hu. apply setDelete_elem in Hu as [_ Hu]. by apply Hop.
    - intros u [Hu|[Hu|Hu]].
      + apply setDelete_elem in Hu as [_ Hu]. apply Hroot. by left.
      + injection Hu as <-. apply Hroot. by left.
      + apply Hroot. by right; right.
    - intros u v c gu Hu Hedge Hgu.
      destruct (decide (u = cur)) as [->|Hne].
      + right. split; [done|]. destruct Hedge as (n & Hn & Hin).
        rewrite Hnode in Hn. by injection Hn as <-.
      + destruct (Hrel u v c gu) as [?|[? _]]; [|done..|by left|done].
        intros Hin. apply Hu, setDelete_elem. done. }
  assert (SearchInv g start goalNode (Some cur) [] st2) as Hinv2.
  { eapply relaxEdges_inv; [done..| |done].
    intros e He. exists node. split; [done|]. by destruct e. }
  destruct Hinv2 as [Hb Hsc Hst Hnn Hop Hroot Hpar Hrel]. split; try done.
  - intros u [Hu|[Hu|Hu]]; [|done|]; apply Hroot; [by left|by right; right].
  - intros u v c gu Hu Hedge Hgu.
    destruct (Hrel u v c gu Hu Hedge Hgu) as [?|[_ Hin]]; [by left|].
    by apply elem_of_nil in Hin.
Qed.

(** The estimate at a node never exceeds the cost of a walk from it to
    the goal. *)
Lemma heuristic_admissible g goal goalNode vs c :
  Consistent g goal goalNode →
  walk (nodes g) vs c → last vs = Some goal →
  ∀ u nu, head vs = Some u → nodes g !! u = Some nu →
  heuristic nu goalNode ⪯ c.
Proof.
  intros Hcon. induction 1 as [w|a b vs c1 c2 Hab Hw IH]; intros Hl u nu Hh Hu.
  - simpl in Hl, Hh. simplify_eq. rewrite (con_goal _ _ _ Hcon) in Hu.
    injection Hu as <-. apply (con_at_goal _ _ _ Hcon).
  - simpl in Hh. injection Hh as <-.
    destruct (edgeIn_bound _ _ _ _ (con_wf _ _ _ Hcon) Hab) as [_ Hb].
    destruct (lookup_lt_is_Some_2 _ _ Hb) as [nb Hnb].
    eapply nle_trans; [by eapply (con_edge _ _ _ Hcon)|].
    apply add_mono_l. by eapply IH.
Qed.

(** Along any walk to the goal, either the score of the goal is already
    within the cost of the walk, or a node of the walk is in the open set
    with an [fScore] within that cost. *)
Lemma frontier g start goal goalNode st vs c :
  Consistent g goal goalNode →
  SearchInv g start goalNode None [] st →
  walk (nodes g) vs c → last vs = Some goal →
  ∀ u gu b, head vs = Some u → u < length (nodes g) →
    gScore st !! u = Some gu → gu ⪯ b →
    (∃ gg, gScore st !! goal = Some gg ∧ gg ⪯ b + c) ∨
    (∃ y fy, y ∈ openSet st ∧ fScore st !! y = Some fy ∧ fy ⪯ b + c).
Proof.
  intros Hcon Hinv Hw. pose proof Hw as Hw0. revert Hw0.
  induction Hw as [w|a v vs c1 c2 Hab Hw IH]; intros Hw0 Hl u gu b Hh Hu Hgu Hle.
  - simpl in Hl, Hh. simplify_eq. left. exists gu. split; [done|]. by rewrite add_zero.
  - simpl in Hh. injection Hh as <-.
    destruct (decide (a ∈ openSet st)) as [Hopen|Hclosed].
    + right. destruct (si_open _ _ _ _ _ _ Hinv _ Hopen) as (ga & na & Hga & Hna & Hfa).
      rewrite Hgu in Hga. injection Hga as <-.
      exists a, (gu + heuristic na goalNode). split; [done|]. split; [done|].
      apply add_mono2; [done|]. by eapply heuristic_admissible.
    + destruct (si_relaxed _ _ _ _ _ _ Hinv a v c1 gu Hclosed Hab Hgu)
        as [(gv & Hgv & Hlev)|[? _]]; [|done].
      destruct (edgeIn_bound _ _ _ _ (con_wf _ _ _ Hcon) Hab) as [_ Hvb].
      rewrite add_assoc. apply (IH Hw Hl v gv (b + c1)); [done..|].
      eapply nle_trans; [done|]. by apply add_mono.
Qed.




Lemma astarInit_inv g start goal sn goalNode :
  Consistent g goal goalNode → nodes g !! start = Some sn →
  SearchInv g start goalNode None [] (astarInit g start sn goalNode).
Proof.
  intros Hcon Hsn. pose proof (con_wf _ _ _ Hcon) as Hwf.
  assert (start < length (nodes g)) as Hs by (by eapply lookup_lt_Some).
  assert (∀ u x, <[start := lit 0]> (initScores g) !! u = Some x →
            x = lit 0 ∨ x = infinity) as Hvals.
  { intros u x. rewrite lookup_insert. case_decide; [intros [= <-]; by left|].
    rewrite initScores_lookup. case_decide; [|done]. intros [= <-]. by right. }
  split; simpl.
  - by apply astarInit_bounds.
  - intros u Hu. rewrite lookup_insert. case_decide; [by eexists|].
    rewrite initScores_lookup, decide_True; [by eexists|]. by apply wellFormed_ids.
  - by rewrite lookup_insert_eq.
  - intros u gu Hgu. destruct (Hvals _ _ Hgu) as [->| ->];
      [apply nle_refl|apply nle_infinity].
  - intros u Hu. apply list_elem_of_singleton in Hu as ->.
    exists (lit 0), sn. rewrite !lookup_insert_eq. by rewrite zero_add.
  - intros u [Hu|[?|[v Hv]]]; [|done|by rewrite lookup_empty in Hv].
    apply list_elem_of_singleton in Hu. by left.
  - intros v u Hv. by rewrite lookup_empty in Hv.
  - intros u v c gu Hu Hedge Hgu. left.
    assert (u ≠ start) as Hne by (intros ->; apply Hu; by left).
    rewrite lookup_insert_ne in Hgu by done.
    rewrite initScores_lookup in Hgu. case_decide; [|done]. injection Hgu as <-.
    destruct (edgeIn_bound _ _ _ _ Hwf Hedge) as [_ Hv].
    assert (is_Some (<[start := lit 0]> (initScores g) !! v)) as [gv Hgv].
    { rewrite lookup_insert. case_decide; [by eexists|].
      rewrite initScores_lookup, decide_True; [by eexists|]. by apply wellFormed_ids. }
    exists gv. split; [done|]. eapply nle_trans; [apply nle_infinity|].
    apply nle_add_r. by eapply (con_nonneg _ _ _ Hcon).
Qed.


End Search.

Section StandardMode.
Context `{NumberLaws}.
Local Open Scope num_scope.

Lemma consecutive_coordsOf segs seg p q :
  seg ∈ segs → status seg ≠ blocked → consecutive seg p q →
  p ∈ coordsOf segs ∧ q ∈ coordsOf segs.
Proof.
  intros Hin Hnb (k & Hp & Hq). unfold coordsOf.
  split; apply elem_of_flat_map; exists seg;
    (split; [by apply list_elem_of_filter|by eapply list_elem_of_lookup_2]).
Qed.

Lemma originates_standard segs p q c :
  MetricOn (coordsOf segs) → originates segs false p q c →
  p ∈ coordsOf segs ∧ q ∈ coordsOf segs ∧ distance p q ⪯ c.
Proof.
  intros Hm (seg & Hin & Hnb & Hc & ->).
  destruct (consecutive_coordsOf _ _ _ _ Hin Hnb Hc) as [Hp Hq].
  split; [done|]. split; [done|].
  unfold segmentCost, baseCost. fold (distance p q).
  case_decide.
  - apply mul_three. by apply (dist_nonneg _ Hm).
  - rewrite mul_one. apply nle_refl.
Qed.

Lemma node_position segs (bst : BuildState) u nu :
  BuildInv (originates segs false) bst → MetricOn (coordsOf segs) →
  bs_nodes bst !! u = Some nu → (lat nu, lng nu) ∈ coordsOf segs.
Proof.
  intros Hinv Hm Hu.
  destruct (inv_coord _ _ Hinv _ _ Hu) as (p & q & c & Ho & Hpq).
  destruct (originates_standard _ _ _ _ Hm Ho) as (Hp & Hq & _).
  by destruct Hpq as [-> | ->].
Qed.

Lemma node_is_coord segs (bst : BuildState) u nu p :
  BuildInv (originates segs false) bst → MetricOn (coordsOf segs) →
  keysDistinct (coordsOf segs) →
  bs_nodes bst !! u = Some nu → nodeIndexMap bst !! coordKey p = Some u →
  p ∈ coordsOf segs → (lat nu, lng nu) = p.
Proof.
  intros Hinv Hm Hkeys Hu Hidx Hp.
  apply Hkeys; [by eapply node_position|done|].
  pose proof (inv_index _ _ Hinv _ _ Hidx) as Hk. rewrite Hu in Hk.
  simpl in Hk. by injection Hk.
Qed.

(** In standard mode, when distinct coordinates have distinct keys, the
    haversine heuristic is consistent on the graph that is built. *)
Lemma standard_consistent segs g t tn :
  buildGraph segs false = Some g →
  keysDistinct (coordsOf segs) → MetricOn (coordsOf segs) →
  nodeAt g t = Some tn → Consistent g (Z.to_nat t) tn.
Proof.
  intros Hg Hkeys Hm Ht.
  destruct (buildGraph_spec segs false) as (bst & _ & Hg' & Hinv & _).
  rewrite Hg in Hg'. injection Hg' as ->.
  apply nodeAt_Some in Ht as [_ Ht]. simpl in Ht.
  pose proof (node_position _ _ _ _ Hinv Hm Ht) as HG.
  split; simpl.
  - by eapply BuildInv_wellFormed.
  - done.
  - intros u v c Huv.
    destruct (inv_origin _ _ Hinv _ _ _ Huv) as (p & q & Ho & _).
    destruct (originates_standard _ _ _ _ Hm Ho) as (Hp & Hq & Hle).
    eapply nle_trans; [|done]. by apply (dist_nonneg _ Hm).
  - intros u v c nu nv Huv Hu Hv.
    destruct (inv_origin _ _ Hinv _ _ _ Huv) as (p & q & Ho & Hpos).
    destruct (originates_standard _ _ _ _ Hm Ho) as (Hp & Hq & Hle).
    unfold heuristic.
    change (haversineDistance (lat nu) (lng nu) (lat tn) (lng tn))
      with (distance (lat nu, lng nu) (lat tn, lng tn)).
    change (haversineDistance (lat nv) (lng nv) (lat tn) (lng tn))
      with (distance (lat nv, lng nv) (lat tn, lng tn)).
    destruct Hpos as [[Hpu Hqv]|[Hqu Hpv]].
    + rewrite (node_is_coord _ _ _ _ p Hinv Hm Hkeys Hu Hpu Hp).
      rewrite (node_is_coord _ _ _ _ q Hinv Hm Hkeys Hv Hqv Hq).
      eapply nle_trans; [by apply (dist_triangle _ Hm p q)|]. by apply add_mono.
    + rewrite (node_is_coord _ _ _ _ q Hinv Hm Hkeys Hu Hqu Hq).
      rewrite (node_is_coord _ _ _ _ p Hinv Hm Hkeys Hv Hpv Hp).
      eapply nle_trans; [by apply (dist_triangle _ Hm q p)|].
      apply add_mono. eapply nle_trans; [by apply (dist_sym _ Hm q p)|done].
  - by apply (dist_self _ Hm (lat tn, lng tn)).
  - by apply (dist_nonneg _ Hm (lat tn, lng tn) (lat tn, lng tn)).
Qed.


End StandardMode.

Section ExactLaws.
Import Exact.
Local Open Scope Qc_scope.

Lemma xltb_Fin a b : xltb (Fin a) (Fin b) = true ↔ a < b.
Proof.
  simpl. rewrite Qclt_alt. destruct (a ?= b); split; congruence.
Qed.

Lemma xltb_Fin_false a b : xltb (Fin a) (Fin b) = false ↔ b <= a.
Proof.
  rewrite <- not_true_iff_false, xltb_Fin. split.
  - apply Qcnot_lt_le.
  - intros Hle Hlt. by apply (Qcle_not_lt _ _ Hle).
Qed.

Global Instance exact_laws : @NumberLaws exact.
Proof.
  split.
  - intros [a|]; [|done]. apply xltb_Fin_false, Qcle_refl.
  - intros [a|] [b|] [c|]; try done. rewrite !xltb_Fin. apply Qclt_trans.
  - intros [a|] [b|]; try done. rewrite !xltb_Fin_false.
    intros H1 H2. f_equal. by apply Qcle_antisym.
  - done.
  - intros [a|] [b|]; try done. simpl. f_equal. apply Qcplus_comm.
  - intros [a|] [b|] [c|]; try done. simpl. f_equal. apply Qcplus_assoc.
  - intros [a|]; [|done]. simpl. f_equal. apply Qcplus_0_r.
  - unfold nle. intros [a|] [b|] [c|]; try (simpl; done).
    change ltb with xltb. simpl add. unfold lift2.
    rewrite !xltb_Fin_false. intros Hab.
    by apply Qcplus_le_compat; [|apply Qcle_refl].
  - intros [a|]; [|done]. simpl. f_equal. apply Qcmult_1_r.
  - unfold nle. intros [a|]; [|done]. change ltb with xltb. simpl mul. simpl lit.
    unfold lift2, xlit. rewrite !xltb_Fin_false. intros Ha.
    rewrite <- (Qcmult_1_r a) at 1. rewrite !(Qcmult_comm a).
    apply Qcmult_le_compat_r; [|done]. by vm_compute.
Qed.

End ExactLaws.

Section AssemblerFacts.
Context `{Number}.

Lemma idsFollowIndex_snoc lineId segments coords :
  idsFollowIndex lineId segments →
  idsFollowIndex lineId
    (segments ++ [newSegment (createDeterministicId coords lineId (Some (length segments)))
                    coords]).
Proof.
  intros Hids k seg Hk.
  destruct (decide (k < length segments)) as [Hlt|Hge].
  - rewrite lookup_app_l in Hk by done. by apply Hids.
  - rewrite lookup_app_r in Hk by lia.
    destruct (k - length segments) as [|j] eqn:E; simpl in Hk; [|by destruct j].
    injection Hk as <-. simpl. do 3 f_equal. lia.
Qed.

Lemma twoCoordinates_snoc segments segId coords :
  twoCoordinates segments → 1 < length coords →
  twoCoordinates (segments ++ [newSegment segId coords]).
Proof.
  intros Htwo Hlen seg Hin. apply elem_of_app in Hin as [Hin|Hin]; [by apply Htwo|].
  apply list_elem_of_singleton in Hin as ->. simpl. lia.
Qed.

Lemma splitStep_spec line lineId acc intersection :
  idsFollowIndex lineId (fst acc) → twoCoordinates (fst acc) →
  idsFollowIndex lineId (fst (splitStep line lineId acc intersection)) ∧
  twoCoordinates (fst (splitStep line lineId acc intersection)).
Proof.
  destruct acc as [segments currentStart]. unfold splitStep. simpl. intros Hids Htwo.
  case_decide; [|done]. case_decide; [|done].
  split; [by apply idsFollowIndex_snoc|by apply twoCoordinates_snoc].
Qed.

Lemma splitLoop_spec line lineId intersections : ∀ acc,
  idsFollowIndex lineId (fst acc) → twoCoordinates (fst acc) →
  idsFollowIndex lineId (fst (foldl (splitStep line lineId) acc intersections)) ∧
  twoCoordinates (fst (foldl (splitStep line lineId) acc intersections)).
Proof.
  induction intersections as [|x xs IH]; intros acc Hids Htwo; simpl; [done|].
  destruct (splitStep_spec line lineId acc x Hids Htwo). by apply IH.
Qed.

Lemma splitLine_ids line intersections lineId :
  idsFollowIndex lineId (splitLineAtIntersections line intersections lineId).
Proof.
  unfold splitLineAtIntersections. case_decide.
  { intros [|k] seg Hk; simpl in Hk; [|done]. by injection Hk as <-. }
  destruct (splitLoop_spec line lineId
              (map fst (sortByDistance
                 (map (λ i, (i, getDistanceAlongLine line i)) intersections))) ([], 0))
    as [Hids _].
  { intros k seg Hk. simpl in Hk. by rewrite lookup_nil in Hk. }
  { intros seg Hin. simpl in Hin. by apply elem_of_nil in Hin. }
  destruct (foldl _ _ _) as [segments currentStart]. simpl in Hids.
  case_decide; [|done]. case_decide; [|done]. by apply idsFollowIndex_snoc.
Qed.

Lemma splitLine_two line intersections lineId :
  intersections ≠ [] →
  twoCoordinates (splitLineAtIntersections line intersections lineId).
Proof.
  intros Hne. unfold splitLineAtIntersections.
  rewrite decide_False by (by destruct intersections).
  destruct (splitLoop_spec line lineId
              (map fst (sortByDistance
                 (map (λ i, (i, getDistanceAlongLine line i)) intersections))) ([], 0))
    as [_ Htwo].
  { intros k seg Hk. simpl in Hk. by rewrite lookup_nil in Hk. }
  { intros seg Hin. simpl in Hin. by apply elem_of_nil in Hin. }
  destruct (foldl _ _ _) as [segments currentStart]. simpl in Htwo.
  case_decide; [|done]. case_decide; [|done]. by apply twoCoordinates_snoc.
Qed.

Lemma splitLine_whole line lineId :
  splitLineAtIntersections line [] lineId =
  [newSegment (createDeterministicId line lineId (Some 0)) line].
Proof. done. Qed.

Lemma toInt32_range z : (- 2 ^ 31 ≤ toInt32 z < 2 ^ 31)%Z.
Proof. unfold toInt32. pose proof (Z.mod_pos_bound (z + 2 ^ 31) (2 ^ 32)). lia. Qed.

Lemma coordHash_range coords : (Z.abs (coordHash coords) ≤ 2 ^ 31)%Z.
Proof.
  unfold coordHash.
  assert (∀ l h, (- 2 ^ 31 ≤ h < 2 ^ 31)%Z → (- 2 ^ 31 ≤ foldl hashStep h l < 2 ^ 31)%Z)
    as Hgen.
  { induction l as [|c l IH]; intros h Hh; [done|]. simpl. apply IH.
    unfold hashStep. apply toInt32_range. }
  specialize (Hgen (String.list_ascii_of_string (coordString coords)) 0%Z).
  lia.
Qed.

Lemma segmentsOfFeature_shape allIntersections m feature :
  map (λ s, (seg_id s, coordinates s)) (segmentsOfFeature allIntersections m feature) =
  map (λ s, (seg_id s, coordinates s))
    (splitLineAtIntersections (lineOf feature)
       (filter (λ i, onLine (lineOf feature) i = true) allIntersections)
       (lineIdOf feature)).
Proof. unfold segmentsOfFeature. rewrite map_map. by apply map_ext. Qed.

Lemma map_flat_map {A B C} (f : B → C) (h : A → list B) (l : list A) :
  map f (flat_map h l) = flat_map (λ x, map f (h x)) l.
Proof. induction l as [|a l IH]; simpl; [done|]. by rewrite map_app, IH. Qed.

(** C6. Segment assembly is a function of the raw features alone: the
    identifiers and coordinate sequences it produces do not depend on the
    statuses read from the store, and [makeId] with its counter takes no
    part in it.  Every identifier is [createDeterministicId] of the
    segment's coordinates, the line identifier of its feature and the
    segment's index within that feature: [lineId_seg_index] when the
    feature has a line identifier, and otherwise [seg_] followed by the
    magnitude of a 32-bit hash that depends only on the coordinates rounded
    to 6 decimals. *)
Theorem assembly_deterministic :
  (∀ roadData m1 m2,
     map (λ s, (seg_id s, coordinates s)) (initializeSegments roadData m1) =
     map (λ s, (seg_id s, coordinates s)) (initializeSegments roadData m2)) ∧
  (∀ roadData m seg, seg ∈ initializeSegments roadData m →
     ∃ feature k, feature ∈ roadData ∧ isRoad feature = true ∧
       segmentsOfFeature (findAllIntersections (filter (λ f, isRoad f = true) roadData))
         m feature !! k = Some seg ∧
       seg_id seg = createDeterministicId (coordinates seg) (lineIdOf feature) (Some k)) ∧
  (∀ coords l k, truthy (Some l) = true →
     createDeterministicId coords (Some l) (Some k) = l +:+ "_seg_" +:+ pretty k) ∧
  (∀ coords lineId k, truthy lineId = false →
     createDeterministicId coords lineId (Some k) =
       "seg_" +:+ pretty (Z.abs (coordHash coords))) ∧
  (∀ coords coords', coordString coords = coordString coords' →
     coordHash coords = coordHash coords') ∧
  (∀ coords, (0 ≤ Z.abs (coordHash coords) ≤ 2 ^ 31)%Z).
Proof.
  split; [|split; [|split; [|split; [|split]]]].
  - intros roadData m1 m2. unfold initializeSegments. rewrite !map_flat_map.
    apply flat_map_ext. intros f. by rewrite !segmentsOfFeature_shape.
  - intros roadData m seg Hin. unfold initializeSegments in Hin.
    apply elem_of_flat_map in Hin as (feature & Hf & Hseg).
    apply list_elem_of_filter in Hf as [Hroad Hf].
    apply list_elem_of_lookup in Hseg as [k Hk].
    exists feature, k. repeat (split; [done|]).
    unfold segmentsOfFeature in Hk. rewrite list_lookup_fmap in Hk.
    destruct (splitLineAtIntersections _ _ _ !! k) as [seg0|] eqn:Hk0; [|done].
    injection Hk as <-. simpl. exact (splitLine_ids _ _ _ k seg0 Hk0).
  - intros coords l k Ht. unfold createDeterministicId. by rewrite Ht.
  - intros coords [l|] k Ht; unfold createDeterministicId; [|done]. by rewrite Ht.
  - intros coords coords' Heq. unfold coordHash. by rewrite Heq.
  - intros coords. split; [lia|apply coordHash_range].
Qed.

(** C8, as amended. Assembly validates nothing.  A feature with no
    intersection point on it becomes one segment that carries all its
    coordinates, however few; every sub-sequence kept when a feature is
    split at intersection points has at least 2 coordinates, which need
    not be distinct.  So every segment has at least 2 coordinates when
    every road feature has. *)
Theorem assembly_keeps_two_coordinates (roadData : list Feature)
  (m : gmap string RoadStatus) :
  (∀ f, f ∈ roadData → isRoad f = true → 2 ≤ length (feat_coordinates f)) →
  (∀ seg, seg ∈ initializeSegments roadData m → 2 ≤ length (coordinates seg)) ∧
  (∀ line lineId,
     map coordinates (splitLineAtIntersections line [] lineId) = [line]) ∧
  (∀ line intersections lineId seg, intersections ≠ [] →
     seg ∈ splitLineAtIntersections line intersections lineId →
     2 ≤ length (coordinates seg)).
Proof.
  intros Hlen. split; [|split].
  - intros seg Hin. unfold initializeSegments in Hin.
    apply elem_of_flat_map in Hin as (feature & Hf & Hseg).
    apply list_elem_of_filter in Hf as [Hroad Hf].
    unfold segmentsOfFeature in Hseg. apply list_elem_of_fmap in Hseg as (seg0 & -> & Hseg0).
    simpl.
    destruct (filter (λ i, onLine (lineOf feature) i = true) _) as [|i rest] eqn:Hint.
    + rewrite splitLine_whole in Hseg0. apply list_elem_of_singleton in Hseg0 as ->.
      simpl. unfold lineOf. rewrite length_map. by apply Hlen.
    + by eapply (splitLine_two (lineOf feature) (i :: rest) (lineIdOf feature)).
  - done.
  - intros line intersections lineId seg Hne Hin.
    by eapply (splitLine_two line intersections lineId).
Qed.

End AssemblerFacts.

Section Observations.
Context `{Number}.

Lemma buildGraph_builtGraph segs tall :
  buildGraph segs tall = Some (builtGraph segs tall).
Proof.
  destruct (buildGraph_spec segs tall) as (st & _ & Hg & _).
  unfold builtGraph. by rewrite Hg.
Qed.

Lemma buildGraph_hasEdge segs tall seg p q :
  seg ∈ segs → status seg ≠ blocked → consecutive seg p q →
  hasEdge (builtGraph segs tall) p q (segmentCost tall seg p q) ∧
  hasEdge (builtGraph segs tall) q p (segmentCost tall seg p q).
Proof.
  intros Hin Hnb Hc.
  destruct (buildGraph_spec segs tall) as (st & _ & Hg & Hinv & Hl).
  unfold builtGraph. rewrite Hg. simpl.
  eapply linked_hasEdge; [done|]. by apply Hl.
Qed.

Lemma nodeFor_nodeKeys g p i :
  nodeFor (nodes g) p i ↔ nodeKeys g !! i = Some (coordKey p).
Proof. unfold nodeFor, nodeKeys. by rewrite list_lookup_fmap. Qed.


Lemma astar_Some_search fuel g s t path :
  astar fuel g s t = Returned (Some path) →
  ∃ st, astarSearch fuel g s t = Returned (Some path, st).
Proof.
  unfold astar. destruct (astarSearch fuel g s t) as [[r st]| |]; [|done..].
  intros [= ->]. by exists st.
Qed.

Lemma astarLoop_null g goal goalNode : ∀ fuel st st',
  astarLoop fuel g goal goalNode st = Returned (None, st') →
  loopsTo g goal goalNode st st' ∧ openSet st' = [].
Proof.
  induction fuel as [|fuel IH]; intros st st'; simpl; [done|].
  destruct (astarIter fuel g goal goalNode st) as [st1|c] eqn:Hit.
  - intros Hl. destruct (IH _ _ Hl) as [Hloop Hempty].
    split; [|done]. by eapply loops_step.
  - intros ->. unfold astarIter in Hit.
    destruct (openSet st) as [|x xs] eqn:Ho.
    + injection Hit as <-. split; [apply loops_here|done].
    + exfalso. destruct (fst (pickCurrent _ _)) as [cur|]; [|done].
      case_decide.
      * by destruct (reconstructPath _ _ _ _).
      * destruct (nodes g !! cur); [|done]. by destruct (relaxEdges _ _ _ _ _).
Qed.

Lemma astar_null_loops fuel g s t :
  astar fuel g s t = Returned None →
  ∃ sn tn st', nodeAt g s = Some sn ∧ nodeAt g t = Some tn ∧
    loopsTo g (Z.to_nat t) tn (astarInit g (Z.to_nat s) sn tn) st' ∧ openSet st' = [].
Proof.
  unfold astar, astarSearch.
  destruct (nodeAt g s) as [sn|]; [|done]. destruct (nodeAt g t) as [tn|]; [|done].
  destruct (astarLoop _ _ _ _ _) as [[[p|] st']| |] eqn:Hl; try done.
  intros _. exists sn, tn, st'. split; [done|]. split; [done|].
  by eapply astarLoop_null.
Qed.

End Observations.

Section Scenarios.
Import Exact Scenario.
Local Open Scope num_scope.


Ltac here := repeat first [apply list_elem_of_here | apply list_elem_of_further].




Lemma edgeIn_edgeList (g : @Graph exact) u v c :
  edgeIn (nodes g) u v c → (u, v, value c) ∈ edgeList g.
Proof.
  intros (n & Hn & He). unfold edgeList. apply list_elem_of_join.
  exists ((λ e : @GraphEdge exact, (u, to e, value (cost e))) <$> edges n). split.
  - apply (list_elem_of_fmap_2 (λ e : @GraphEdge exact, (u, to e, value (cost e))) _ _ He).
  - apply list_elem_of_lookup. exists u. by rewrite list_lookup_imap, Hn.
Qed.

(** C2, as amended. With a restricted segment of 100 m from [A] to [B] and
    a passable detour of 250 m: in tall mode the routing effect keeps both
    segments and returns the restricted segment, at cost 50.  In standard
    mode the routing effect keeps passable segments only, so the graph it
    builds has the edges of the detour alone and the route is the detour,
    at cost 250.  [buildGraph] itself, given both segments in standard
    mode, weighs the restricted segment at 3 times its length, 300, and
    [astar] then takes the detour as well. *)
Theorem preference_scenario :
  (seg_id <$> filterForVehicle true preference = ["direct"; "detour"] ∧
   routeSummary (routeEffect 100 preference true A B) = Some ([0; 1], Some 100%Q) ∧
   searchSummary 100 (graphOf (filterForVehicle true preference) true) 0 1
     = Some ([0; 1], Some 50%Q)) ∧
  (seg_id <$> filterForVehicle false preference = ["detour"] ∧
   nodeKeys (graphOf (filterForVehicle false preference) false)
     = coordKey <$> [A; M; B] ∧
   edgeList (graphOf (filterForVehicle false preference) false)
     = [(0, 1, Some 75%Q); (1, 0, Some 75%Q); (1, 2, Some 175%Q); (2, 1, Some 175%Q)] ∧
   routeSummary (routeEffect 100 preference false A B) = Some ([0; 1; 2], Some 250%Q) ∧
   searchSummary 100 (graphOf (filterForVehicle false preference) false) 0 2
     = Some ([0; 1; 2], Some 250%Q)) ∧
  (nodeKeys (graphOf preference false) = coordKey <$> [A; B; M] ∧
   edgeList (graphOf preference false)
     = [(0, 1, Some 300%Q); (0, 2, Some 75%Q); (1, 0, Some 300%Q);
        (1, 2, Some 175%Q); (2, 0, Some 75%Q); (2, 1, Some 175%Q)] ∧
   searchSummary 100 (graphOf preference false) 0 1 = Some ([0; 2; 1], Some 250%Q)).
Proof. repeat split; vm_compute; reflexivity. Qed.

(** In standard mode the graph the routing effect builds has no edge from
    [A] to [B]: the restricted segment is not in it. *)
Lemma restricted_absent_from_standard_route :
  ¬ ∃ g c, buildGraph (filterForVehicle false preference) false = Some g ∧
           hasEdge g A B c.
Proof.
  intros (g & c & Hg & i & j & Hi & Hj & He).
  rewrite buildGraph_builtGraph in Hg. apply (inj Some) in Hg. subst g.
  pose proof (proj1 (nodeFor_nodeKeys _ _ _) Hi) as Hi'.
  pose proof (proj1 (nodeFor_nodeKeys _ _ _) Hj) as Hj'.
  pose proof (edgeIn_edgeList _ _ _ _ He) as He'. clear Hi Hj He.
  vm_compute in Hi'. vm_compute in Hj'.
  destruct i as [|[|[|i]]]; [|discriminate Hi'..].
  destruct j as [|[|[|j]]]; [discriminate Hj'..| |discriminate Hj'].
  vm_compute in He'.
  repeat (apply elem_of_cons in He' as [He'|He']; [discriminate He'|]).
  exact (proj1 (elem_of_nil _) He').
Qed.


(** A road with a single coordinate is passed through as a segment with a
    single coordinate, and a road whose two coordinates are the same point
    as a segment with that point twice. *)
Lemma single_coordinate_segment :
  (λ s, (seg_id s, length (coordinates s))) <$> initializeSegments [stub] ∅
    = [("way/1_seg_0", 1)] ∧
  ¬ twoCoordinates (initializeSegments [stub] ∅) ∧
  (λ s, (seg_id s, coordinateValues s)) <$> initializeSegments [twin] ∅
    = [("way/3_seg_0", [(Some 0%Q, Some 0%Q); (Some 0%Q, Some 0%Q)])].
Proof.
  split; [vm_compute; reflexivity|]. split; [|vm_compute; reflexivity].
  intros Htwo.
  assert (head ((λ s, length (coordinates s)) <$> initializeSegments [stub] ∅) = Some 1)
    as Hh by (vm_compute; reflexivity).
  destruct (initializeSegments [stub] ∅) as [|seg segs]; [discriminate Hh|].
  specialize (Htwo seg (list_elem_of_here _ _)).
  simpl in Hh. injection Hh as Hlen. lia.
Qed.

(** C9. The suppression of feed updates after a local edit holds in the
    simple case and fails when two edits of one segment follow each other:
    a local edit sets the status at once; the feed's older status
    delivered right after it is dropped, and is applied once the timer set
    at that delivery has run.  But the timers of the first edit are still
    pending when the second edit is made, 3.8 s later; one of them runs
    100 ms after it and clears the flag, and the feed's older status,
    delivered 200 ms after the second edit, replaces the edited status. *)
Theorem stale_timer_ends_suppression :
  statusOf "X" (runEvents oneSegment editThenFeed) = Some blocked ∧
  statusOf "X" (runEvents oneSegment (editThenFeed ++ feedAfterWindow)) = Some passable ∧
  statusOf "X" (runEvents oneSegment twoEdits) = Some restricted ∧
  "X" ∈ locallyUpdatedSegments (runEvents oneSegment twoEdits) ∧
  statusOf "X" (runEvents oneSegment (twoEdits ++ staleFeed)) = Some blocked.
Proof.
  split; [vm_compute; reflexivity|]. split; [vm_compute; reflexivity|].
  split; [vm_compute; reflexivity|]. split; [|vm_compute; reflexivity].
  apply elem_of_elements.
  replace (elements _) with ["X"] by (vm_compute; reflexivity). here.
Qed.

(** ** Instances of the theorems on the concrete inputs *)

Lemma buildGraph_adds_both_edges_witness :
  direct ∈ preference ∧ status direct ≠ blocked ∧ consecutive direct A B ∧
  ∃ g, buildGraph preference true = Some g ∧
       hasEdge g A B (haversineDistance (fst A) (snd A) (fst B) (snd B) * lit (1 # 2)) ∧
       hasEdge g B A (haversineDistance (fst A) (snd A) (fst B) (snd B) * lit (1 # 2)).
Proof.
  assert (direct ∈ preference) as H1
    by exact (list_elem_of_lookup_2 preference 0 direct eq_refl).
  assert (status direct ≠ blocked) as H2 by discriminate.
  assert (consecutive direct A B) as H3 by (exists 0; split; reflexivity).
  repeat (split; [assumption|]).
  exact (buildGraph_adds_both_edges preference true direct A B H1 H2 H3).
Defined.



Lemma no_route_and_lookup_failure_are_values_witness :
  ∃ k, ∀ fuel, k ≤ fuel → astar fuel (graphOf islands false) 0 2 = Returned None.
Proof.
  assert (astar 100 (graphOf islands false) 0 2 = Returned None) as Ha
    by (vm_compute; reflexivity).
  destruct (astar_null_loops _ _ _ _ Ha) as (sn & tn & st' & Hs & Ht & Hloop & Hempty).
  exact (proj1 (no_route_and_lookup_failure_are_values
                  (graphOf islands false) 0 2 sn tn st' Hs Ht Hloop Hempty)).
Defined.

Lemma assembly_keeps_two_coordinates_witness :
  (∀ f, f ∈ [street] → isRoad f = true → 2 ≤ length (feat_coordinates f)) ∧
  ∀ seg, seg ∈ initializeSegments [street] ∅ → 2 ≤ length (coordinates seg).
Proof.
  assert (∀ f, f ∈ [street] → isRoad f = true → 2 ≤ length (feat_coordinates f)) as Hlen.
  { intros f Hf _. apply list_elem_of_singleton in Hf as ->. vm_compute. lia. }
  split; [exact Hlen|].
  exact (proj1 (assembly_keeps_two_coordinates [street] ∅ Hlen)).
Defined.

End Scenarios.

Section Soundness.
Context `{Number}.

Lemma relaxEdge_rooted g start goalNode cur st e st' :
  rooted g start st →
  (cur = start ∨ is_Some (cameFrom st !! cur)) →
  edgeIn (nodes g) cur (to e) (cost e) →
  relaxEdge g goalNode cur st e = Returned st' →
  rooted g start st' ∧ (cur = start ∨ is_Some (cameFrom st' !! cur)).
Proof.
  intros Hr Hcur He. unfold relaxEdge.
  destruct (gScore st !! cur) as [gc|]; [|by intros [= <-]].
  destruct (gScore st !! to e) as [gt|]; [|by intros [= <-]].
  destruct (_ <? gt)%num; [|by intros [= <-]].
  destruct Hr as [Hopen Hcf].
  destruct (nodes g !! to e) as [n|]; [|done]. intros [= <-]. simpl.
  assert (∀ u, u = start ∨ is_Some (cameFrom st !! u) →
               u = start ∨ is_Some (<[to e := cur]> (cameFrom st) !! u)) as Hkeep.
  { intros u [?|Hu]; [by left|right].
    destruct (decide (u = to e)) as [->|Hne].
    - by rewrite lookup_insert_eq.
    - by rewrite lookup_insert_ne. }
  split; [split|]; simpl.
  - intros u Hu. apply setAdd_elem in Hu as [->|Hu].
    + right. by rewrite lookup_insert_eq.
    + apply Hkeep, Hopen, Hu.
  - intros v u Hvu. destruct (decide (v = to e)) as [->|Hne].
    + rewrite lookup_insert_eq in Hvu. injection Hvu as <-.
      split; [by exists (cost e)|by apply Hkeep].
    + rewrite lookup_insert_ne in Hvu by done.
      destruct (Hcf _ _ Hvu) as [Hedge Hroot]. split; [done|by apply Hkeep].
  - by apply Hkeep.
Qed.

Lemma relaxEdges_rooted g start goalNode cur es : ∀ st st',
  rooted g start st →
  (cur = start ∨ is_Some (cameFrom st !! cur)) →
  (∀ e, e ∈ es → edgeIn (nodes g) cur (to e) (cost e)) →
  relaxEdges g goalNode cur es st = Returned st' →
  rooted g start st'.
Proof.
  induction es as [|e es IH]; intros st st' Hr Hcur Hes; simpl.
  - by intros [= <-].
  - destruct (relaxEdge g goalNode cur st e) as [st1| |] eqn:He; [|done..].
    intros Hrest.
    destruct (relaxEdge_rooted _ _ _ _ _ _ _ Hr Hcur (Hes e (list_elem_of_here _ _)) He)
      as [Hr1 Hcur1].
    apply (IH st1 st' Hr1 Hcur1); [|done].
    intros e' He'. apply Hes. by apply list_elem_of_further.
Qed.

Lemma astarIter_rooted fuel g start goal goalNode st st' :
  rooted g start st →
  astarIter fuel g goal goalNode st = Continue st' →
  rooted g start st'.
Proof.
  intros Hr. unfold astarIter.
  destruct (openSet st) as [|x xs] eqn:Ho; [done|]. rewrite <- Ho.
  destruct (fst (pickCurrent _ _)) as [cur|] eqn:Hp; [|done].
  apply pickCurrent_elem in Hp.
  case_decide; [by destruct (reconstructPath _ _ _ _)|].
  destruct (nodes g !! cur) as [node|] eqn:Hn; [|done].
  destruct (relaxEdges _ _ _ _ _) as [st2| |] eqn:Hrel; [|done..].
  intros [= <-]. destruct Hr as [Hopen Hcf].
  refine (relaxEdges_rooted g start goalNode cur (edges node) _ st2 _ _ _ Hrel).
  - split; simpl; [|done]. intros u Hu. apply setDelete_elem in Hu as [_ Hu].
    by apply Hopen.
  - simpl. by apply Hopen.
  - intros e He. exists node. split; [done|]. by destruct e.
Qed.

Lemma reconstructPath_route g start goal cf : ∀ fuel cur rest path,
  (∀ v u, cf !! v = Some u →
     (∃ c, edgeIn (nodes g) u v c) ∧ (u = start ∨ is_Some (cf !! u))) →
  (cur = start ∨ is_Some (cf !! cur)) →
  (∃ c, walk (nodes g) (cur :: rest) c) → last (cur :: rest) = Some goal →
  reconstructPath fuel cf cur (cur :: rest) = Returned path →
  route g start goal path.
Proof.
  induction fuel as [|fuel IH]; intros cur rest path Hcf Hcur Hw Hlast; simpl.
  - destruct (cf !! cur) eqn:Hc; [done|]. intros [= <-].
    destruct Hcur as [->|[? ?]]; [|done]. by repeat split.
  - destruct (cf !! cur) as [prev|] eqn:Hc.
    + intros Hrec. destruct (Hcf _ _ Hc) as [[c Hedge] Hprev].
      apply (IH prev (cur :: rest) path Hcf Hprev); [|done|done].
      destruct Hw as [c' Hw]. exists (c + c')%num. by apply walk_cons.
    + intros [= <-]. destruct Hcur as [->|[? ?]]; [|done]. by repeat split.
Qed.

Lemma astarLoop_route g start goal goalNode : ∀ fuel st path st',
  rooted g start st →
  astarLoop fuel g goal goalNode st = Returned (Some path, st') →
  route g start goal path.
Proof.
  induction fuel as [|fuel IH]; intros st path st' Hr; simpl; [done|].
  destruct (astarIter fuel g goal goalNode st) as [st1|c] eqn:Hit.
  - apply IH. by eapply astarIter_rooted.
  - intros ->. unfold astarIter in Hit.
    destruct (openSet st) as [|x xs] eqn:Ho; [done|]. rewrite <- Ho in Hit.
    destruct (fst (pickCurrent _ _)) as [cur|] eqn:Hp; [|done].
    apply pickCurrent_elem in Hp.
    case_decide as Hg.
    + destruct (reconstructPath _ _ _ _) as [p| |] eqn:Hrec; [|done..].
      injection Hit as <- <-. subst cur. destruct Hr as [Hopen Hcf].
      refine (reconstructPath_route g start goal (cameFrom st) fuel goal [] _
                Hcf (Hopen _ Hp) _ eq_refl Hrec).
      exists (lit 0). apply walk_one.
    + destruct (nodes g !! cur); [|done]. by destruct (relaxEdges _ _ _ _ _).
Qed.

Lemma astarInit_rooted g start sn tn : rooted g start (astarInit g start sn tn).
Proof.
  split; simpl.
  - intros u Hu. apply list_elem_of_singleton in Hu. by left.
  - intros v u Hvu. by rewrite lookup_empty in Hvu.
Qed.

Lemma astar_route fuel g s t path :
  astar fuel g s t = Returned (Some path) →
  (0 ≤ s)%Z ∧ (0 ≤ t)%Z ∧ route g (Z.to_nat s) (Z.to_nat t) path.
Proof.
  intros Ha. apply astar_Some_search in Ha as [st Hs].
  unfold astarSearch in Hs.
  destruct (nodeAt g s) as [sn|] eqn:Hsn; [|done].
  destruct (nodeAt g t) as [tn|] eqn:Htn; [|done].
  apply nodeAt_Some in Hsn as [? _]. apply nodeAt_Some in Htn as [? _].
  split; [done|]. split; [done|].
  eapply astarLoop_route; [apply astarInit_rooted|exact Hs].
Qed.

Lemma astar_same_node fuel g s n :
  nodeAt g s = Some n →
  astar (S fuel) g s s =
    if (heuristic n n <? infinity)%num then Returned (Some [Z.to_nat s]) else Thrown (-1).
Proof.
  intros Hn. unfold astar, astarSearch. rewrite Hn. simpl.
  unfold astarIter, astarInit, pickCurrent. simpl.
  rewrite lookup_insert_eq.
  destruct (heuristic n n <? infinity)%num; simpl; [|done].
  rewrite decide_True by done.
  destruct fuel; simpl; by rewrite lookup_empty.
Qed.

(** X1. Whatever the graph and whatever the arithmetic, a path returned by
    [astar] starts at the start node, ends at the goal node and moves
    along edges of the graph; in particular it is never empty, and both
    indices are non-negative. *)
Theorem astar_returns_a_route (fuel : nat) (g : Graph) (s t : Z) (path : list nat) :
  astar fuel g s t = Returned (Some path) →
  (0 ≤ s)%Z ∧ (0 ≤ t)%Z ∧ path ≠ [] ∧
  head path = Some (Z.to_nat s) ∧ last path = Some (Z.to_nat t) ∧
  ∃ c, walk (nodes g) path c.
Proof.
  intros Ha. destruct (astar_route _ _ _ _ _ Ha) as (Hs & Ht & Hw & Hh & Hl).
  repeat split; try done. by intros ->.
Qed.

(** X2. When the start and the goal are the same node, [astar] returns the
    path made of that node alone after one pass of its loop, provided the
    distance from the node to itself compares below [Infinity]; when it
    does not, no node is picked and reading [graph.nodes[-1]] throws. *)
Theorem astar_start_is_goal (fuel : nat) (g : Graph) (s : Z) (n : GraphNode) :
  nodeAt g s = Some n →
  astar (S fuel) g s s =
    if (heuristic n n <? infinity)%num then Returned (Some [Z.to_nat s]) else Thrown (-1).
Proof. apply astar_same_node. Qed.

End Soundness.

(** Scans that keep the entry of least measure: the state [s] holds the
    best measure so far, [best s], and is replaced by [upd i x] when the
    measure [d x] of the entry [x] at index [i] compares below it. *)
Section Scan.
Context `{Number} {A St : Type}.
Variables (d : A → num) (best : St → num) (upd : nat → A → St) (step : St → nat * A → St).
Hypothesis Hstep : ∀ s i x, step s (i, x) = if (d x <? best s)%num then upd i x else s.
Hypothesis Hupd : ∀ i x, best (upd i x) = d x.
Local Open Scope num_scope.

Lemma scan_choice l : ∀ k s0,
  foldl step s0 (imap (λ i, pair (k + i)%nat) l) = s0 ∨
  ∃ i x, l !! i = Some x ∧ foldl step s0 (imap (λ i, pair (k + i)%nat) l) = upd (k + i)%nat x.
Proof.
  induction l as [|x l IH]; intros k s0; simpl; [by left|].
  rewrite (imap_ext _ (λ i, pair (S k + i)%nat)).
  2:{ intros i y _. simpl. f_equal. lia. }
  rewrite Hstep. replace (k + 0)%nat with k by lia.
  destruct (IH (S k) (if d x <? best s0 then upd k x else s0)) as [->|(i & y & Hy & ->)].
  - destruct (d x <? best s0); [right|by left].
    exists 0%nat, x. split; [done|]. f_equal. lia.
  - right. exists (S i), y. split; [done|]. f_equal. lia.
Qed.

Context `{!NumberLaws}.

Lemma ltb_nle_trans x y z : (x <? y) = true → y ⪯ z → (x <? z) = true.
Proof.
  intros Hxy Hyz. destruct (x <? z) eqn:Hxz; [done|].
  exfalso. apply (nle_ltb_contra y x); [|done]. by eapply nle_trans.
Qed.

Lemma scan_least l : ∀ k s0,
  (foldl step s0 (imap (λ i, pair (k + i)%nat) l) = s0 ∧
   ∀ x, x ∈ l → (d x <? best s0) = false) ∨
  (∃ i x, l !! i = Some x ∧
     foldl step s0 (imap (λ i, pair (k + i)%nat) l) = upd (k + i)%nat x ∧
     (d x <? best s0) = true ∧
     (∀ y, y ∈ l → d x ⪯ d y) ∧
     ∀ j y, (j < i)%nat → l !! j = Some y → (d x <? d y) = true).
Proof.
  induction l as [|x l IH]; intros k s0; simpl.
  { left. split; [done|]. intros x Hx. by apply elem_of_nil in Hx. }
  rewrite (imap_ext _ (λ i, pair (S k + i)%nat)).
  2:{ intros i y _. simpl. f_equal. lia. }
  rewrite Hstep. replace (k + 0)%nat with k by lia.
  destruct (d x <? best s0) eqn:Hx.
  - destruct (IH (S k) (upd k x)) as [[-> Hall]|(i & y & Hy & -> & Hlt & Hmin & Hfirst)].
    + right. exists 0%nat, x. split; [done|]. split; [f_equal; lia|]. split; [done|].
      split; [|intros j y Hj; lia].
      intros y Hy. apply elem_of_cons in Hy as [->|Hy]; [apply nle_refl|].
      specialize (Hall y Hy). by rewrite Hupd in Hall.
    + rewrite Hupd in Hlt. right. exists (S i), y. split; [done|].
      split; [f_equal; lia|]. split; [by eapply ltb_trans|]. split.
      * intros z Hz. apply elem_of_cons in Hz as [->|Hz]; [by apply ltb_nle|by apply Hmin].
      * intros [|j] z Hj Hz; simpl in Hz.
        -- by injection Hz as <-.
        -- apply (Hfirst j z); [lia|done].
  - destruct (IH (S k) s0) as [[-> Hall]|(i & y & Hy & -> & Hlt & Hmin & Hfirst)].
    + left. split; [done|]. intros y Hy.
      apply elem_of_cons in Hy as [->|Hy]; [done|by apply Hall].
    + right. exists (S i), y. split; [done|].
      split; [f_equal; lia|]. split; [done|].
      assert ((d y <? d x) = true) as Hyx by (by eapply ltb_nle_trans).
      split.
      * intros z Hz. apply elem_of_cons in Hz as [->|Hz]; [by apply ltb_nle|by apply Hmin].
      * intros [|j] z Hj Hz; simpl in Hz.
        -- by injection Hz as <-.
        -- apply (Hfirst j z); [lia|done].
Qed.

End Scan.

Section NearestIndex.
Context `{Number}.

Lemma findNearestPointIndex_range line point :
  line ≠ [] → findNearestPointIndex line point < length line.
Proof.
  intros Hne.
  pose proof (scan_choice (vertexDistance point) fst
                (λ i p, (vertexDistance point p, i))
                (λ '(minDistance, nearestIndex) '(i, p),
                   let distance :=
                     sqrt (pow (fst p - fst point) (lit 2) + pow (snd p - snd point) (lit 2)) in
                   if distance <? minDistance then (distance, i)
                   else (minDistance, nearestIndex))%num
                (λ s i x, ltac:(by destruct s))
                line 0%nat (infinity, 0%nat)) as Hscan.
  destruct Hscan as [Hs|(i & p & Hp & Hs)].
  - assert (findNearestPointIndex line point = 0) as -> by exact (f_equal snd Hs).
    destruct line; [done|simpl; lia].
  - assert (findNearestPointIndex line point = i) as -> by exact (f_equal snd Hs).
    by apply lookup_lt_Some in Hp.
Qed.

End NearestIndex.

Section Nearest.
Context `{NumberLaws}.
Local Open Scope num_scope.

Lemma findNearestNode_least g la lo :
  (findNearestNode g la lo = (-1)%Z ∧
   ∀ n, n ∈ nodes g → (distanceTo la lo n <? infinity) = false) ∨
  (∃ i n, nodes g !! i = Some n ∧ findNearestNode g la lo = Z.of_nat i ∧
     (distanceTo la lo n <? infinity) = true ∧
     (∀ m, m ∈ nodes g → distanceTo la lo n ⪯ distanceTo la lo m) ∧
     ∀ j m, (j < i)%nat → nodes g !! j = Some m →
       (distanceTo la lo n <? distanceTo la lo m) = true).
Proof.
  unfold findNearestNode.
  pose proof (scan_least (distanceTo la lo) snd
                (λ i n, (Z.of_nat i, distanceTo la lo n))
                (λ '(bestIdx, bestDist) '(idx, node),
                   let d := haversineDistance la lo (lat node) (lng node) in
                   if d <? bestDist then (Z.of_nat idx, d) else (bestIdx, bestDist))
                (λ s i x, ltac:(by destruct s)) (λ i x, eq_refl)
                (nodes g) 0%nat ((-1)%Z, infinity)) as Hscan.
  destruct Hscan as [[Hs Hall]|(i & n & Hn & Hs & Hrest)].
  - left. split; [|done]. exact (f_equal fst Hs).
  - right. exists i, n. split; [done|]. split; [|done]. exact (f_equal fst Hs).
Qed.

Lemma findNearestPointIndex_least line point :
  ∀ q, line !! findNearestPointIndex line point = Some q →
  ∀ r, r ∈ line → vertexDistance point q ⪯ vertexDistance point r.
Proof.
  pose proof (scan_least (vertexDistance point) fst
                (λ i p, (vertexDistance point p, i))
                (λ '(minDistance, nearestIndex) '(i, p),
                   let distance :=
                     sqrt (pow (fst p - fst point) (lit 2) + pow (snd p - snd point) (lit 2)) in
                   if distance <? minDistance then (distance, i)
                   else (minDistance, nearestIndex))
                (λ s i x, ltac:(by destruct s)) (λ i x, eq_refl)
                line 0%nat (infinity, 0%nat)) as Hscan.
  destruct Hscan as [[Hs Hall]|(i & p & Hp & Hs & _ & Hmin & _)].
  - intros q _ r Hr. pose proof (Hall r Hr) as Hinf. simpl in Hinf.
    assert (∀ x, x ∈ line → vertexDistance point x = infinity) as Heq.
    { intros x Hx. apply ltb_connex; [by apply Hall|apply ltb_infinity]. }
    intros. unfold nle. rewrite (Heq r Hr). apply ltb_infinity.
  - intros q Hq r Hr.
    assert (findNearestPointIndex line point = i) as Hi by exact (f_equal snd Hs).
    rewrite Hi, Hp in Hq. injection Hq as <-. by apply Hmin.
Qed.

(** X19. [findNearestNode] returns [-1] exactly when no node has a
    distance that compares below [Infinity], as on a graph without nodes;
    otherwise it returns the index of a node whose distance is least, and
    of the first such node: every node before it is strictly farther. *)
Theorem findNearestNode_nearest (g : Graph) (la lo : num) :
  (findNearestNode g la lo = (-1)%Z ↔
   Forall (λ n, (distanceTo la lo n <? infinity) = false) (nodes g)) ∧
  (∀ i, findNearestNode g la lo = Z.of_nat i →
     ∃ n, nodes g !! i = Some n ∧
       (distanceTo la lo n <? infinity) = true ∧
       Forall (λ m, distanceTo la lo n ⪯ distanceTo la lo m) (nodes g) ∧
       ∀ j m, (j < i)%nat → nodes g !! j = Some m →
         (distanceTo la lo n <? distanceTo la lo m) = true).
Proof.
  destruct (findNearestNode_least g la lo)
    as [[Hr Hall]|(i & n & Hn & Hr & Hlt & Hmin & Hfirst)].
  - split.
    + split; [intros _; by apply Forall_forall|done].
    + intros i Hi. lia.
  - split.
    + split; [lia|]. intros Hall. rewrite Forall_forall in Hall.
      rewrite (Hall n) in Hlt; [done|]. by eapply list_elem_of_lookup_2.
    + intros i' Hi'. assert (i' = i) as -> by lia.
      exists n. split; [done|]. split; [done|]. split; [by apply Forall_forall|done].
Qed.

(** X20. [findNearestPointIndex] returns an index of the line, 0 for an
    empty line, and the point at that index is a nearest one: no point of
    the line is closer to the given point. *)
Theorem findNearestPointIndex_nearest (line : list Coord) (point : Coord) :
  (line ≠ [] → (findNearestPointIndex line point < length line)%nat) ∧
  findNearestPointIndex [] point = 0%nat ∧
  (∀ q, line !! findNearestPointIndex line point = Some q →
     Forall (λ r, vertexDistance point q ⪯ vertexDistance point r) line).
Proof.
  split; [apply findNearestPointIndex_range|]. split; [done|].
  intros q Hq. apply Forall_forall. by apply findNearestPointIndex_least.
Qed.

End Nearest.

Section GraphShape.
Context `{Number}.

Lemma BuildInv_keys_NoDup P (bst : BuildState) :
  BuildInv P bst → NoDup (keyOf <$> bs_nodes bst).
Proof.
  intros Hinv. apply NoDup_alt. intros i j key Hi Hj.
  rewrite list_lookup_fmap in Hi, Hj.
  destruct (bs_nodes bst !! i) as [n|] eqn:Hn; [|done].
  destruct (bs_nodes bst !! j) as [m|] eqn:Hm; [|done].
  simpl in Hi, Hj. injection Hi as Hi. injection Hj as Hj.
  pose proof (inv_key _ _ Hinv _ _ Hn) as Kn.
  pose proof (inv_key _ _ Hinv _ _ Hm) as Km.
  rewrite Hi in Kn. rewrite Hj in Km. congruence.
Qed.

Lemma coordinate_consecutive seg p :
  2 ≤ length (coordinates seg) → p ∈ coordinates seg →
  ∃ q, consecutive seg p q ∨ consecutive seg q p.
Proof.
  intros Hlen Hp. apply list_elem_of_lookup in Hp as [k Hk].
  destruct (coordinates seg !! S k) as [q|] eqn:Hq.
  - exists q. left. by exists k.
  - destruct k as [|k].
    + apply lookup_ge_None in Hq. lia.
    + destruct (lookup_lt_is_Some_2 (coordinates seg) k) as [q' Hq'].
      { apply lookup_lt_Some in Hk. lia. }
      exists q'. right. by exists k.
Qed.

Lemma linked_nodeFor P (bst : BuildState) p q c :
  BuildInv P bst → linked bst p q c →
  ∃ i j n, nodeFor (bs_nodes bst) p i ∧ nodeFor (bs_nodes bst) q j ∧
           bs_nodes bst !! i = Some n ∧ {| to := j; cost := c |} ∈ edges n ∧
           edgeIn (bs_nodes bst) j i c.
Proof.
  intros Hinv (i & j & Hi & Hj & (n & Hn & He) & Hji).
  exists i, j, n. repeat split; try done; by apply (inv_index _ _ Hinv).
Qed.

Lemma nodeFor_unique P (bst : BuildState) p i j :
  BuildInv P bst → nodeFor (bs_nodes bst) p i → nodeFor (bs_nodes bst) p j → i = j.
Proof.
  intros Hinv Hi Hj. pose proof (BuildInv_keys_NoDup _ _ Hinv) as Hnd.
  unfold nodeFor in Hi, Hj. rewrite <- list_lookup_fmap in Hi, Hj.
  by eapply NoDup_lookup.
Qed.

(** X3. The nodes of the graph [buildGraph] returns: no two nodes have the
    same key; every node has at least one edge, and its position is a
    coordinate of a segment that is not blocked; and every coordinate of a
    segment that is not blocked and has two or more coordinates has
    exactly one node. *)
Theorem buildGraph_nodes (segs : list RoadSegment) (tall : bool) :
  ∃ g, buildGraph segs tall = Some g ∧
    NoDup (nodeKeys g) ∧
    (∀ i n, nodes g !! i = Some n →
       edges n ≠ [] ∧
       ∃ seg, seg ∈ segs ∧ status seg ≠ blocked ∧ (lat n, lng n) ∈ coordinates seg) ∧
    (∀ seg p, seg ∈ segs → status seg ≠ blocked → 2 ≤ length (coordinates seg) →
       p ∈ coordinates seg →
       ∃ i, nodeFor (nodes g) p i ∧ ∀ j, nodeFor (nodes g) p j → j = i).
Proof.
  destruct (buildGraph_spec segs tall) as (st & _ & Hg & Hinv & Hl).
  exists {| nodes := bs_nodes st |}. split; [done|]. simpl.
  split; [by eapply BuildInv_keys_NoDup|]. split.
  - intros i n Hn.
    destruct (inv_coord _ _ Hinv _ _ Hn) as (p & q & c & (seg & Hin & Hnb & Hc & ->) & Hpq).
    pose proof (inv_key _ _ Hinv _ _ Hn) as Hkey.
    destruct (Hl seg p q Hin Hnb Hc) as (i' & j' & Hi' & Hj' & (n1 & Hn1 & He1) & (n2 & Hn2 & He2)).
    destruct Hc as (k & Hp & Hq).
    destruct Hpq as [Hpos|Hpos].
    + assert (coordKey p = keyOf n) as Hk by (by rewrite <- Hpos).
      rewrite Hk in Hi'. assert (i' = i) as -> by congruence.
      split.
      * assert (n1 = n) as -> by congruence. intros Hnil. rewrite Hnil in He1.
        by apply elem_of_nil in He1.
      * exists seg. repeat (split; [done|]). rewrite Hpos.
        by eapply list_elem_of_lookup_2.
    + assert (coordKey q = keyOf n) as Hk by (by rewrite <- Hpos).
      rewrite Hk in Hj'. assert (j' = i) as -> by congruence.
      split.
      * assert (n2 = n) as -> by congruence. intros Hnil. rewrite Hnil in He2.
        by apply elem_of_nil in He2.
      * exists seg. repeat (split; [done|]). rewrite Hpos.
        by eapply list_elem_of_lookup_2.
  - intros seg p Hin Hnb Hlen Hp.
    destruct (coordinate_consecutive seg p Hlen Hp) as [q [Hc|Hc]].
    + destruct (linked_nodeFor _ _ _ _ _ Hinv (Hl seg p q Hin Hnb Hc))
        as (i & j & n & Hi & _).
      exists i. split; [done|]. intros j' Hj'. by eapply nodeFor_unique.
    + destruct (linked_nodeFor _ _ _ _ _ Hinv (Hl seg q p Hin Hnb Hc))
        as (i & j & n & _ & Hj & _).
      exists j. split; [done|]. intros j' Hj'. by eapply nodeFor_unique.
Qed.

Lemma edgeCount_insert (ns : list GraphNode) idx n n' :
  ns !! idx = Some n →
  edgeCount (<[idx := n']> ns) + length (edges n) = edgeCount ns + length (edges n').
Proof.
  revert idx. induction ns as [|m ns IH]; intros [|idx] Hn; simpl in *; try done.
  - injection Hn as ->. unfold edgeCount. simpl. lia.
  - specialize (IH idx Hn). unfold edgeCount in *. simpl. lia.
Qed.

Lemma pushEdge_count ns idx e ns' :
  pushEdge ns idx e = Some ns' → edgeCount ns' = S (edgeCount ns).
Proof.
  unfold pushEdge. destruct (ns !! idx) as [n|] eqn:Hn; [|done]. intros [= <-].
  pose proof (edgeCount_insert ns idx n
                {| id := id n; lat := lat n; lng := lng n; edges := edges n ++ [e] |} Hn) as Hc.
  simpl in Hc. rewrite length_app in Hc. simpl in Hc. lia.
Qed.

Lemma getOrCreateNode_count st la lo :
  edgeCount (bs_nodes (fst (getOrCreateNode st la lo))) = edgeCount (bs_nodes st).
Proof.
  unfold getOrCreateNode. destruct (nodeIndexMap st !! _); simpl; [done|].
  unfold edgeCount. rewrite sum_list_with_app. simpl. lia.
Qed.

Lemma linkPair_count bc st p q st' :
  linkPair bc st p q = Some st' →
  edgeCount (bs_nodes st') = edgeCount (bs_nodes st) + 2.
Proof.
  unfold linkPair. destruct p as [lat1 lng1], q as [lat2 lng2].
  pose proof (getOrCreateNode_count st lat1 lng1) as H1.
  destruct (getOrCreateNode st lat1 lng1) as [st1 idx1].
  pose proof (getOrCreateNode_count st1 lat2 lng2) as H2.
  destruct (getOrCreateNode st1 lat2 lng2) as [st2 idx2]. simpl in H1, H2.
  destruct (pushEdge (bs_nodes st2) idx1 _) as [ns1|] eqn:E1; [|done]. simpl.
  destruct (pushEdge ns1 idx2 _) as [ns2|] eqn:E2; [|done]. simpl.
  intros [= <-]. simpl.
  apply pushEdge_count in E1, E2. lia.
Qed.

Lemma addCoords_count bc coords : ∀ st st',
  addCoords bc coords st = Some st' →
  edgeCount (bs_nodes st') = edgeCount (bs_nodes st) + 2 * (length coords - 1).
Proof.
  induction coords as [|p [|q rest] IH]; intros st st'.
  - intros [= <-]. simpl. lia.
  - intros [= <-]. simpl. lia.
  - change (addCoords bc (p :: q :: rest) st)
      with (linkPair bc st p q ≫= addCoords bc (q :: rest)).
    destruct (linkPair bc st p q) as [st1|] eqn:Hl; [|done]. simpl.
    intros Hrest. apply IH in Hrest. apply linkPair_count in Hl.
    simpl in *. lia.
Qed.

Lemma addSegments_count tall segs : ∀ st st',
  addSegments tall segs st = Some st' →
  edgeCount (bs_nodes st') = edgeCount (bs_nodes st) + 2 * legCount segs.
Proof.
  induction segs as [|seg segs IH]; intros st st'; simpl.
  - intros [= <-]. unfold legCount. simpl. lia.
  - unfold addSegment, legCount. rewrite filter_cons.
    destruct (decide (status seg = blocked)) as [Hb|Hb].
    + rewrite decide_False by (intros Hn; by apply Hn). simpl. apply IH.
    + rewrite decide_True by done.
      destruct (addCoords _ _ st) as [st1|] eqn:Hc; [|done]. simpl.
      intros Hrest. apply IH in Hrest. apply addCoords_count in Hc.
      unfold legCount in Hrest. lia.
Qed.

(** X4. The graph has two edge records for every pair of consecutive
    coordinates of a segment that is not blocked, and no others: the edge
    lists of its nodes hold, in total, twice as many records as there are
    such pairs, repeated pairs included. *)
Theorem buildGraph_edge_count (segs : list RoadSegment) (tall : bool) :
  ∃ g, buildGraph segs tall = Some g ∧ edgeCount (nodes g) = 2 * legCount segs.
Proof.
  destruct (buildGraph_spec segs tall) as (st & Hadd & Hg & _).
  exists {| nodes := bs_nodes st |}. split; [done|]. simpl.
  by rewrite (addSegments_count _ _ _ _ Hadd).
Qed.

Lemma addSegments_mode segs : ∀ st,
  (∀ seg, seg ∈ segs → status seg ≠ restricted) →
  addSegments true segs st = addSegments false segs st.
Proof.
  induction segs as [|seg segs IH]; intros st Hno; [done|]. simpl.
  assert (addSegment true st seg = addSegment false st seg) as ->.
  { unfold addSegment, baseCost.
    rewrite !(decide_False (P := status seg = restricted)); [done|..];
      apply Hno, list_elem_of_here. }
  destruct (addSegment false st seg); simpl; [|done].
  apply IH. intros s Hs. by apply Hno, list_elem_of_further.
Qed.

Lemma filterForVehicle_mode segs :
  (∀ seg, seg ∈ segs → status seg ≠ restricted) →
  filterForVehicle true segs = filterForVehicle false segs.
Proof.
  unfold filterForVehicle. induction segs as [|seg segs IH]; intros Hno; [done|].
  rewrite !filter_cons, IH by (intros s Hs; by apply Hno, list_elem_of_further).
  pose proof (Hno seg (list_elem_of_here _ _)) as Hseg.
  destruct (decide (status seg = passable)) as [Hp|Hp].
  - by rewrite decide_True by (by right).
  - by rewrite decide_False by (by intros [?|?]).
Qed.

Lemma filterForVehicle_elem tall segs seg :
  seg ∈ filterForVehicle tall segs → seg ∈ segs ∧ status seg ≠ blocked ∧
    (tall = false → status seg = passable).
Proof.
  unfold filterForVehicle. destruct tall; intros Hs; apply list_elem_of_filter in Hs as [Hst Hin].
  - split; [done|]. split; [|done]. destruct Hst as [-> | ->]; done.
  - split; [done|]. rewrite Hst. done.
Qed.

(** X5. When no segment is restricted the vehicle class makes no
    difference: [buildGraph] returns the same graph in both modes, and the
    routing effect has the same outcome. *)
Theorem mode_irrelevant_without_restricted (segs : list RoadSegment) :
  (∀ seg, seg ∈ segs → status seg ≠ restricted) →
  buildGraph segs true = buildGraph segs false ∧
  ∀ fuel startPoint endPoint,
    routeEffect fuel segs true startPoint endPoint =
    routeEffect fuel segs false startPoint endPoint.
Proof.
  intros Hno. split.
  - unfold buildGraph. by rewrite addSegments_mode.
  - intros fuel sp ep. unfold routeEffect.
    rewrite (filterForVehicle_mode segs Hno).
    assert (buildGraph (filterForVehicle false segs) true =
            buildGraph (filterForVehicle false segs) false) as ->; [|done].
    unfold buildGraph. rewrite addSegments_mode; [done|].
    intros seg Hseg. apply filterForVehicle_elem in Hseg as (_ & _ & Hp).
    by rewrite Hp.
Qed.

End GraphShape.

Section RouteFacts.
Context `{Number}.

Lemma nodesToLatLng_cons g i rest :
  nodesToLatLng g (i :: rest) =
  n ← nodes g !! i; coords ← nodesToLatLng g rest; Some ((lat n, lng n) :: coords).
Proof.
  unfold nodesToLatLng. simpl. destruct (nodes g !! i); simpl; [|done].
  by destruct (mapM _ rest).
Qed.

Lemma nodesToLatLng_lookup g : ∀ path coords,
  nodesToLatLng g path = Some coords →
  length coords = length path ∧
  ∀ k i, path !! k = Some i →
    ∃ n, nodes g !! i = Some n ∧ coords !! k = Some (lat n, lng n).
Proof.
  induction path as [|i path IH]; intros coords.
  - intros [= <-]. split; [done|]. intros k i Hk. by rewrite lookup_nil in Hk.
  - rewrite nodesToLatLng_cons.
    destruct (nodes g !! i) as [n|] eqn:Hn; [|done]. simpl.
    destruct (nodesToLatLng g path) as [cs|]; [|done]. simpl. intros [= <-].
    destruct (IH cs eq_refl) as [Hlen Hall]. split; [simpl; by rewrite Hlen|].
    intros [|k] j Hk; simpl in Hk.
    + injection Hk as <-. by exists n.
    + by apply Hall.
Qed.

Lemma sumLegs_polyline g : ∀ path coords total,
  nodesToLatLng g path = Some coords →
  sumLegs g path total =
  Some (foldl (λ total leg, (total + distance (fst leg) (snd leg))%num) total (legs coords)).
Proof.
  induction path as [|i [|j rest] IH]; intros coords total.
  - by intros [= <-].
  - rewrite nodesToLatLng_cons. destruct (nodes g !! i); simpl; [|done].
    by intros [= <-].
  - intros Hc. rewrite sumLegs_cons. rewrite nodesToLatLng_cons in Hc.
    destruct (nodes g !! i) as [n|] eqn:Hn; cbn [mbind option_bind] in *; [|done].
    destruct (nodesToLatLng g (j :: rest)) as [cs|] eqn:Hcs;
      cbn [mbind option_bind] in *; [|done].
    injection Hc as <-.
    pose proof Hcs as Hcs'. rewrite nodesToLatLng_cons in Hcs'.
    destruct (nodes g !! j) as [m|] eqn:Hm; cbn [mbind option_bind] in *; [|done].
    destruct (nodesToLatLng g rest) as [cs'|]; cbn [mbind option_bind] in *; [|done].
    injection Hcs' as <-.
    rewrite (IH _ _ eq_refl). done.
Qed.

Lemma calculateRouteDistance_polyline g path coords :
  nodesToLatLng g path = Some coords →
  calculateRouteDistance g path = Some (polylineLength coords).
Proof.
  intros Hc. unfold calculateRouteDistance, polylineLength.
  case_decide as Hlen; [|by apply sumLegs_polyline].
  destruct (nodesToLatLng_lookup _ _ _ Hc) as [Hl _].
  destruct coords as [|c [|c' cs]]; simpl in *; [done|done|lia].
Qed.

(** X6. The distance reported for a route is the length of the polyline
    drawn for it: whenever [nodesToLatLng] returns coordinates for a path,
    these are the positions of the nodes of the path, in order, and
    [calculateRouteDistance] returns the sum of the haversine distances
    between consecutive coordinates, zero for a single one. *)
Theorem route_distance_is_polyline_length (g : Graph) (path : list nat)
  (coords : list Coord) :
  nodesToLatLng g path = Some coords →
  length coords = length path ∧
  (∀ k i, path !! k = Some i →
     ∃ n, nodes g !! i = Some n ∧ coords !! k = Some (lat n, lng n)) ∧
  calculateRouteDistance g path = Some (polylineLength coords).
Proof.
  intros Hc. destruct (nodesToLatLng_lookup _ _ _ Hc) as [Hl Hk].
  split; [done|]. split; [done|]. by apply calculateRouteDistance_polyline.
Qed.

Lemma routeEffect_Route fuel segs tall sp ep path coords d eta :
  routeEffect fuel segs tall sp ep = Route path coords d eta →
  ∃ g, buildGraph (filterForVehicle tall segs) tall = Some g ∧
    astar fuel g (findNearestNode g (fst sp) (snd sp))
      (findNearestNode g (fst ep) (snd ep)) = Returned (Some path) ∧
    nodesToLatLng g path = Some coords ∧
    calculateRouteDistance g path = Some d ∧
    eta = calculateETA d (lit 30).
Proof.
  unfold routeEffect.
  destruct (buildGraph _ _) as [g|]; [|done]. case_decide; [done|].
  destruct (astar _ _ _ _) as [[[|i p]|]| |] eqn:Ha; try done.
  destruct (nodesToLatLng g (i :: p)) as [cs|] eqn:Hc; [|done].
  destruct (calculateRouteDistance g (i :: p)) as [dist|] eqn:Hd; [|done].
  intros [= <- <- <- <-]. by exists g.
Qed.

(** X7. A route reported by the routing effect is a route of the graph
    built from the segments the mode keeps: it starts at the node nearest
    to the start point, ends at the node nearest to the end point and moves
    along edges of that graph; the coordinates drawn are the positions of
    its nodes, the distance is the length of that polyline, and the
    estimate is that distance at 30 km/h. *)
Theorem routeEffect_reports_a_route (fuel : nat) (segs : list RoadSegment) (tall : bool)
  (startPoint endPoint : Coord) (path : list nat) (coords : list Coord)
  (d eta : num) :
  routeEffect fuel segs tall startPoint endPoint = Route path coords d eta →
  ∃ g s t,
    buildGraph (filterForVehicle tall segs) tall = Some g ∧
    findNearestNode g (fst startPoint) (snd startPoint) = Z.of_nat s ∧
    findNearestNode g (fst endPoint) (snd endPoint) = Z.of_nat t ∧
    head path = Some s ∧ last path = Some t ∧ (∃ c, walk (nodes g) path c) ∧
    nodesToLatLng g path = Some coords ∧ length coords = length path ∧
    d = polylineLength coords ∧ eta = calculateETA d (lit 30).
Proof.
  intros Hr. apply routeEffect_Route in Hr as (g & Hg & Ha & Hc & Hd & ->).
  destruct (astar_route _ _ _ _ _ Ha) as (Hs & Ht & Hw & Hh & Hl).
  exists g, (Z.to_nat (findNearestNode g (fst startPoint) (snd startPoint))),
    (Z.to_nat (findNearestNode g (fst endPoint) (snd endPoint))).
  rewrite !Z2Nat.id by done. repeat (split; [done|]).
  split; [by apply (nodesToLatLng_lookup _ _ _ Hc)|].
  split; [|done].
  rewrite (calculateRouteDistance_polyline _ _ _ Hc) in Hd. by injection Hd.
Qed.

(** X8. When both points snap to the same node the routing effect reports
    the route made of that node alone, of distance zero, as soon as the
    model is given fuel for one pass of the loop; it needs the distance
    from the node to itself to compare below [Infinity]. *)
Theorem routeEffect_same_node (fuel : nat) (segs : list RoadSegment) (tall : bool)
  (startPoint endPoint : Coord) (g : Graph) (i : nat) (n : GraphNode) :
  buildGraph (filterForVehicle tall segs) tall = Some g →
  findNearestNode g (fst startPoint) (snd startPoint) = Z.of_nat i →
  findNearestNode g (fst endPoint) (snd endPoint) = Z.of_nat i →
  nodes g !! i = Some n →
  (heuristic n n <? infinity)%num = true →
  routeEffect (S fuel) segs tall startPoint endPoint =
    Route [i] [(lat n, lng n)] (lit 0) (calculateETA (lit 0) (lit 30)).
Proof.
  intros Hg Hs Ht Hn Hh. unfold routeEffect. rewrite Hg, Hs, Ht.
  rewrite decide_False by lia.
  assert (nodeAt g (Z.of_nat i) = Some n) as Hat.
  { unfold nodeAt. rewrite decide_True by lia. by rewrite Nat2Z.id. }
  rewrite (astar_same_node fuel g _ n Hat), Hh, Nat2Z.id.
  rewrite nodesToLatLng_cons, Hn. simpl. done.
Qed.

End RouteFacts.

Section SplitFacts.
Context `{Number}.

Lemma slice_lookup (line : list Coord) from upto k :
  k < upto - from → slice line from upto !! k = line !! (from + k).
Proof. intros Hk. unfold slice. by rewrite lookup_take_lt, lookup_drop. Qed.

Lemma slice_lookup_Some (line : list Coord) from upto k p :
  slice line from upto !! k = Some p → line !! (from + k) = Some p.
Proof.
  unfold slice. intros Hk. apply lookup_take_Some in Hk as [Hk _].
  by rewrite lookup_drop in Hk.
Qed.

Lemma slice_whole (line : list Coord) from :
  drop from line = slice line from (length line).
Proof. unfold slice. rewrite take_ge; [done|]. rewrite length_drop. lia. Qed.

Lemma coversLeg_consecutive line seg i p q :
  coversLeg line seg i → line !! i = Some p → line !! S i = Some q →
  consecutive seg p q.
Proof.
  intros (from & upto & Hspan & Hfrom & Hupto) Hp Hq. exists (i - from).
  unfold spans in Hspan. rewrite Hspan, !slice_lookup by lia.
  replace (from + (i - from)) with i by lia.
  replace (from + S (i - from)) with (S i) by lia. done.
Qed.

Lemma stretches_snoc line segments segId from upto :
  stretches line segments →
  stretches line (segments ++ [newSegment segId (slice line from upto)]).
Proof.
  intros Hs seg Hin. apply elem_of_app in Hin as [Hin|Hin]; [by apply Hs|].
  apply list_elem_of_singleton in Hin as ->. split; [done|]. by exists from, upto.
Qed.

Lemma coveredBelow_app line segments more bound :
  coveredBelow line segments bound → coveredBelow line (segments ++ more) bound.
Proof.
  intros Hc i Hi Hlen. destruct (Hc i Hi Hlen) as (seg & Hin & Hcov).
  exists seg. split; [|done]. apply elem_of_app. by left.
Qed.

Lemma splitStep_cover line lineId segments currentStart bound intersection :
  stretches line segments → coveredBelow line segments bound → currentStart ≤ bound →
  let acc' := splitStep line lineId (segments, currentStart) intersection in
  stretches line (fst acc') ∧
  coveredBelow line (fst acc') (bound `max` snd acc') ∧
  snd acc' ≤ bound `max` snd acc'.
Proof.
  intros Hs Hc Hle. unfold splitStep.
  set (idx := findNearestPointIndex line intersection). simpl.
  split; [|split; [|lia]].
  - case_decide; [|done]. case_decide; [|done]. by apply stretches_snoc.
  - destruct (decide (currentStart < idx)) as [Hlt|Hge].
    2:{ replace (bound `max` idx) with bound by lia. done. }
    destruct (decide (1 < length (slice line currentStart (idx + 1)))) as [Hlen|Hlen].
    + intros i Hi Hil. destruct (decide (i < bound)) as [Hb|Hb].
      * destruct (Hc i Hb Hil) as (seg & Hin & Hcov).
        exists seg. split; [|done]. apply elem_of_app. by left.
      * eexists. split; [apply elem_of_app; right; apply list_elem_of_here|].
        exists currentStart, (idx + 1). split; [done|]. lia.
    + intros i Hi Hil. destruct (decide (i < bound)) as [Hb|Hb]; [by apply Hc|].
      exfalso. apply Hlen. unfold slice. rewrite length_take, length_drop. lia.
Qed.

Lemma splitLoop_cover line lineId intersections : ∀ segments currentStart bound,
  stretches line segments → coveredBelow line segments bound → currentStart ≤ bound →
  ∃ bound',
    stretches line (fst (foldl (splitStep line lineId) (segments, currentStart) intersections)) ∧
    coveredBelow line
      (fst (foldl (splitStep line lineId) (segments, currentStart) intersections)) bound' ∧
    snd (foldl (splitStep line lineId) (segments, currentStart) intersections) ≤ bound'.
Proof.
  induction intersections as [|x xs IH]; intros segments currentStart bound Hs Hc Hle.
  - by exists bound.
  - cbn [foldl].
    destruct (splitStep_cover line lineId segments currentStart bound x Hs Hc Hle)
      as (Hs' & Hc' & Hle').
    destruct (splitStep line lineId (segments, currentStart) x) as [segments' start'].
    simpl in Hs', Hc', Hle'. exact (IH _ _ _ Hs' Hc' Hle').
Qed.

Lemma splitLine_cover line intersections lineId :
  stretches line (splitLineAtIntersections line intersections lineId) ∧
  coveredBelow line (splitLineAtIntersections line intersections lineId) (length line).
Proof.
  unfold splitLineAtIntersections. case_decide.
  { split.
    - intros seg Hin. apply list_elem_of_singleton in Hin as ->. split; [done|].
      exists 0, (length line). unfold spans. simpl. by rewrite <- slice_whole.
    - intros i Hi Hil. eexists. split; [apply list_elem_of_here|].
      exists 0, (length line). split; [|lia]. unfold spans. simpl.
      by rewrite <- slice_whole. }
  destruct (splitLoop_cover line lineId
              (map fst (sortByDistance
                 (map (λ i, (i, getDistanceAlongLine line i)) intersections))) [] 0 0)
    as (bound & Hs & Hc & Hle).
  { intros seg Hin. by apply elem_of_nil in Hin. }
  { intros i Hi. lia. }
  { done. }
  destruct (foldl _ _ _) as [segments currentStart]. simpl in Hs, Hc, Hle.
  destruct (decide (Z.of_nat currentStart < Z.of_nat (length line) - 1)%Z) as [Hlt|Hge].
  - rewrite decide_True by (rewrite length_drop; lia). split.
    + rewrite slice_whole. by apply stretches_snoc.
    + intros i Hi Hil. destruct (decide (i < bound)) as [Hb|Hb].
      * destruct (Hc i Hb Hil) as (seg & Hin & Hcov).
        exists seg. split; [|done]. apply elem_of_app. by left.
      * eexists. split; [apply elem_of_app; right; apply list_elem_of_here|].
        exists currentStart, (length line). split; [apply slice_whole|]. lia.
  - split; [done|]. intros i Hi Hil. apply Hc; lia.
Qed.

(** X9. Splitting a line loses none of it and invents nothing.  Every
    segment [splitLineAtIntersections] returns is passable and is a
    stretch of the line: its coordinates are the points of the line from
    some index on, in order.  And every pair of consecutive points of the
    line is a pair of consecutive coordinates of some segment. *)
Theorem split_covers_the_line (line intersections : list Coord)
  (lineId : option string) :
  (∀ seg, seg ∈ splitLineAtIntersections line intersections lineId →
     status seg = passable ∧
     ∃ from, ∀ k p, coordinates seg !! k = Some p → line !! (from + k) = Some p) ∧
  (∀ i p q, line !! i = Some p → line !! S i = Some q →
     ∃ seg, seg ∈ splitLineAtIntersections line intersections lineId ∧
            consecutive seg p q).
Proof.
  destruct (splitLine_cover line intersections lineId) as [Hs Hc]. split.
  - intros seg Hin. destruct (Hs seg Hin) as [Hst (from & upto & Hspan)].
    split; [done|]. exists from. intros k p Hk. unfold spans in Hspan.
    rewrite Hspan in Hk. by eapply slice_lookup_Some.
  - intros i p q Hp Hq.
    destruct (Hc i) as (seg & Hin & Hcov).
    { apply lookup_lt_Some in Hp. lia. }
    { by apply lookup_lt_Some in Hq. }
    exists seg. split; [done|]. by eapply coversLeg_consecutive.
Qed.

Lemma initializeSegments_passable roadData seg :
  seg ∈ initializeSegments roadData ∅ → status seg = passable.
Proof.
  unfold initializeSegments. intros Hin.
  apply elem_of_flat_map in Hin as (feature & _ & Hseg).
  unfold segmentsOfFeature in Hseg. apply list_elem_of_fmap in Hseg as (seg0 & -> & Hseg0).
  simpl. rewrite lookup_empty.
  destruct (splitLine_cover (lineOf feature)
              (filter (λ x, onLine (lineOf feature) x = true)
                 (findAllIntersections (filter (λ f, isRoad f = true) roadData)))
              (lineIdOf feature)) as [Hs _].
  by apply Hs.
Qed.

Lemma initializeSegments_leg roadData feature i p q :
  feature ∈ roadData → isRoad feature = true →
  lineOf feature !! i = Some p → lineOf feature !! S i = Some q →
  ∃ seg, seg ∈ initializeSegments roadData ∅ ∧ status seg = passable ∧
         consecutive seg p q.
Proof.
  intros Hf Hroad Hp Hq.
  destruct (splitLine_cover (lineOf feature)
              (filter (λ x, onLine (lineOf feature) x = true)
                 (findAllIntersections (filter (λ f, isRoad f = true) roadData)))
              (lineIdOf feature)) as [Hs Hc].
  destruct (Hc i) as (seg & Hin & Hcov).
  { apply lookup_lt_Some in Hp. lia. }
  { by apply lookup_lt_Some in Hq. }
  pose proof (coversLeg_consecutive _ _ _ _ _ Hcov Hp Hq) as Hcons.
  eexists {| seg_id := seg_id seg; coordinates := coordinates seg;
             properties := feat_properties feature; status := _ |}.
  split; [|split; [|exact Hcons]].
  - unfold initializeSegments. apply elem_of_flat_map. exists feature. split.
    + by apply list_elem_of_filter.
    + unfold segmentsOfFeature. apply list_elem_of_fmap. exists seg. split; [|done].
      reflexivity.
  - simpl. rewrite lookup_empty. by apply Hs.
Qed.

Lemma filterForVehicle_passable tall (segs : list RoadSegment) :
  (∀ seg, seg ∈ segs → status seg = passable) → filterForVehicle tall segs = segs.
Proof.
  intros Hall. unfold filterForVehicle.
  induction segs as [|seg segs IH]; [by destruct tall|].
  assert (status seg = passable) as Hp by apply Hall, list_elem_of_here.
  assert (∀ s, s ∈ segs → status s = passable) as Hrest
    by (intros s Hs; by apply Hall, list_elem_of_further).
  specialize (IH Hrest).
  destruct tall; rewrite filter_cons.
  - rewrite decide_True by (by right). by rewrite IH.
  - rewrite decide_True by done. by rewrite IH.
Qed.

(** X10. Assembly and graph construction compose.  With no stored status,
    every pair of consecutive points of every road feature is joined, in
    both directions, by an edge of the graph the routing effect builds
    from the assembled segments, in either mode; the cost of the edge is
    the haversine distance between the two points, times 1. *)
Theorem assembled_roads_are_routable (roadData : list Feature) (feature : Feature)
  (i : nat) (p q : Coord) (tall : bool) :
  feature ∈ roadData → isRoad feature = true →
  lineOf feature !! i = Some p → lineOf feature !! S i = Some q →
  ∃ g, buildGraph (filterForVehicle tall (initializeSegments roadData ∅)) tall = Some g ∧
       hasEdge g p q (distance p q * lit 1)%num ∧
       hasEdge g q p (distance p q * lit 1)%num.
Proof.
  intros Hf Hroad Hp Hq.
  rewrite filterForVehicle_passable by apply initializeSegments_passable.
  destruct (initializeSegments_leg roadData feature i p q Hf Hroad Hp Hq)
    as (seg & Hin & Hst & Hc).
  exists (builtGraph (initializeSegments roadData ∅) tall).
  split; [apply buildGraph_builtGraph|].
  assert (status seg ≠ blocked) as Hnb by (by rewrite Hst).
  pose proof (buildGraph_hasEdge _ tall _ _ _ Hin Hnb Hc) as He.
  assert (segmentCost tall seg p q = (distance p q * lit 1)%num) as Hcost.
  { unfold segmentCost, distance, baseCost. rewrite Hst. by destruct tall. }
  by rewrite Hcost in He.
Qed.


End SplitFacts.

Section ReconcilerFacts.
Context `{Number}.

Lemma latestStatuses_snoc updates u :
  latestStatuses (updates ++ [u]) = <[segment_id u := upd_status u]> (latestStatuses updates).
Proof. unfold latestStatuses. by rewrite foldl_app. Qed.

Lemma latestStatuses_last updates segId :
  latestStatuses updates !! segId = lastStatusFor segId updates.
Proof.
  unfold lastStatusFor.
  induction updates as [|u updates IH] using rev_ind; [done|].
  rewrite latestStatuses_snoc, filter_app, filter_cons, filter_nil.
  destruct (decide (segment_id u = segId)) as [<-|Hne].
  - by rewrite lookup_insert_eq, last_snoc.
  - by rewrite lookup_insert_ne, app_nil_r.
Qed.

Lemma withStatus_same (s : RoadSegment) : withStatus s (status s) = s.
Proof. by destruct s. Qed.

Lemma unchanged_statuses (f : RoadSegment → RoadSegment) (l : list RoadSegment) :
  (∀ s, f s = s ∨ status (f s) ≠ status s) →
  existsb (λ '(segment, old), negb (bool_decide (status segment = status old)))
    (zip (map f l) l) = false →
  map f l = l.
Proof.
  intros Hf. induction l as [|s l IH]; [done|]. simpl.
  intros Hex. apply orb_false_elim in Hex as [Hs Hex].
  rewrite (IH Hex). f_equal.
  destruct (Hf s) as [?|Hne]; [done|].
  apply negb_false_iff, bool_decide_eq_true in Hs. done.
Qed.

Lemma realTimeEffect_segments now updates st :
  roadSegments (realTimeEffect now updates st) =
  map (reconciled (locallyUpdatedSegments st) updates) (roadSegments st).
Proof.
  unfold realTimeEffect. case_decide as Hempty.
  { destruct Hempty as [Hu|Hs].
    - destruct updates; [|done]. unfold reconciled, lastStatusFor. simpl.
      rewrite <- (map_id (roadSegments st)) at 1. apply map_ext.
      intros s. by case_decide.
    - by destruct (roadSegments st). }
  simpl.
  set (f := λ segment : RoadSegment,
         if decide (seg_id segment ∈ locallyUpdatedSegments st) then segment
         else match latestStatuses updates !! seg_id segment with
              | Some latestStatus =>
                  if decide (latestStatus ≠ status segment)
                  then withStatus segment latestStatus else segment
              | None => segment
              end).
  assert (∀ s, f s = reconciled (locallyUpdatedSegments st) updates s) as Hfr.
  { intros s. unfold f, reconciled. case_decide; [done|].
    rewrite latestStatuses_last. destruct (lastStatusFor _ _) as [x|]; [|done].
    case_decide as Hx; [done|]. subst x.
    by rewrite withStatus_same. }
  destruct (existsb _ _) eqn:Hex.
  - apply map_ext. intros s. apply Hfr.
  - rewrite <- (unchanged_statuses f (roadSegments st)) at 1.
    + apply map_ext. intros s. apply Hfr.
    + intros s. unfold f. case_decide; [by left|].
      destruct (latestStatuses updates !! seg_id s) as [x|]; [|by left].
      case_decide; [right|by left]. done.
    + done.
Qed.

Lemma reconciled_idempotent pending updates s :
  reconciled pending updates (reconciled pending updates s) = reconciled pending updates s.
Proof.
  unfold reconciled. destruct (decide (seg_id s ∈ pending)) as [Hp|Hp].
  - by rewrite decide_True.
  - destruct (lastStatusFor (seg_id s) updates) as [x|] eqn:Hx; simpl.
    + rewrite decide_False by done. by rewrite Hx.
    + rewrite decide_False by done. by rewrite Hx.
Qed.

Lemma realTimeEffect_shape now updates st :
  map (λ s, (seg_id s, coordinates s, properties s))
      (roadSegments (realTimeEffect now updates st)) =
  map (λ s, (seg_id s, coordinates s, properties s)) (roadSegments st).
Proof.
  rewrite realTimeEffect_segments, map_map. apply map_ext. intros s.
  unfold reconciled. case_decide; [done|]. by destruct (lastStatusFor _ _).
Qed.

(** X12. A run of the real-time effect changes nothing but statuses, and
    only those of segments without a pending local edit.  Whatever the
    feed and the state, the segment list after the effect is the list
    before it with this done to every segment: one whose identifier is flagged as
    locally updated is kept; any other takes the status of the last update
    the feed has for its identifier, and is kept when there is none.  The
    set of flagged identifiers is unchanged and no timer is dropped. *)
Theorem realTimeEffect_reconciles (now : Z) (updates : list RoadStatusUpdate)
  (st : MapState) :
  roadSegments (realTimeEffect now updates st) =
    map (reconciled (locallyUpdatedSegments st) updates) (roadSegments st) ∧
  map (λ s, (seg_id s, coordinates s, properties s))
      (roadSegments (realTimeEffect now updates st)) =
    map (λ s, (seg_id s, coordinates s, properties s)) (roadSegments st) ∧
  locallyUpdatedSegments (realTimeEffect now updates st) = locallyUpdatedSegments st ∧
  timers st `prefix_of` timers (realTimeEffect now updates st).
Proof.
  split; [apply realTimeEffect_segments|]. split; [|split].
  - apply realTimeEffect_shape.
  - unfold realTimeEffect. by case_decide.
  - unfold realTimeEffect. case_decide; [done|]. simpl. by apply prefix_app_r.
Qed.

(** X13. Running the effect a second time on the same feed changes no
    segment.  The effect depends on the segment list, so it runs again
    after its own update; that second run leaves the list as it is. *)
Theorem realTimeEffect_idempotent (now now' : Z) (updates : list RoadStatusUpdate)
  (st : MapState) :
  roadSegments (realTimeEffect now' updates (realTimeEffect now updates st)) =
  roadSegments (realTimeEffect now updates st).
Proof.
  rewrite (realTimeEffect_segments now' updates).
  assert (locallyUpdatedSegments (realTimeEffect now updates st) = locallyUpdatedSegments st)
    as -> by (unfold realTimeEffect; by case_decide).
  rewrite realTimeEffect_segments, map_map. apply map_ext. intros s.
  apply reconciled_idempotent.
Qed.

(** X14. A local edit is not undone by the run of the effect that follows
    it: after [handleSegmentStatusSelect] for a segment and then a run of
    the effect on any feed, every segment with that identifier has the status chosen, all
    other segments are as the delivery alone would leave them, and the
    identifier is still flagged. *)
Theorem local_edit_survives_feed (now : Z) (updates : list RoadStatusUpdate)
  (st : MapState) (segment : RoadSegment) (newStatus : RoadStatus) :
  let st' := realTimeEffect now updates
               (handleSegmentStatusSelect (Some segment) newStatus st) in
  roadSegments st' =
    map (λ s, if decide (seg_id s = seg_id segment) then withStatus s newStatus
              else reconciled (locallyUpdatedSegments st) updates s)
        (roadSegments st) ∧
  seg_id segment ∈ locallyUpdatedSegments st'.
Proof.
  intros st'. unfold st'. split.
  - rewrite realTimeEffect_segments. simpl. rewrite map_map. apply map_ext. intros s.
    unfold reconciled. destruct (decide (seg_id s = seg_id segment)) as [Heq|Hne]; simpl.
    + rewrite decide_True; [done|]. rewrite Heq.
      apply elem_of_union. right. by apply elem_of_singleton.
    + destruct (decide (seg_id s ∈ locallyUpdatedSegments st)) as [Hp|Hp].
      * rewrite decide_True; [done|]. apply elem_of_union. by left.
      * rewrite decide_False; [done|]. intros Hx.
        apply elem_of_union in Hx as [Hx|Hx]; [done|].
        by apply elem_of_singleton in Hx.
  - unfold realTimeEffect.
    case_decide; simpl; apply elem_of_union; right; by apply elem_of_singleton.
Qed.

Lemma fireTimers_flags now (l : list (Z * string)) : ∀ (s : gset string) segId,
  segId ∈ foldl (λ s '(due, segId), if decide (due ≤ now)%Z then s ∖ {[segId]} else s) s l ↔
  segId ∈ s ∧ ∀ due, (due, segId) ∈ l → ¬ (due ≤ now)%Z.
Proof.
  induction l as [|[due x] l IH]; intros s segId; simpl.
  - split; [|by intros [? _]]. intros Hs. split; [done|]. intros due Hd.
    by apply elem_of_nil in Hd.
  - rewrite IH. split.
    + intros [Hs Hl]. case_decide as Hdue.
      * apply elem_of_difference in Hs as [Hs Hx]. split; [done|].
        intros d Hd. apply elem_of_cons in Hd as [Heq|Hd]; [|by apply Hl].
        injection Heq as _ Heq. subst x. exfalso. apply Hx. by apply elem_of_singleton.
      * split; [done|]. intros d Hd.
        apply elem_of_cons in Hd as [Heq|Hd]; [|by apply Hl].
        by injection Heq as -> _.
    + intros [Hs Hl]. split.
      * case_decide as Hdue; [|done]. apply elem_of_difference. split; [done|].
        intros Hx. apply elem_of_singleton in Hx as ->.
        apply (Hl due); [apply list_elem_of_here|done].
      * intros d Hd. apply Hl. by apply list_elem_of_further.
Qed.

(** X15. How long a flag lasts.  After the timers due at [now] have run,
    an identifier is flagged exactly when it was flagged before and none
    of its timers was due.  So a run of the effect on a non-empty feed at
    [now] ends, 2000 ms later, the flag of every segment of the list; and
    the handler sets no timer itself: a flag for which no run of the
    effect has set a timer is not removed, however late. *)
Theorem flag_lifetime (st : MapState) :
  (∀ now segId,
     segId ∈ locallyUpdatedSegments (fireTimers now st) ↔
     segId ∈ locallyUpdatedSegments st ∧
     ∀ due, (due, segId) ∈ timers st → ¬ (due ≤ now)%Z) ∧
  (∀ now later updates segment,
     updates ≠ [] → segment ∈ roadSegments st → (now + 2000 ≤ later)%Z →
     seg_id segment ∉
       locallyUpdatedSegments (fireTimers later (realTimeEffect now updates st))) ∧
  (∀ segment newStatus later,
     (∀ due, (due, seg_id segment) ∉ timers st) →
     seg_id segment ∈
       locallyUpdatedSegments
         (fireTimers later (handleSegmentStatusSelect (Some segment) newStatus st))).
Proof.
  split; [|split].
  - intros now segId. apply fireTimers_flags.
  - intros now later updates segment Hu Hin Hlater Hflag.
    apply fireTimers_flags in Hflag as [Hp Hno].
    unfold realTimeEffect in Hp, Hno.
    assert (¬ (length updates = 0 ∨ length (roadSegments st) = 0)) as Hne.
    { intros [Hl|Hl]; apply nil_length_inv in Hl; [done|].
      rewrite Hl in Hin. by apply elem_of_nil in Hin. }
    rewrite decide_False in Hp, Hno by done.
    simpl in Hp, Hno. apply (Hno (now + 2000)%Z); [|done].
    apply elem_of_app. right. apply list_elem_of_omap.
    exists segment. split; [done|]. by rewrite decide_True.
  - intros segment newStatus later Hno. apply fireTimers_flags. simpl. split.
    + apply elem_of_union. right. by apply elem_of_singleton.
    + intros due Hd. by apply Hno in Hd.
Qed.

Lemma handleEvent_shape st e :
  map (λ s, (seg_id s, coordinates s, properties s)) (roadSegments (handleEvent st e)) =
  map (λ s, (seg_id s, coordinates s, properties s)) (roadSegments st).
Proof.
  unfold handleEvent. destruct (snd e) as [[segment|] newStatus|updates].
  - simpl. rewrite map_map. apply map_ext. intros s. simpl. by case_decide.
  - done.
  - by rewrite realTimeEffect_shape.
Qed.

(** X22. No sequence of local edits, feed deliveries and timers changes
    anything but statuses: the segments keep their number, their order,
    their identifiers, their coordinates and their properties. *)
Theorem events_change_only_statuses (st : MapState) (es : list (Z * Event)) :
  map (λ s, (seg_id s, coordinates s, properties s)) (roadSegments (runEvents st es)) =
  map (λ s, (seg_id s, coordinates s, properties s)) (roadSegments st).
Proof.
  unfold runEvents. revert st. induction es as [|e es IH]; intros st; [done|].
  simpl. by rewrite IH, handleEvent_shape.
Qed.

Lemma filterForVehicle_excluded tall (l : list RoadSegment) segId newStatus :
  newStatus = blocked ∨ (newStatus = restricted ∧ tall = false) →
  filterForVehicle tall
    (map (λ s, if decide (seg_id s = segId) then withStatus s newStatus else s) l) =
  filterForVehicle tall (filter (λ s, seg_id s ≠ segId) l).
Proof.
  intros Hex. induction l as [|s l IH]; [by destruct tall|].
  rewrite filter_cons. simpl map.
  assert (∀ x (xs ys : list RoadSegment),
            filterForVehicle tall xs = filterForVehicle tall ys →
            filterForVehicle tall (x :: xs) = filterForVehicle tall (x :: ys)) as Hcons.
  { intros x xs ys Heq. unfold filterForVehicle in *.
    destruct tall; rewrite !filter_cons; case_decide; by rewrite Heq. }
  destruct (decide (seg_id s = segId)) as [Heq|Hne].
  - rewrite decide_False by (intros Hn; by apply Hn). rewrite <- IH.
    unfold filterForVehicle. destruct tall; rewrite filter_cons; simpl.
    + rewrite decide_False; [done|]. destruct Hex as [->|[_ ?]]; [|done].
      by intros [?|?].
    + rewrite decide_False; [done|]. by destruct Hex as [->|[-> _]].
  - rewrite decide_True by done. by apply Hcons.
Qed.

(** X23. Marking a road blocked takes it out of routing at once: after
    [handleSegmentStatusSelect] with the status [blocked] the computation
    of the routing effect gives what it gives on the list without the
    segments of that identifier.  The same holds in standard mode after
    marking it restricted. *)
Theorem excluded_status_removes_from_routing (st : MapState) (segment : RoadSegment)
  (fuel : nat) (startPoint endPoint : Coord) :
  (∀ tall,
     routeEffect fuel
       (roadSegments (handleSegmentStatusSelect (Some segment) blocked st))
       tall startPoint endPoint =
     routeEffect fuel (filter (λ s, seg_id s ≠ seg_id segment) (roadSegments st))
       tall startPoint endPoint) ∧
  routeEffect fuel
    (roadSegments (handleSegmentStatusSelect (Some segment) restricted st))
    false startPoint endPoint =
  routeEffect fuel (filter (λ s, seg_id s ≠ seg_id segment) (roadSegments st))
    false startPoint endPoint.
Proof.
  split; [intros tall|]; unfold routeEffect, handleSegmentStatusSelect;
    cbn [roadSegments]; rewrite filterForVehicle_excluded; auto.
Qed.

End ReconcilerFacts.

Section InputFacts.
Context `{Number}.

Lemma nearestOnLeg_choice click acc leg :
  nearestOnLeg click acc leg = acc ∨
  ((pointToLineDistance click (fst leg) (snd leg) <=? lit 100)%num = true ∧
   fst (nearestOnLeg click acc leg) = Some (projectOnto click leg)).
Proof.
  destruct acc as [nearestPoint minDistance], leg as [[lat1 lng1] [lat2 lng2]].
  unfold nearestOnLeg, projectOnto. simpl.
  destruct (_ <? minDistance)%num; simpl; [|by left].
  destruct (_ <=? lit 100)%num; simpl; [by right|by left].
Qed.

Lemma nearestOnLegs_inv click (P : Coord → Prop) (l : list (Coord * Coord)) : ∀ acc,
  (∀ p, fst acc = Some p → P p) →
  (∀ leg, leg ∈ l →
     (pointToLineDistance click (fst leg) (snd leg) <=? lit 100)%num = true →
     P (projectOnto click leg)) →
  ∀ p, fst (foldl (nearestOnLeg click) acc l) = Some p → P p.
Proof.
  induction l as [|leg l IH]; intros acc Hacc Hl; simpl; [done|].
  apply IH.
  - destruct (nearestOnLeg_choice click acc leg) as [->|[Hd ->]]; [done|].
    intros p [= <-]. apply Hl; [apply list_elem_of_here|done].
  - intros leg' Hin. apply Hl. by apply list_elem_of_further.
Qed.

Lemma nearestOnSegments_inv click (P : Coord → Prop) (segs : list RoadSegment) : ∀ acc,
  (∀ p, fst acc = Some p → P p) →
  (∀ seg leg, seg ∈ segs → status seg ≠ blocked → leg ∈ legs (coordinates seg) →
     (pointToLineDistance click (fst leg) (snd leg) <=? lit 100)%num = true →
     P (projectOnto click leg)) →
  ∀ p, fst (foldl (nearestOnSegment click) acc segs) = Some p → P p.
Proof.
  induction segs as [|seg segs IH]; intros acc Hacc Hs; simpl; [done|].
  apply IH.
  - unfold nearestOnSegment. case_decide as Hb; [done|].
    apply nearestOnLegs_inv; [done|].
    intros leg Hleg. apply (Hs seg); [apply list_elem_of_here|done..].
  - intros seg' leg Hin. apply (Hs seg'). by apply list_elem_of_further.
Qed.

Lemma nearestOnSegments_filter click (segs : list RoadSegment) : ∀ acc,
  foldl (nearestOnSegment click) acc (filter (λ s, status s ≠ blocked) segs) =
  foldl (nearestOnSegment click) acc segs.
Proof.
  induction segs as [|seg segs IH]; intros acc; [done|].
  rewrite filter_cons. destruct (decide (status seg = blocked)) as [Hb|Hb].
  - rewrite decide_False by (intros Hn; by apply Hn). cbn [foldl].
    assert (nearestOnSegment click acc seg = acc) as ->
      by (unfold nearestOnSegment; by rewrite decide_True).
    apply IH.
  - rewrite decide_True by done. cbn [foldl]. apply IH.
Qed.

(** X16. Where a routing point can be placed.  [findNearestRoadPoint]
    gives the same answer with the blocked segments removed.  A point it
    returns is the projection of the click on a pair of consecutive
    coordinates of a segment that is not blocked, and that pair is not
    farther than 100 from the click.  It returns no point when no segment
    that is not blocked has two coordinates. *)
Theorem findNearestRoadPoint_snaps (roadSegments : list RoadSegment)
  (clickLat clickLng : num) :
  findNearestRoadPoint roadSegments clickLat clickLng =
    findNearestRoadPoint (filter (λ s, status s ≠ blocked) roadSegments)
      clickLat clickLng ∧
  (∀ p, findNearestRoadPoint roadSegments clickLat clickLng = Some p →
     snappedTo roadSegments (clickLat, clickLng) p) ∧
  (Forall (λ s, status s = blocked ∨ length (coordinates s) < 2) roadSegments →
   findNearestRoadPoint roadSegments clickLat clickLng = None).
Proof.
  unfold findNearestRoadPoint. split; [by rewrite nearestOnSegments_filter|]. split.
  - apply nearestOnSegments_inv; [done|].
    intros seg leg Hin Hnb Hleg Hd. by exists seg, leg.
  - intros Hall.
    destruct (fst (foldl _ _ _)) as [p|] eqn:Hp; [|done]. exfalso.
    revert p Hp. apply (nearestOnSegments_inv _ (λ _, False)); [done|].
    intros seg leg Hin Hnb Hleg _.
    rewrite Forall_forall in Hall. destruct (Hall seg Hin) as [?|Hlen]; [done|].
    unfold legs in Hleg. destruct (coordinates seg) as [|c [|c' cs]]; simpl in *.
    + by apply elem_of_nil in Hleg.
    + by apply elem_of_nil in Hleg.
    + lia.
Qed.

End InputFacts.

Section UpdateLogFacts.








End UpdateLogFacts.

Section Completeness.
Context `{NumberLaws}.
Local Open Scope num_scope.

Lemma relaxEdge_goalPending g goalNode goal cur st e st' :
  goalPending goal st →
  relaxEdge g goalNode cur st e = Returned st' →
  goalPending goal st'.
Proof.
  intros Hp. unfold relaxEdge.
  destruct (gScore st !! cur) as [gc|]; [|by intros [= <-]].
  destruct (gScore st !! to e) as [gt|]; [|by intros [= <-]].
  destruct (_ <? gt); [|by intros [= <-]].
  destruct (nodes g !! to e) as [n|]; [|done]. intros [= <-].
  unfold goalPending. simpl.
  destruct (decide (goal = to e)) as [->|Hne].
  - left. apply setAdd_elem. by left.
  - destruct Hp as [Hp|Hp]; [left|right].
    + apply setAdd_elem. by right.
    + by rewrite lookup_insert_ne.
Qed.

Lemma relaxEdges_goalPending g goalNode goal cur es : ∀ st st',
  goalPending goal st →
  relaxEdges g goalNode cur es st = Returned st' →
  goalPending goal st'.
Proof.
  induction es as [|e es IH]; intros st st' Hp; simpl; [by intros [= <-]|].
  destruct (relaxEdge g goalNode cur st e) as [st1| |] eqn:He; [|done..].
  apply IH. by eapply relaxEdge_goalPending.
Qed.

Lemma astarIter_goalPending fuel g goal goalNode st st' :
  goalPending goal st →
  astarIter fuel g goal goalNode st = Continue st' →
  goalPending goal st'.
Proof.
  intros Hp. unfold astarIter.
  destruct (openSet st) as [|x xs] eqn:Ho; [done|]. rewrite <- Ho.
  destruct (fst (pickCurrent _ _)) as [cur|]; [|done].
  case_decide as Hg; [by destruct (reconstructPath _ _ _ _)|].
  destruct (nodes g !! cur) as [node|]; [|done].
  destruct (relaxEdges _ _ _ _ _) as [st2| |] eqn:Hrel; [|done..].
  intros [= <-]. eapply relaxEdges_goalPending; [|exact Hrel].
  destruct Hp as [Hp|Hp]; [left|by right]. simpl.
  apply setDelete_elem. split; [|done]. by intros ->.
Qed.

Lemma loopsTo_inv g start goal goalNode st st' :
  Consistent g goal goalNode →
  loopsTo g goal goalNode st st' →
  SearchInv g start goalNode None [] st → goalPending goal st →
  SearchInv g start goalNode None [] st' ∧ goalPending goal st'.
Proof.
  intros Hcon Hloop. induction Hloop as [st|fuel st st1 st2 Hit Hloop IH]; [done|].
  intros Hinv Hp. apply IH.
  - by eapply astarIter_inv.
  - by eapply astarIter_goalPending.
Qed.

Lemma astarInit_goalPending g start goal sn goalNode :
  Consistent g goal goalNode →
  goalPending goal (astarInit g start sn goalNode).
Proof.
  intros Hcon. unfold goalPending. simpl.
  destruct (decide (goal = start)) as [->|Hne].
  - left. apply list_elem_of_here.
  - right. rewrite lookup_insert_ne by done.
    rewrite initScores_lookup, decide_True; [done|].
    apply wellFormed_ids; [apply (con_wf _ _ _ Hcon)|].
    eapply lookup_lt_Some. apply (con_goal _ _ _ Hcon).
Qed.

Lemma astar_null_unreachable g fuel s t tn :
  nodeAt g t = Some tn → Consistent g (Z.to_nat t) tn →
  astar fuel g s t = Returned None →
  ∀ path c, walk (nodes g) path c →
    head path = Some (Z.to_nat s) → last path = Some (Z.to_nat t) →
    (c <? infinity) = false.
Proof.
  intros Ht Hcon Hnull path c Hw Hh Hl.
  destruct (astar_null_loops _ _ _ _ Hnull) as (sn & tn' & st' & Hs & Ht' & Hloop & Hempty).
  rewrite Ht in Ht'. injection Ht' as <-.
  apply nodeAt_Some in Hs as [_ Hs].
  destruct (loopsTo_inv g (Z.to_nat s) _ _ _ _ Hcon Hloop) as [Hinv Hp].
  { by apply astarInit_inv with (goal := Z.to_nat t). }
  { by apply astarInit_goalPending. }
  destruct (frontier g (Z.to_nat s) (Z.to_nat t) tn st' path c Hcon Hinv Hw Hl
              (Z.to_nat s) (lit 0) (lit 0)) as [(gg & Hgg & Hle)|(y & fy & Hy & _)].
  - done.
  - by eapply lookup_lt_Some.
  - apply (si_start _ _ _ _ _ _ Hinv).
  - apply nle_refl.
  - destruct Hp as [Hp|Hp]; [rewrite Hempty in Hp; by apply elem_of_nil in Hp|].
    rewrite Hp in Hgg. injection Hgg as <-. by rewrite zero_add in Hle.
  - rewrite Hempty in Hy. by apply elem_of_nil in Hy.
Qed.

(** X21. In exact arithmetic, for a graph built in standard mode from
    segments whose distinct coordinates have distinct node keys and on
    whose coordinates [haversineDistance] is a distance: [astar] returns
    [null] only when the goal cannot be reached, that is, when no walk of
    the graph from the start to the goal has a cost below [Infinity]. *)
Theorem astar_null_only_if_unreachable (segs : list RoadSegment) (g : Graph)
  (fuel : nat) (s t : Z) :
  buildGraph segs false = Some g →
  keysDistinct (coordsOf segs) →
  MetricOn (coordsOf segs) →
  astar fuel g s t = Returned None →
  ¬ ∃ path c, walk (nodes g) path c ∧
      head path = Some (Z.to_nat s) ∧ last path = Some (Z.to_nat t) ∧
      (c <? infinity) = true.
Proof.
  intros Hg Hkeys Hm Hnull (path & c & Hw & Hh & Hl & Hc).
  destruct (astar_null_loops _ _ _ _ Hnull) as (sn & tn & st' & _ & Ht & _).
  assert (Consistent g (Z.to_nat t) tn) as Hcon by (by eapply standard_consistent).
  rewrite (astar_null_unreachable g fuel s t tn Ht Hcon Hnull path c Hw Hh Hl) in Hc.
  discriminate Hc.
Qed.

End Completeness.

Section Connectivity.
Context `{Number}.

(** Along a sequence of coordinates whose consecutive pairs are linked,
    the graph has a walk from the node of any coordinate to the node of
    any later one. *)
Lemma chain_walk P (bst : BuildState) (line : list Coord) :
  BuildInv P bst →
  (∀ k p q, line !! k = Some p → line !! S k = Some q → ∃ c, linked bst p q c) →
  ∀ n a p q, line !! a = Some p → line !! (a + S n) = Some q →
    ∃ i j path c,
      nodeFor (bs_nodes bst) p i ∧ nodeFor (bs_nodes bst) q j ∧
      walk (bs_nodes bst) path c ∧ head path = Some i ∧ last path = Some j.
Proof.
  intros Hinv Hlinked. induction n as [|n IH]; intros a p q Hp Hq.
  - replace (a + 1) with (S a) in Hq by lia.
    destruct (Hlinked a p q Hp Hq) as (c & i & j & Hi & Hj & Hij & _).
    exists i, j, [i; j], (c + lit 0)%num.
    split; [by apply (inv_index _ _ Hinv)|]. split; [by apply (inv_index _ _ Hinv)|].
    split; [|done]. apply walk_cons; [done|apply walk_one].
  - destruct (lookup_lt_is_Some_2 line (S a)) as [r Hr].
    { apply lookup_lt_Some in Hq. lia. }
    replace (a + S (S n)) with (S a + S n) in Hq by lia.
    destruct (IH (S a) r q Hr Hq) as (j1 & j & path & c2 & Hj1 & Hj & Hw & Hh & Hl).
    destruct (Hlinked a p r Hp Hr) as (c1 & i & j1' & Hi & Hj1' & Hij & _).
    apply (inv_index _ _ Hinv) in Hi, Hj1'.
    assert (j1' = j1) as -> by (by eapply nodeFor_unique).
    destruct path as [|v vs]; [done|]. simpl in Hh. injection Hh as ->.
    exists i, j, (i :: j1 :: vs), (c1 + c2)%num.
    split; [done|]. split; [done|]. split; [by apply walk_cons|]. split; [done|].
    by rewrite last_cons_cons.
Qed.

Lemma buildGraph_chain segs tall (line : list Coord) a b p q :
  (∀ k x y, line !! k = Some x → line !! S k = Some y →
     ∃ seg, seg ∈ segs ∧ status seg ≠ blocked ∧ consecutive seg x y) →
  a < b → line !! a = Some p → line !! b = Some q →
  ∃ g i j path c,
    buildGraph segs tall = Some g ∧
    nodeFor (nodes g) p i ∧ nodeFor (nodes g) q j ∧
    walk (nodes g) path c ∧ head path = Some i ∧ last path = Some j.
Proof.
  intros Hlegs Hab Hp Hq.
  destruct (buildGraph_spec segs tall) as (st & _ & Hg & Hinv & Hl).
  replace b with (a + S (b - a - 1)) in Hq by lia.
  destruct (chain_walk _ st line Hinv) with (n := b - a - 1) (a := a) (p := p) (q := q)
    as (i & j & path & c & Hi & Hj & Hw & Hh & Hlast); [|done|done|].
  - intros k x y Hx Hy. destruct (Hlegs k x y Hx Hy) as (seg & Hin & Hnb & Hc).
    eexists. by apply (Hl seg).
  - by exists {| nodes := bs_nodes st |}, i, j, path, c.
Qed.

(** X24. A segment that is not blocked can be travelled from end to end:
    for any two of its coordinates, the graph has a walk from the node of
    the earlier one to the node of the later one. *)
Theorem segments_are_traversable (segs : list RoadSegment) (tall : bool)
  (seg : RoadSegment) (a b : nat) (p q : Coord) :
  seg ∈ segs → status seg ≠ blocked → a < b →
  coordinates seg !! a = Some p → coordinates seg !! b = Some q →
  ∃ g i j path c,
    buildGraph segs tall = Some g ∧
    nodeFor (nodes g) p i ∧ nodeFor (nodes g) q j ∧
    walk (nodes g) path c ∧ head path = Some i ∧ last path = Some j.
Proof.
  intros Hin Hnb Hab Hp Hq.
  apply (buildGraph_chain segs tall (coordinates seg) a b p q); try done.
  intros k x y Hx Hy. exists seg. split; [done|]. split; [done|]. by exists k.
Qed.

(** X25. A road of the map can be travelled from end to end after
    assembly, however it was split: with no stored status, for any two
    points of a road feature, the graph the routing effect builds from the
    assembled segments has a walk from the node of the earlier point to
    the node of the later one. *)
Theorem roads_are_traversable (roadData : list Feature) (feature : Feature)
  (tall : bool) (a b : nat) (p q : Coord) :
  feature ∈ roadData → isRoad feature = true → a < b →
  lineOf feature !! a = Some p → lineOf feature !! b = Some q →
  ∃ g i j path c,
    buildGraph (filterForVehicle tall (initializeSegments roadData ∅)) tall = Some g ∧
    nodeFor (nodes g) p i ∧ nodeFor (nodes g) q j ∧
    walk (nodes g) path c ∧ head path = Some i ∧ last path = Some j.
Proof.
  intros Hf Hroad Hab Hp Hq.
  rewrite filterForVehicle_passable by apply initializeSegments_passable.
  apply (buildGraph_chain _ tall (lineOf feature) a b p q); try done.
  intros k x y Hx Hy.
  destruct (initializeSegments_leg roadData feature k x y Hf Hroad Hx Hy)
    as (seg & Hin & Hst & Hc).
  exists seg. split; [done|]. split; [by rewrite Hst|done].
Qed.

End Connectivity.

Section ShortestRoute.
Context `{NumberLaws}.
Local Open Scope num_scope.





End ShortestRoute.

(** ** Instances of the further theorems on the concrete inputs *)

Section Instances.
Import Exact Scenario Samples.
Local Open Scope num_scope.

Lemma nodes_in_range (g : @Graph exact) (i : nat) :
  selfDistanceFinite g i = true →
  ∃ n, nodes g !! i = Some n ∧ (heuristic n n <? infinity) = true.
Proof.
  unfold selfDistanceFinite. destruct (nodes g !! i) as [n|]; [|discriminate].
  intros Hh. by exists n.
Qed.

Lemma astar_returns_a_route_witness :
  astar 100 (graphOf preference false) 0 1 = Returned (Some [0; 2; 1]) ∧
  (0 ≤ 0)%Z ∧ (0 ≤ 1)%Z ∧ [0; 2; 1] ≠ [] ∧
  head [0; 2; 1] = Some (Z.to_nat 0) ∧ last [0; 2; 1] = Some (Z.to_nat 1) ∧
  ∃ c, walk (nodes (graphOf preference false)) [0; 2; 1] c.
Proof.
  assert (astar 100 (graphOf preference false) 0 1 = Returned (Some [0; 2; 1])) as Ha
    by (vm_compute; reflexivity).
  split; [exact Ha|].
  exact (astar_returns_a_route 100 (graphOf preference false) 0 1 [0; 2; 1] Ha).
Defined.

Lemma astar_start_is_goal_witness :
  ∃ n, nodeAt (graphOf preference false) 0 = Some n ∧
    astar 1 (graphOf preference false) 0 0 =
      if heuristic n n <? infinity then Returned (Some [Z.to_nat 0]) else Thrown (-1).
Proof.
  assert (selfDistanceFinite (graphOf preference false) 0 = true) as Hf
    by (vm_compute; reflexivity).
  destruct (nodes_in_range _ _ Hf) as (n & Hn & _).
  exists n. split; [exact Hn|].
  exact (astar_start_is_goal 0 (graphOf preference false) 0 n Hn).
Defined.

Lemma mode_irrelevant_without_restricted_witness :
  (∀ seg, seg ∈ islands → status seg ≠ restricted) ∧
  buildGraph islands true = buildGraph islands false ∧
  ∀ fuel startPoint endPoint,
    routeEffect fuel islands true startPoint endPoint =
    routeEffect fuel islands false startPoint endPoint.
Proof.
  assert (∀ seg, seg ∈ islands → status seg ≠ restricted) as Hno.
  { intros seg Hin.
    apply elem_of_cons in Hin as [->|Hin]; [discriminate|].
    apply elem_of_cons in Hin as [->|Hin]; [discriminate|].
    exact (False_rect _ (proj1 (elem_of_nil _) Hin)). }
  split; [exact Hno|].
  exact (mode_irrelevant_without_restricted islands Hno).
Defined.

Lemma route_distance_is_polyline_length_witness :
  ∃ coords,
    nodesToLatLng (graphOf preference false) [0; 2; 1] = Some coords ∧
    length coords = length [0; 2; 1] ∧
    (∀ k i, [0; 2; 1] !! k = Some i →
       ∃ n, nodes (graphOf preference false) !! i = Some n ∧
            coords !! k = Some (lat n, lng n)) ∧
    calculateRouteDistance (graphOf preference false) [0; 2; 1] =
      Some (polylineLength coords).
Proof.
  assert (length (nodes (graphOf preference false)) = 3) as Hlen
    by (vm_compute; reflexivity).
  assert (Forall (λ i, i < length (nodes (graphOf preference false))) [0; 2; 1]) as Hin.
  { rewrite Hlen. repeat constructor. }
  destruct (nodesToLatLng_Some _ _ Hin) as [coords Hc].
  exists coords. split; [exact Hc|].
  exact (route_distance_is_polyline_length (graphOf preference false) [0; 2; 1] coords Hc).
Defined.

Lemma routeEffect_reports_a_route_witness :
  ∃ path coords d eta,
    routeEffect 100 preference true A B = Route path coords d eta ∧
    ∃ g s t,
      buildGraph (filterForVehicle true preference) true = Some g ∧
      findNearestNode g (fst A) (snd A) = Z.of_nat s ∧
      findNearestNode g (fst B) (snd B) = Z.of_nat t ∧
      head path = Some s ∧ last path = Some t ∧ (∃ c, walk (nodes g) path c) ∧
      nodesToLatLng g path = Some coords ∧ length coords = length path ∧
      d = polylineLength coords ∧ eta = calculateETA d (lit 30).
Proof.
  assert (routeSummary (routeEffect 100 preference true A B) = Some ([0; 1], Some 100%Q))
    as Hsum by (vm_compute; reflexivity).
  destruct (routeEffect 100 preference true A B) as [| |path coords d eta| |] eqn:Hr;
    [discriminate Hsum|discriminate Hsum| |discriminate Hsum|discriminate Hsum].
  exists path, coords, d, eta. split; [reflexivity|].
  exact (routeEffect_reports_a_route 100 preference true A B path coords d eta Hr).
Defined.

Lemma routeEffect_same_node_witness :
  ∃ n,
    buildGraph (filterForVehicle true preference) true
      = Some (graphOf (filterForVehicle true preference) true) ∧
    nodes (graphOf (filterForVehicle true preference) true) !! 0 = Some n ∧
    routeEffect 1 preference true A nearA =
      Route [0] [(lat n, lng n)] (lit 0) (calculateETA (lit 0) (lit 30)).
Proof.
  assert (buildGraph (filterForVehicle true preference) true
            = Some (graphOf (filterForVehicle true preference) true)) as Hg
    by apply buildGraph_builtGraph.
  assert (findNearestNode (graphOf (filterForVehicle true preference) true)
            (fst A) (snd A) = Z.of_nat 0) as Hs by (vm_compute; reflexivity).
  assert (findNearestNode (graphOf (filterForVehicle true preference) true)
            (fst nearA) (snd nearA) = Z.of_nat 0) as Ht by (vm_compute; reflexivity).
  assert (selfDistanceFinite (graphOf (filterForVehicle true preference) true) 0 = true)
    as Hf by (vm_compute; reflexivity).
  destruct (nodes_in_range _ _ Hf) as (n & Hn & Hh).
  exists n. split; [exact Hg|]. split; [exact Hn|].
  exact (routeEffect_same_node 0 preference true A nearA
           (graphOf (filterForVehicle true preference) true) 0 n Hg Hs Ht Hn Hh).
Defined.

Lemma assembled_roads_are_routable_witness :
  street ∈ [street] ∧ isRoad street = true ∧
  lineOf street !! 0 = Some (xlit 0, xlit 0) ∧
  lineOf street !! 1 = Some (xlit 1, xlit 0) ∧
  ∃ g, buildGraph (filterForVehicle false (initializeSegments [street] ∅)) false = Some g ∧
       hasEdge g (xlit 0, xlit 0) (xlit 1, xlit 0)
         (distance (xlit 0, xlit 0) (xlit 1, xlit 0) * lit 1) ∧
       hasEdge g (xlit 1, xlit 0) (xlit 0, xlit 0)
         (distance (xlit 0, xlit 0) (xlit 1, xlit 0) * lit 1).
Proof.
  assert (street ∈ [street]) as H1 by apply list_elem_of_here.
  assert (isRoad street = true) as H2 by (vm_compute; reflexivity).
  assert (lineOf street !! 0 = Some (xlit 0, xlit 0)) as H3 by reflexivity.
  assert (lineOf street !! 1 = Some (xlit 1, xlit 0)) as H4 by reflexivity.
  repeat (split; [assumption|]).
  exact (assembled_roads_are_routable [street] street 0 (xlit 0, xlit 0) (xlit 1, xlit 0)
           false H1 H2 H3 H4).
Defined.



Lemma findNearestNode_nearest_witness :
  findNearestNode (graphOf preference false) (fst nearA) (snd nearA) = Z.of_nat 0 ∧
  ∃ n, nodes (graphOf preference false) !! 0 = Some n ∧
    (distanceTo (fst nearA) (snd nearA) n <? infinity) = true ∧
    Forall (λ m, distanceTo (fst nearA) (snd nearA) n ⪯ distanceTo (fst nearA) (snd nearA) m)
      (nodes (graphOf preference false)) ∧
    ∀ j m, (j < 0)%nat → nodes (graphOf preference false) !! j = Some m →
      (distanceTo (fst nearA) (snd nearA) n <? distanceTo (fst nearA) (snd nearA) m) = true.
Proof.
  assert (findNearestNode (graphOf preference false) (fst nearA) (snd nearA) = Z.of_nat 0)
    as Hr by (vm_compute; reflexivity).
  split; [exact Hr|].
  exact (proj2 (findNearestNode_nearest (graphOf preference false) (fst nearA) (snd nearA))
           0%nat Hr).
Defined.

Lemma findNearestPointIndex_nearest_witness :
  (lineOf street ≠ [] →
   (findNearestPointIndex (lineOf street) (xlit 1, xlit 0) < length (lineOf street))%nat) ∧
  findNearestPointIndex [] (xlit 1, xlit 0) = 0%nat ∧
  (∀ q, lineOf street !! findNearestPointIndex (lineOf street) (xlit 1, xlit 0) = Some q →
     Forall (λ r, vertexDistance (xlit 1, xlit 0) q ⪯ vertexDistance (xlit 1, xlit 0) r)
       (lineOf street)).
Proof. exact (findNearestPointIndex_nearest (lineOf street) (xlit 1, xlit 0)). Defined.

Lemma coordsOf_islands : coordsOf islands = islandPoints.
Proof. reflexivity. Qed.

Lemma islands_keysDistinct : keysDistinct (coordsOf islands).
Proof.
  rewrite coordsOf_islands. intros p q Hp Hq Hk.
  repeat (apply elem_of_cons in Hp as [->|Hp]);
    [..|exact (False_rect _ (proj1 (elem_of_nil _) Hp))];
    (repeat (apply elem_of_cons in Hq as [->|Hq]);
       [..|exact (False_rect _ (proj1 (elem_of_nil _) Hq))]);
    first [exfalso; vm_compute in Hk; discriminate Hk | reflexivity].
Qed.

Lemma islands_metric : MetricOn (coordsOf islands).
Proof.
  rewrite coordsOf_islands.
  assert (∀ (P : @Coord exact → Prop),
            P A → P B → P C → P D → ∀ p, p ∈ islandPoints → P p) as Hcases.
  { intros P HA HB HC HD p Hp.
    repeat (apply elem_of_cons in Hp as [->|Hp]); try assumption.
    exact (False_rect _ (proj1 (elem_of_nil _) Hp)). }
  split.
  - intros p q Hp Hq. revert q Hq. revert p Hp.
    apply (Hcases (λ p, ∀ q, q ∈ islandPoints → lit 0 ⪯ distance p q));
      apply (Hcases (λ q, _ ⪯ distance _ q)); vm_compute; reflexivity.
  - apply (Hcases (λ p, distance p p ⪯ lit 0)); vm_compute; reflexivity.
  - intros p q Hp Hq. revert q Hq. revert p Hp.
    apply (Hcases (λ p, ∀ q, q ∈ islandPoints → distance p q ⪯ distance q p));
      apply (Hcases (λ q, distance _ q ⪯ distance q _)); vm_compute; reflexivity.
  - intros p q r Hp Hq Hr. revert r Hr. revert q Hq. revert p Hp.
    apply (Hcases (λ p, ∀ q, q ∈ islandPoints → ∀ r, r ∈ islandPoints →
                          distance p r ⪯ distance p q + distance q r));
      apply (Hcases (λ q, ∀ r, r ∈ islandPoints →
                            distance _ r ⪯ distance _ q + distance q r));
      apply (Hcases (λ r, distance _ r ⪯ distance _ _ + distance _ r));
      vm_compute; reflexivity.
Qed.

Lemma astar_null_only_if_unreachable_witness :
  buildGraph islands false = Some (graphOf islands false) ∧
  keysDistinct (coordsOf islands) ∧ MetricOn (coordsOf islands) ∧
  astar 100 (graphOf islands false) 0 2 = Returned None ∧
  ¬ ∃ path c, walk (nodes (graphOf islands false)) path c ∧
      head path = Some (Z.to_nat 0) ∧ last path = Some (Z.to_nat 2) ∧
      (c <? infinity) = true.
Proof.
  assert (buildGraph islands false = Some (graphOf islands false)) as Hg
    by apply buildGraph_builtGraph.
  assert (astar 100 (graphOf islands false) 0 2 = Returned None) as Ha
    by (vm_compute; reflexivity).
  split; [exact Hg|]. split; [exact islands_keysDistinct|].
  split; [exact islands_metric|]. split; [exact Ha|].
  exact (astar_null_only_if_unreachable islands (graphOf islands false) 100 0 2
           Hg islands_keysDistinct islands_metric Ha).
Defined.

Lemma segments_are_traversable_witness :
  detour ∈ preference ∧ status detour ≠ blocked ∧ 0 < 2 ∧
  coordinates detour !! 0 = Some A ∧ coordinates detour !! 2 = Some B ∧
  ∃ g i j path c,
    buildGraph preference true = Some g ∧
    nodeFor (nodes g) A i ∧ nodeFor (nodes g) B j ∧
    walk (nodes g) path c ∧ head path = Some i ∧ last path = Some j.
Proof.
  assert (detour ∈ preference) as H1
    by exact (list_elem_of_lookup_2 preference 1 detour eq_refl).
  assert (status detour ≠ blocked) as H2 by discriminate.
  assert (0 < 2) as H3 by lia.
  assert (coordinates detour !! 0 = Some A) as H4 by reflexivity.
  assert (coordinates detour !! 2 = Some B) as H5 by reflexivity.
  repeat (split; [assumption|]).
  exact (segments_are_traversable preference true detour 0 2 A B H1 H2 H3 H4 H5).
Defined.

Lemma roads_are_traversable_witness :
  street ∈ [street] ∧ isRoad street = true ∧ 0 < 1 ∧
  lineOf street !! 0 = Some (xlit 0, xlit 0) ∧
  lineOf street !! 1 = Some (xlit 1, xlit 0) ∧
  ∃ g i j path c,
    buildGraph (filterForVehicle true (initializeSegments [street] ∅)) true = Some g ∧
    nodeFor (nodes g) (xlit 0, xlit 0) i ∧ nodeFor (nodes g) (xlit 1, xlit 0) j ∧
    walk (nodes g) path c ∧ head path = Some i ∧ last path = Some j.
Proof.
  assert (street ∈ [street]) as H1 by apply list_elem_of_here.
  assert (isRoad street = true) as H2 by (vm_compute; reflexivity).
  assert (0 < 1) as H3 by lia.
  assert (lineOf street !! 0 = Some (xlit 0, xlit 0)) as H4 by reflexivity.
  assert (lineOf street !! 1 = Some (xlit 1, xlit 0)) as H5 by reflexivity.
  repeat (split; [assumption|]).
  exact (roads_are_traversable [street] street true 0 1 (xlit 0, xlit 0) (xlit 1, xlit 0)
           H1 H2 H3 H4 H5).
Defined.





End Instances.

